(** * mcp-router: the bundle conversion queue and the bundle processor

    A shallow embedding of

    - [bundle-processor.ts]: [detectBundleType], [processMcpbJson];
    - the conversion queue service ([ConversionQueueService]): [enqueue],
      [enqueueAndWait], [getJob], [onUpdate], [offUpdate], [processNext].

    JavaScript objects that the code shares by reference (job records, byte
    arrays, configuration objects) live in an explicit heap; a reference is
    an index or a key into it.  The asynchronous [processNext] is split at
    its single [await]: the part that runs synchronously when the function
    is called, and the continuation that runs when the awaited promise
    settles.  A run of the service is a sequence of event-loop turns: calls
    of the public methods and settlements of the awaited conversion.

    What the environment provides is read from the calls: the ids
    [uuidv4()] returns (assumed distinct and non-empty, [fresh_uuids]), the
    readings of [Date.now()], and how the promise of [processBundleFile]
    settles.  Listeners registered by [onUpdate] are observers: they record
    the snapshot they are handed and return.  The module [Faults] has the
    same service with listeners that may throw. *)

From Stdlib Require Import Floats.PrimFloat.
From stdpp Require Import base option numbers list sorting strings gmap.

Open Scope Z_scope.

Set Warnings "-clear-no-such-hyp".

(** ** Values thrown by JavaScript code *)

(** What the queue reads of a thrown value [err]: [err?.message] and
    [String(err)]. *)
Record Thrown := mkThrown {
  message : option string;
  to_String : string
}.

(** [new Error(msg)] *)
Definition Error (msg : string) : Thrown :=
  {| message := Some msg;
     to_String := if decide (msg = "") then "Error" else "Error: " +:+ msg |}.

(** [new TypeError(msg)], as the engine raises it on a property read of [null]. *)
Definition TypeError (msg : string) : Thrown :=
  {| message := Some msg;
     to_String := if decide (msg = "") then "TypeError" else "TypeError: " +:+ msg |}.

(** ** bundle-processor.ts *)
Module Bundle.

Inductive BundleType := dxt | mcpb_json.

#[global] Instance BundleType_eq_dec : EqDecision BundleType.
Proof. solve_decision. Defined.

(** *** Strings *)

(** [String.prototype.toLowerCase] on the characters that matter to the
    suffix tests below: the letters A-Z.  No character outside A-Z lowers to
    one of the characters of ".dxt" or ".mcpb", so the suffix tests see the
    same answer as with the full Unicode mapping. *)
Definition lower_char (c : Ascii.ascii) : Ascii.ascii :=
  let n := Ascii.N_of_ascii c in
  if ((65 <=? n) && (n <=? 90))%N then Ascii.ascii_of_N (n + 32) else c.

Fixpoint toLowerCase (s : string) : string :=
  match s with
  | EmptyString => EmptyString
  | String c s' => String (lower_char c) (toLowerCase s')
  end.

(** [s.endsWith(suffix)] *)
Definition endsWith (s suffix : string) : bool :=
  let n := String.length s in
  let k := String.length suffix in
  if (k <=? n)%nat then bool_decide (String.substring (n - k) k s = suffix) else false.

(** *** Bytes and text *)

(** A [Uint8Array] is a list of bytes, each in 0..255. *)
Abbreviation bytes := (list Z) (only parsing).

(** The state of the UTF-8 decoder between two bytes: the code point
    gathered so far, how many continuation bytes are still needed, and
    the range the next byte has to fall in. *)
Record utf8_state := mkUtf8 {
  u_cp : Z;
  u_needed : nat;
  u_lower : Z;
  u_upper : Z
}.

Definition utf8_idle : utf8_state := mkUtf8 0 0 0x80 0xBF.

Definition REPLACEMENT : Z := 0xFFFD.

(** A byte read when no sequence is open. *)
Definition utf8_lead (b : Z) : list Z * utf8_state :=
  if b <=? 0x7F then ([b], utf8_idle)
  else if (0xC2 <=? b) && (b <=? 0xDF) then
    ([], mkUtf8 (Z.land b 0x1F) 1 0x80 0xBF)
  else if (0xE0 <=? b) && (b <=? 0xEF) then
    ([], mkUtf8 (Z.land b 0xF) 2
           (if b =? 0xE0 then 0xA0 else 0x80)
           (if b =? 0xED then 0x9F else 0xBF))
  else if (0xF0 <=? b) && (b <=? 0xF4) then
    ([], mkUtf8 (Z.land b 0x7) 3
           (if b =? 0xF0 then 0x90 else 0x80)
           (if b =? 0xF4 then 0x8F else 0xBF))
  else ([REPLACEMENT], utf8_idle).

(** One byte of input.  A byte that cannot continue the open sequence
    closes it with U+FFFD and is read again as a lead byte. *)
Definition utf8_step (st : utf8_state) (b : Z) : list Z * utf8_state :=
  match u_needed st with
  | O => utf8_lead b
  | S k =>
    if (u_lower st <=? b) && (b <=? u_upper st) then
      let cp := Z.lor (Z.shiftl (u_cp st) 6) (Z.land b 0x3F) in
      match k with
      | O => ([cp], utf8_idle)
      | S _ => ([], mkUtf8 cp k 0x80 0xBF)
      end
    else
      let '(out, st') := utf8_lead b in (REPLACEMENT :: out, st')
  end.

Fixpoint utf8_run (st : utf8_state) (bs : bytes) : list Z :=
  match bs with
  | [] => match u_needed st with O => [] | S _ => [REPLACEMENT] end
  | b :: bs' => let '(out, st') := utf8_step st b in out ++ utf8_run st' bs'
  end.

(** [Buffer.from(bs).toString("utf8")]: the text as its list of code points
    (no byte-order mark is dropped). *)
Definition utf8_decode (bs : bytes) : list Z := utf8_run utf8_idle bs.

(** White space and line terminators, what [trimStart] strips. *)
Definition is_js_space (c : Z) : bool :=
  bool_decide (c ∈ [0x09; 0x0A; 0x0B; 0x0C; 0x0D; 0x20; 0xA0; 0x1680;
                    0x2028; 0x2029; 0x202F; 0x205F; 0x3000; 0xFEFF])
  || ((0x2000 <=? c) && (c <=? 0x200A)).

Fixpoint trimStart (text : list Z) : list Z :=
  match text with
  | c :: rest => if is_js_space c then trimStart rest else text
  | [] => []
  end.

(** [text.startsWith("{")] *)
Definition startsWith_brace (text : list Z) : bool :=
  match text with
  | c :: _ => c =? 0x7B
  | [] => false
  end.

(** *** detectBundleType *)

Definition detectBundleType (file : bytes) (fileName : option string) : BundleType :=
  let name := toLowerCase (default "" fileName) in
  if endsWith name ".dxt" then dxt
  else if endsWith name ".mcpb" then mcpb_json
  else
    let maxPeek := Nat.min 64 (length file) in
    let peek := take maxPeek file in
    let text := utf8_decode peek in
    let trimmed := trimStart text in
    let isZip := bool_decide (peek !! 0%nat = Some 0x50)
                 && bool_decide (peek !! 1%nat = Some 0x4b) in
    if isZip then dxt
    else if startsWith_brace trimmed then mcpb_json
    else dxt.

(** The classification as the specification words it: extension hints,
    then the leading two bytes, then the payload content (all of it)
    trimmed of leading white space. *)
Definition classify_whole_payload (file : bytes) (fileName : option string) : BundleType :=
  let name := toLowerCase (default "" fileName) in
  if endsWith name ".dxt" then dxt
  else if endsWith name ".mcpb" then mcpb_json
  else match file with
       | 0x50 :: 0x4b :: _ => dxt
       | _ => if startsWith_brace (trimStart (utf8_decode file)) then mcpb_json
              else dxt
       end.

(** *** JSON values *)

(** What [JSON.parse] returns.  A number is an IEEE double; an object keeps
    its properties in insertion order. *)
#[warnings="-register-all"]
Inductive JSON :=
| JNull
| JBool (b : bool)
| JNumber (x : float)
| JString (s : string)
| JArray (items : list JSON)
| JObject (fields : list (string * JSON)).

(** A JavaScript value read from a property: [None] is [undefined]. *)
Definition truthy (v : option JSON) : bool :=
  match v with
  | None | Some JNull => false
  | Some (JBool b) => b
  | Some (JNumber x) => negb (PrimFloat.eqb x 0 || PrimFloat.is_nan x)
  | Some (JString s) => negb (bool_decide (s = ""))
  | Some (JArray _) | Some (JObject _) => true
  end.

(** [typeof v === "object"] *)
Definition typeof_object (v : JSON) : bool :=
  match v with
  | JNull | JArray _ | JObject _ => true
  | _ => false
  end.

Fixpoint assoc (k : string) (fields : list (string * JSON)) : option JSON :=
  match fields with
  | [] => None
  | (k', v) :: rest => if decide (k = k') then Some v else assoc k rest
  end.

Fixpoint assoc_set (k : string) (v : JSON) (fields : list (string * JSON))
  : list (string * JSON) :=
  match fields with
  | [] => [(k, v)]
  | (k', v') :: rest =>
    if decide (k = k') then (k, v) :: rest else (k', v') :: assoc_set k v rest
  end.

(** [v.k] for one of the property names this file reads ([server], [name],
    [serverType], [env], [disabled], [autoStart], [verificationStatus]): none
    of them is on a prototype, so only an object's own properties answer;
    reading a property of [null] throws. *)
Definition get_prop (v : JSON) (k : string) : Thrown + option JSON :=
  match v with
  | JNull =>
    inl (TypeError ("Cannot read properties of null (reading '" +:+ k +:+ "')"))
  | JObject fields => inr (assoc k fields)
  | _ => inr None
  end.

(** [o.k = v].  Only objects reach the assignments of [processMcpbJson]
    (an array has no [name] and is rejected before); other values are left
    as they are. *)
Definition set_prop (o : JSON) (k : string) (v : JSON) : JSON :=
  match o with
  | JObject fields => JObject (assoc_set k v fields)
  | _ => o
  end.

(** [v ?? d] *)
Definition nullish_or (v : option JSON) (d : JSON) : JSON :=
  match v with
  | None | Some JNull => d
  | Some x => x
  end.

Notation "'do' x <- e ; k" :=
  (match e with inl err => inl err | inr x => k end)
  (at level 10, x name, e at level 100, k at level 200, only parsing).

(** *** processMcpbJson *)
Section ProcessMcpbJson.

(** [JSON.parse] on the decoded text: a value, or the [SyntaxError] it
    throws. *)
Variable JSON_parse : list Z -> Thrown + JSON.

(** The optional fields, lines 50-61, on a record that passed validation. *)
Definition with_defaults (config : JSON) : Thrown + JSON :=
  do serverType <- get_prop config "serverType";
  let config :=
    if negb (truthy serverType) then set_prop config "serverType" (JString "local")
    else config in
  do env <- get_prop config "env";
  let config :=
    if negb (truthy env) then set_prop config "env" (JObject []) else config in
  do disabled <- get_prop config "disabled";
  let config := set_prop config "disabled" (nullish_or disabled (JBool false)) in
  do autoStart <- get_prop config "autoStart";
  let config := set_prop config "autoStart" (nullish_or autoStart (JBool false)) in
  do verificationStatus <- get_prop config "verificationStatus";
  let config :=
    set_prop config "verificationStatus"
      (nullish_or verificationStatus (JString "unverified")) in
  inr config.

(** The body of the [try] block. *)
Definition mcpb_try (file : bytes) : Thrown + JSON :=
  let jsonStr := utf8_decode file in
  do parsed <- JSON_parse jsonStr;
  do server <- get_prop parsed "server";
  let config := if truthy server then default parsed server else parsed in
  if negb (truthy (Some config)) || negb (typeof_object config) then
    inl (Error "Invalid MCPB content: not an object")
  else
    do name <- get_prop config "name";
    if negb (truthy name) then inl (Error "Invalid MCPB: missing 'name'")
    else with_defaults config.

(** The [catch] logs and throws the same value again. *)
Definition processMcpbJson (file : bytes) : Thrown + JSON :=
  match mcpb_try file with
  | inr config => inr config
  | inl err => (* logError *) inl err
  end.

(** *** processBundleFile *)

(** The archive decoder, [processDxtFile], of another module: how its
    promise settles for a payload. *)
Variable processDxtFile : list Z -> Thrown + JSON.

(** How the promise of [processBundleFile] settles. *)
Definition processBundleFile (file : bytes) (fileName : option string) : Thrown + JSON :=
  match detectBundleType file fileName with
  | dxt => processDxtFile file
  | mcpb_json => processMcpbJson file
  end.

End ProcessMcpbJson.

(** The record [processMcpbJson] validates (line 41): [parsed.server] when
    that is truthy, [parsed] itself otherwise. *)
Definition decoded_record (parsed : JSON) : Thrown + JSON :=
  do server <- get_prop parsed "server";
  inr (if truthy server then default parsed server else parsed).

(** The properties of the record [with_defaults] returns, from those of
    the record it is given. *)
Definition defaults_of (fields : list (string * JSON)) (k : string) : option JSON :=
  if decide (k = "serverType") then
    Some (if truthy (assoc k fields) then default JNull (assoc k fields)
          else JString "local")
  else if decide (k = "env") then
    Some (if truthy (assoc k fields) then default JNull (assoc k fields)
          else JObject [])
  else if decide (k = "disabled") then
    Some (nullish_or (assoc k fields) (JBool false))
  else if decide (k = "autoStart") then
    Some (nullish_or (assoc k fields) (JBool false))
  else if decide (k = "verificationStatus") then
    Some (nullish_or (assoc k fields) (JString "unverified"))
  else assoc k fields.


(** *** The decoder between two bytes *)

(** What holds of the decoder's state between two bytes: the next byte is
    looked for among the continuation bytes, and the bits gathered so far
    together with the range of the next byte exclude a code point below
    0x80 (an overlong form). *)
Definition utf8_open (st : utf8_state) : Prop :=
  0x80 ≤ u_lower st ∧ u_upper st ≤ 0xBF
  ∧ match u_needed st with
    | 0%nat => True
    | 1%nat => 2 ≤ u_cp st
    | 2%nat => 1 ≤ u_cp st ∨ (0 ≤ u_cp st ∧ 0xA0 ≤ u_lower st)
    | 3%nat => 1 ≤ u_cp st ∨ (0 ≤ u_cp st ∧ 0x90 ≤ u_lower st)
    | _ => False
    end.

End Bundle.

(** ** The conversion queue service *)
Module ConversionQueue.

(** A reference to a heap object. *)
Abbreviation loc := nat (only parsing).

Inductive ConversionStatus := Queued | Processing | Completed | Failed.

#[global] Instance ConversionStatus_eq_dec : EqDecision ConversionStatus.
Proof. solve_decision. Defined.

(** [file] and [result] are references: the [Uint8Array] the caller passed
    in and the configuration object the processor returned. *)
Record ConversionJob := mkJob {
  id : string;
  status : ConversionStatus;
  progress : Z;
  file : loc;
  fileName : option string;
  result : option loc;
  error : option string;
  createdAt : Z;
  updatedAt : Z
}.

(** How the promise of [processBundleFile] settles. *)
Inductive Outcome :=
| Fulfilled (result : loc)
| Rejected (err : Thrown).

(** The listeners of the "update" event: a callback registered by
    [onUpdate], named by a handle, or the closure [enqueueAndWait] creates,
    which captures the id of its job. *)
Inductive Listener :=
| Subscriber (h : nat)
| Waiter (wid : string).

#[global] Instance Listener_eq_dec : EqDecision Listener.
Proof. solve_decision. Defined.

(** A settled promise of [enqueueAndWait]: [resolve(result)] or
    [reject(new Error(msg))]. *)
Inductive Settled :=
| Resolved (result : loc)
| RejectedWith (msg : string).

Record World := mkWorld {
  (* the heap: job records, byte arrays, configuration objects *)
  objs : list ConversionJob;
  bufs : gmap loc (list Z);
  cfgs : gmap loc Bundle.JSON;
  (* the fields of ConversionQueueService *)
  jobs : gmap string loc;
  queue : list string;
  processing : bool;
  emitter : list Listener;
  (* activations of processNext parked at the await, each with its [job] *)
  awaiting : list loc;
  (* the promises enqueueAndWait returned that have settled, by job id *)
  promises : gmap string Settled;
  (* what was observed: every emitted snapshot, what each subscriber was
     handed, and rejections of processNext nobody handles *)
  broadcasts : list ConversionJob;
  inbox : list (nat * ConversionJob);
  unhandled : list Thrown
}.

Definition set_objs (v : list ConversionJob) (w : World) : World :=
  mkWorld v (bufs w) (cfgs w) (jobs w) (queue w) (processing w) (emitter w)
          (awaiting w) (promises w) (broadcasts w) (inbox w) (unhandled w).
Definition set_bufs (v : gmap loc (list Z)) (w : World) : World :=
  mkWorld (objs w) v (cfgs w) (jobs w) (queue w) (processing w) (emitter w)
          (awaiting w) (promises w) (broadcasts w) (inbox w) (unhandled w).
Definition set_cfgs (v : gmap loc Bundle.JSON) (w : World) : World :=
  mkWorld (objs w) (bufs w) v (jobs w) (queue w) (processing w) (emitter w)
          (awaiting w) (promises w) (broadcasts w) (inbox w) (unhandled w).
Definition set_jobs (v : gmap string loc) (w : World) : World :=
  mkWorld (objs w) (bufs w) (cfgs w) v (queue w) (processing w) (emitter w)
          (awaiting w) (promises w) (broadcasts w) (inbox w) (unhandled w).
Definition set_queue (v : list string) (w : World) : World :=
  mkWorld (objs w) (bufs w) (cfgs w) (jobs w) v (processing w) (emitter w)
          (awaiting w) (promises w) (broadcasts w) (inbox w) (unhandled w).
Definition set_processing (v : bool) (w : World) : World :=
  mkWorld (objs w) (bufs w) (cfgs w) (jobs w) (queue w) v (emitter w)
          (awaiting w) (promises w) (broadcasts w) (inbox w) (unhandled w).
Definition set_emitter (v : list Listener) (w : World) : World :=
  mkWorld (objs w) (bufs w) (cfgs w) (jobs w) (queue w) (processing w) v
          (awaiting w) (promises w) (broadcasts w) (inbox w) (unhandled w).
Definition set_awaiting (v : list loc) (w : World) : World :=
  mkWorld (objs w) (bufs w) (cfgs w) (jobs w) (queue w) (processing w) (emitter w)
          v (promises w) (broadcasts w) (inbox w) (unhandled w).
Definition set_promises (v : gmap string Settled) (w : World) : World :=
  mkWorld (objs w) (bufs w) (cfgs w) (jobs w) (queue w) (processing w) (emitter w)
          (awaiting w) v (broadcasts w) (inbox w) (unhandled w).
Definition set_broadcasts (v : list ConversionJob) (w : World) : World :=
  mkWorld (objs w) (bufs w) (cfgs w) (jobs w) (queue w) (processing w) (emitter w)
          (awaiting w) (promises w) v (inbox w) (unhandled w).
Definition set_inbox (v : list (nat * ConversionJob)) (w : World) : World :=
  mkWorld (objs w) (bufs w) (cfgs w) (jobs w) (queue w) (processing w) (emitter w)
          (awaiting w) (promises w) (broadcasts w) v (unhandled w).
Definition set_unhandled (v : list Thrown) (w : World) : World :=
  mkWorld (objs w) (bufs w) (cfgs w) (jobs w) (queue w) (processing w) (emitter w)
          (awaiting w) (promises w) (broadcasts w) (inbox w) v.

(** [new ConversionQueueService()] on an empty heap. *)
Definition init : World :=
  mkWorld [] ∅ ∅ ∅ [] false [] [] ∅ [] [] [].

(** *** The event emitter *)

(** [removeListener]: at most one instance goes, the one added last. *)
Fixpoint removeListener (l : Listener) (ls : list Listener) : list Listener :=
  match ls with
  | [] => []
  | l' :: rest =>
    if decide (l ∈ rest) then l' :: removeListener l rest
    else if decide (l = l') then rest
    else l' :: rest
  end.

(** [job.error || "Conversion failed"] *)
Definition error_or_default (e : option string) : string :=
  match e with
  | Some msg => if decide (msg = "") then "Conversion failed" else msg
  | None => "Conversion failed"
  end.

(** [resolve] and [reject] of a promise: only the first call settles it. *)
Definition settle_promise (wid : string) (s : Settled) (w : World) : World :=
  match promises w !! wid with
  | Some _ => w
  | None => set_promises (<[wid := s]> (promises w)) w
  end.

(** One listener is called with the snapshot.  A subscriber is an observer:
    it records what it was handed and returns.  A waiter is the closure of
    lines 49-58. *)
Definition notify (l : Listener) (job : ConversionJob) (w : World) : World :=
  match l with
  | Subscriber h => set_inbox (inbox w ++ [(h, job)]) w
  | Waiter wid =>
    if decide (id job ≠ wid) then w
    else match status job, result job with
         | Completed, Some r =>
           settle_promise wid (Resolved r)
             (set_emitter (removeListener (Waiter wid) (emitter w)) w)
         | Failed, _ =>
           settle_promise wid (RejectedWith (error_or_default (error job)))
             (set_emitter (removeListener (Waiter wid) (emitter w)) w)
         | _, _ => w
         end
  end.

(** [emitter.emit("update", snapshot)]: the listeners registered when the
    call starts are called in registration order. *)
Definition emit (snapshot : ConversionJob) (w : World) : World :=
  foldl (fun w l => notify l snapshot w)
        (set_broadcasts (broadcasts w ++ [snapshot]) w)
        (emitter w).

(** [emitter.emit("update", { ...job })] for the record at [job]. *)
Definition emit_copy (job : loc) (w : World) : World :=
  match objs w !! job with
  | Some j => emit j w
  | None => w
  end.

(** Assignments to the properties of the record at [job]. *)
Definition assign (job : loc) (f : ConversionJob -> ConversionJob) (w : World) : World :=
  set_objs (alter f job (objs w)) w.

(** Lines 86-88. *)
Definition start_fields (now : Z) (j : ConversionJob) : ConversionJob :=
  mkJob (id j) Processing 5 (file j) (fileName j) (result j) (error j)
        (createdAt j) now.

(** Line 93. *)
Definition halfway_fields (j : ConversionJob) : ConversionJob :=
  mkJob (id j) (status j) 50 (file j) (fileName j) (result j) (error j)
        (createdAt j) (updatedAt j).

(** Lines 97-100. *)
Definition completed_fields (r : loc) (now : Z) (j : ConversionJob) : ConversionJob :=
  mkJob (id j) Completed 100 (file j) (fileName j) (Some r) (error j)
        (createdAt j) now.

(** [err?.message || String(err)] *)
Definition error_text (err : Thrown) : string :=
  match message err with
  | Some msg => if decide (msg = "") then to_String err else msg
  | None => to_String err
  end.

(** Lines 104-106. *)
Definition failed_fields (err : Thrown) (now : Z) (j : ConversionJob) : ConversionJob :=
  mkJob (id j) Failed (progress j) (file j) (fileName j) (result j)
        (Some (error_text err)) (createdAt j) now.

(** *** processNext *)

(** A call of [processNext], up to its [await]: the guard, the shift, the
    lookup, the first half of the [try] block; then the activation is parked
    with the promise of [processBundleFile]. *)
Definition processNext (now : Z) (w : World) : World :=
  if processing w then w
  else match queue w with
       | [] => w
       | nextId :: rest =>
         let w := set_queue rest w in
         if decide (nextId = "") then w
         else match jobs w !! nextId with
              | None => w
              | Some job =>
                let w := set_processing true w in
                let w := assign job (start_fields now) w in
                let w := emit_copy job w in
                let w := assign job halfway_fields w in
                let w := emit_copy job w in
                set_awaiting (awaiting w ++ [job]) w
              end
       end.

(** How a block of statements ends. *)
Inductive Completion :=
| Normal (w : World)
| Throws (err : Thrown) (w : World).

(** [try { body } catch (err) { handler } finally { finalizer }] *)
Definition try_catch_finally
    (body : World -> Completion)
    (handler : Thrown -> World -> Completion)
    (finalizer : World -> Completion) (w : World) : Completion :=
  let after_catch :=
    match body w with
    | Normal w1 => Normal w1
    | Throws err w1 => handler err w1
    end in
  match after_catch with
  | Normal w2 => finalizer w2
  | Throws err w2 =>
    match finalizer w2 with
    | Normal w3 => Throws err w3
    | Throws err' w3 => Throws err' w3
    end
  end.

(** The rest of [processNext], run when the awaited promise settles. *)
Definition processNext_resume (job : loc) (o : Outcome) (now now' : Z)
  : World -> Completion :=
  try_catch_finally
    (fun w =>
       match o with
       | Rejected err => Throws err w
       | Fulfilled r =>
         let w := assign job (completed_fields r now) w in
         Normal (emit_copy job w)
       end)
    (fun err w =>
       let w := assign job (failed_fields err now) w in
       Normal (emit_copy job w))
    (fun w => Normal (processNext now' (set_processing false w))).

(** *** The public methods *)

(** Lines 30-38. *)
Definition new_job (uuid : string) (now : Z) (file : loc)
    (fileName : option string) : ConversionJob :=
  mkJob uuid Queued 0 file fileName None None now now.

Definition enqueue (uuid : string) (now now' : Z) (file : loc)
    (fileName : option string) (w : World) : string * World :=
  let job := new_job uuid now file fileName in
  let r := length (objs w) in
  let w := set_objs (objs w ++ [job]) w in
  let w := set_jobs (<[uuid := r]> (jobs w)) w in
  let w := set_queue (queue w ++ [uuid]) w in
  let w := emit_copy r w in
  (uuid, processNext now' w).

(** The promise it returns is named by the id of the job it created: it
    is pending until [promises] has an entry for that id. *)
Definition enqueueAndWait (uuid : string) (now now' : Z) (file : loc)
    (fileName : option string) (w : World) : string * World :=
  let '(id, w) := enqueue uuid now now' file fileName w in
  (id, set_emitter (emitter w ++ [Waiter id]) w).

(** The caller gets a reference to a new object with the same fields. *)
Definition getJob (id : string) (w : World) : option loc * World :=
  match jobs w !! id with
  | None => (None, w)
  | Some job =>
    match objs w !! job with
    | Some j => (Some (length (objs w)), set_objs (objs w ++ [j]) w)
    | None => (None, w)
    end
  end.

Definition onUpdate (h : nat) (w : World) : World :=
  set_emitter (emitter w ++ [Subscriber h]) w.

Definition offUpdate (h : nat) (w : World) : World :=
  set_emitter (removeListener (Subscriber h) (emitter w)) w.

(** *** Runs of the service *)

(** What happens to the service, one event-loop turn at a time.  A call of
    [enqueue] carries what [uuidv4()] and the two readings of [Date.now()]
    return; [Settle k o now now'] is the turn in which the promise awaited
    by the [k]-th parked activation settles as [o].  The byte arrays and
    the configuration objects belong to the callers and to the processor,
    who create and write them as they like: [HeapBytes] and [HeapConfig]. *)
Inductive Call :=
| CallEnqueue (uuid : string) (now now' : Z) (file : loc) (fileName : option string)
| CallEnqueueAndWait (uuid : string) (now now' : Z) (file : loc) (fileName : option string)
| CallGetJob (id : string)
| CallOnUpdate (h : nat)
| CallOffUpdate (h : nat)
| Settle (k : nat) (o : Outcome) (now now' : Z)
| HeapBytes (l : loc) (content : list Z)
| HeapConfig (l : loc) (content : Bundle.JSON).

Definition resume (k : nat) (o : Outcome) (now now' : Z) (w : World) : World :=
  match awaiting w !! k with
  | None => w
  | Some job =>
    match processNext_resume job o now now' (set_awaiting (delete k (awaiting w)) w) with
    | Normal w' => w'
    | Throws err w' => set_unhandled (unhandled w' ++ [err]) w'
    end
  end.

Definition step (w : World) (c : Call) : World :=
  match c with
  | CallEnqueue uuid now now' file fileName => (enqueue uuid now now' file fileName w).2
  | CallEnqueueAndWait uuid now now' file fileName =>
    (enqueueAndWait uuid now now' file fileName w).2
  | CallGetJob id => (getJob id w).2
  | CallOnUpdate h => onUpdate h w
  | CallOffUpdate h => offUpdate h w
  | Settle k o now now' => resume k o now now' w
  | HeapBytes l content => set_bufs (<[l := content]> (bufs w)) w
  | HeapConfig l content => set_cfgs (<[l := content]> (cfgs w)) w
  end.

Definition run (calls : list Call) : World := foldl step init calls.

(** The ids [uuidv4()] returned along a run. *)
Definition uuid_of (c : Call) : list string :=
  match c with
  | CallEnqueue uuid _ _ _ _ | CallEnqueueAndWait uuid _ _ _ _ => [uuid]
  | _ => []
  end.

Definition uuids (calls : list Call) : list string := calls ≫= uuid_of.

(** [uuidv4()] never returns the same id twice, and never the empty
    string. *)
Definition fresh_uuids (calls : list Call) : Prop :=
  NoDup (uuids calls) ∧ "" ∉ uuids calls.

(** *** Notions used to state the properties *)

(** The record the service holds for an id. *)
Definition job_at (w : World) (i : string) : option ConversionJob :=
  l ← jobs w !! i; objs w !! l.

Definition terminal (s : ConversionStatus) : bool :=
  match s with
  | Completed | Failed => true
  | Queued | Processing => false
  end.

(** The record of a job after the awaited promise settled as [o]. *)
Definition terminal_fields (o : Outcome) (now : Z) (j : ConversionJob) : ConversionJob :=
  match o with
  | Fulfilled r => completed_fields r now j
  | Rejected err => failed_fields err now j
  end.

(** The record of a job when its activation is parked at the await. *)
Definition parked_fields (now : Z) (j : ConversionJob) : ConversionJob :=
  halfway_fields (start_fields now j).

(** What the subscribers among [ls] are handed when [s] is emitted. *)
Definition deliver (ls : list Listener) (s : ConversionJob) : list (nat * ConversionJob) :=
  omap (λ l, match l with Subscriber h => Some (h, s) | Waiter _ => None end) ls.

(** How the waiter of the job of snapshot [s] settles on seeing [s], if it
    does. *)
Definition waiter_verdict (s : ConversionJob) : option Settled :=
  match status s, result s with
  | Completed, Some r => Some (Resolved r)
  | Failed, _ => Some (RejectedWith (error_or_default (error s)))
  | _, _ => None
  end.

(** The registered listeners and the settled promises after the listeners
    [ls] were called with [s]. *)
Fixpoint fired_emitter (s : ConversionJob) (ls e : list Listener) : list Listener :=
  match ls with
  | [] => e
  | Subscriber _ :: ls' => fired_emitter s ls' e
  | Waiter wid :: ls' =>
    if decide (id s = wid) then
      match waiter_verdict s with
      | Some _ => fired_emitter s ls' (removeListener (Waiter wid) e)
      | None => fired_emitter s ls' e
      end
    else fired_emitter s ls' e
  end.

Fixpoint fired_promises (s : ConversionJob) (ls : list Listener)
    (p : gmap string Settled) : gmap string Settled :=
  match ls with
  | [] => p
  | Subscriber _ :: ls' => fired_promises s ls' p
  | Waiter wid :: ls' =>
    if decide (id s = wid) then
      match waiter_verdict s with
      | Some v =>
        fired_promises s ls' (match p !! wid with Some _ => p | None => <[wid := v]> p end)
      | None => fired_promises s ls' p
      end
    else fired_promises s ls' p
  end.


(** The number of jobs in status [Processing] after the snapshot [s] went
    out, when it was [n] before: a job enters the status with the snapshot
    of line 89 and leaves it with its terminal snapshot. *)
Definition bump (n : nat) (s : ConversionJob) : nat :=
  if decide (status s = Processing ∧ progress s = 5) then S n
  else if terminal (status s) then pred n
  else n.

(** That number after each snapshot of a log. *)
Fixpoint levels (n : nat) (log : list ConversionJob) : list nat :=
  match log with
  | [] => []
  | s :: log' => bump n s :: levels (bump n s) log'
  end.

(** What one turn of the service may do to the record of a job: nothing,
    start on it, or bring it from [Processing] to its terminal state. *)
Definition advance (j j' : ConversionJob) : Prop :=
  j' = j
  ∨ (status j = Queued ∧ ∃ now, j' = parked_fields now j)
  ∨ (status j = Processing ∧ ∃ o now, j' = terminal_fields o now j).

(** The snapshots emitted for a job, and what a subscriber was handed, in
    order. *)
Definition history (w : World) (i : string) : list ConversionJob :=
  filter (λ s, id s = i) (broadcasts w).

Definition received (w : World) (h : nat) : list ConversionJob :=
  snd <$> filter (λ p, p.1 = h) (inbox w).



(** How many times a listener is registered. *)
Definition registered (l : Listener) (e : list Listener) : nat :=
  length (filter (λ l', l' = l) e).

(** The fields of a record agree with its status. *)
Definition shaped (j : ConversionJob) : Prop :=
  match status j with
  | Queued => progress j = 0 ∧ result j = None ∧ error j = None
  | Processing => progress j = 50 ∧ result j = None ∧ error j = None
  | Completed => progress j = 100 ∧ is_Some (result j) ∧ error j = None
  | Failed => progress j = 50 ∧ result j = None ∧ is_Some (error j)
  end.

(** The ids of the jobs whose terminal snapshot was emitted, in the order
    of emission. *)
Definition finished (w : World) : list string :=
  id <$> filter (λ s, terminal (status s) = true) (broadcasts w).

(** Either nothing is in flight and nothing is pending, or exactly one
    activation is parked, on the job [cur] names. *)
Definition running (w : World) (cur : list string) : Prop :=
  (processing w = false ∧ awaiting w = [] ∧ cur = [] ∧ queue w = [])
  ∨ (processing w = true
     ∧ ∃ c l j, cur = [c] ∧ awaiting w = [l] ∧ jobs w !! c = Some l
                ∧ objs w !! l = Some j ∧ status j = Processing).

(** The invariant of the service after the ids [ids] were handed out, in
    that order. *)
Record consistent (ids : list string) (w : World) : Prop := {
  c_nodup : NoDup ids;
  c_nonempty : "" ∉ ids;
  c_dom : ∀ i, i ∈ ids ↔ is_Some (jobs w !! i);
  c_heap : ∀ i l, jobs w !! i = Some l →
                  ∃ j, objs w !! l = Some j ∧ id j = i ∧ shaped j;
  c_phase : ∃ cur, ids = finished w ++ cur ++ queue w
     ∧ (∀ i, i ∈ finished w → ∃ j, job_at w i = Some j ∧ terminal (status j) = true)
     ∧ (∀ i, i ∈ queue w → ∃ j, job_at w i = Some j ∧ status j = Queued)
     ∧ running w cur
}.

(** The listener [enqueueAndWait] adds on top of [enqueue]. *)
Definition waiter_of (c : Call) : list Listener :=
  match c with
  | CallEnqueueAndWait uuid _ _ _ _ => [Waiter uuid]
  | _ => []
  end.

(** The job a call of [enqueue] or [enqueueAndWait] creates, and the second
    reading of the clock. *)
Definition submitted (c : Call) : option (ConversionJob * Z) :=
  match c with
  | CallEnqueue uuid now now' file fileName
  | CallEnqueueAndWait uuid now now' file fileName =>
    Some (new_job uuid now file fileName, now')
  | _ => None
  end.

(** The turns of a consistent service, case by case. *)
Inductive transition (w : World) : Call → World → Prop :=
| T_enqueue_busy c j0 now' :
    submitted c = Some (j0, now') →
    processing w = true →
    transition w c
      (mkWorld (objs w ++ [j0]) (bufs w) (cfgs w)
         (<[id j0 := length (objs w)]> (jobs w)) (queue w ++ [id j0]) true
         (emitter w ++ waiter_of c) (awaiting w) (promises w)
         (broadcasts w ++ [j0]) (inbox w ++ deliver (emitter w) j0)
         (unhandled w))
| T_enqueue_idle c j0 now' :
    submitted c = Some (j0, now') →
    processing w = false →
    queue w = [] →
    awaiting w = [] →
    transition w c
      (mkWorld (objs w ++ [parked_fields now' j0]) (bufs w) (cfgs w)
         (<[id j0 := length (objs w)]> (jobs w)) [] true
         (emitter w ++ waiter_of c) [length (objs w)] (promises w)
         (broadcasts w ++ [j0; start_fields now' j0; parked_fields now' j0])
         (inbox w ++ deliver (emitter w) j0
                  ++ deliver (emitter w) (start_fields now' j0)
                  ++ deliver (emitter w) (parked_fields now' j0))
         (unhandled w))
| T_get_absent i :
    jobs w !! i = None →
    transition w (CallGetJob i) w
| T_get_present i l j :
    jobs w !! i = Some l →
    objs w !! l = Some j →
    transition w (CallGetJob i) (set_objs (objs w ++ [j]) w)
| T_on h :
    transition w (CallOnUpdate h) (set_emitter (emitter w ++ [Subscriber h]) w)
| T_off h :
    transition w (CallOffUpdate h)
      (set_emitter (removeListener (Subscriber h) (emitter w)) w)
| T_bytes l content :
    transition w (HeapBytes l content) (set_bufs (<[l := content]> (bufs w)) w)
| T_config l content :
    transition w (HeapConfig l content) (set_cfgs (<[l := content]> (cfgs w)) w)
| T_settle_none k o now now' :
    awaiting w !! k = None →
    transition w (Settle k o now now') w
| T_settle_last o now now' l j :
    awaiting w = [l] →
    objs w !! l = Some j →
    status j = Processing →
    queue w = [] →
    transition w (Settle 0 o now now')
      (mkWorld (<[l := terminal_fields o now j]> (objs w)) (bufs w) (cfgs w)
         (jobs w) [] false
         (fired_emitter (terminal_fields o now j) (emitter w) (emitter w)) []
         (fired_promises (terminal_fields o now j) (emitter w) (promises w))
         (broadcasts w ++ [terminal_fields o now j])
         (inbox w ++ deliver (emitter w) (terminal_fields o now j))
         (unhandled w))
| T_settle_next o now now' l j nextId rest l' j' :
    awaiting w = [l] →
    objs w !! l = Some j →
    status j = Processing →
    queue w = nextId :: rest →
    jobs w !! nextId = Some l' →
    objs w !! l' = Some j' →
    status j' = Queued →
    transition w (Settle 0 o now now')
      (mkWorld (<[l' := parked_fields now' j']>
                  (<[l := terminal_fields o now j]> (objs w)))
         (bufs w) (cfgs w) (jobs w) rest true
         (fired_emitter (terminal_fields o now j) (emitter w) (emitter w)) [l']
         (fired_promises (terminal_fields o now j) (emitter w) (promises w))
         (broadcasts w ++ [terminal_fields o now j; start_fields now' j';
                           parked_fields now' j'])
         (inbox w ++ deliver (emitter w) (terminal_fields o now j)
                  ++ deliver (emitter w) (start_fields now' j')
                  ++ deliver (emitter w) (parked_fields now' j'))
         (unhandled w)).

(** What a caller can do to the object [getJob] returned: assign to its
    own properties ([snapshot.status = ...]), write a byte of its payload
    ([snapshot.file[k] = b]), assign to the properties of its result
    ([snapshot.result.name = ...]). *)
Inductive Mutation :=
| SetFields (f : ConversionJob → ConversionJob)
| WriteByte (k : nat) (b : Z)
| SetResult (g : Bundle.JSON → Bundle.JSON).

Definition mutate (snapshot : loc) (m : Mutation) (w : World) : World :=
  match m with
  | SetFields f => assign snapshot f w
  | WriteByte k b =>
    match objs w !! snapshot with
    | Some j => set_bufs (alter (λ content, <[k := b]> content) (file j) (bufs w)) w
    | None => w
    end
  | SetResult g =>
    match objs w !! snapshot with
    | Some j =>
      match result j with
      | Some r => set_cfgs (alter g r (cfgs w)) w
      | None => w
      end
    | None => w
    end
  end.

(** What the service holds for a job: its record, the bytes of its payload
    and its result. *)
Definition job_state (w : World) (i : string)
  : option (ConversionJob * option (list Z) * option Bundle.JSON) :=
  j ← job_at w i;
  Some (j, bufs w !! file j, r ← result j; cfgs w !! r).






(** The readings of [Date.now()] a turn is given, in the order in which the
    code takes them, and those of a run. *)
Definition readings (c : Call) : list Z :=
  match c with
  | CallEnqueue _ now now' _ _
  | CallEnqueueAndWait _ now now' _ _
  | Settle _ _ now now' => [now; now']
  | _ => []
  end.

Definition clock (calls : list Call) : list Z := calls ≫= readings.

End ConversionQueue.

(** ** The conversion queue with listeners that throw *)

(** The same service, [emit] being what it is in Node: a listener that
    throws ends the call of [emit] with its exception, and the listeners
    registered after it are not called.  The exception then takes the way the
    code gives it: out of [enqueue] to its caller (line 41), or into the
    [catch] block of [processNext] (lines 89, 94 and 101 are inside the
    [try]).  A callback registered by [onUpdate] returns or throws; it calls
    no method of the service while it runs.  The logger returns. *)
Module Faults.
Import ConversionQueue.

(** One event-loop turn: the service with its heap, and how many times
    [Date.now()] was read in this turn. *)
Record Turn := mkTurn {
  world : World;
  reads : nat
}.

(** How a piece of synchronous code ends: it returns a value or throws. *)
Inductive Result (A : Type) : Type :=
| Returns (a : A) (t : Turn)
| Raises (err : Thrown) (t : Turn).
Arguments Returns {A} a t.
Arguments Raises {A} err t.

Definition Op (A : Type) : Type := Turn → Result A.

Definition state_of {A} (r : Result A) : Turn :=
  match r with Returns _ t | Raises _ t => t end.

#[global] Instance Op_ret : MRet Op := λ A a t, Returns a t.

#[global] Instance Op_bind : MBind Op := λ A B k m t,
  match m t with
  | Returns a t' => k a t'
  | Raises err t' => Raises err t'
  end.

Definition raise {A} (err : Thrown) : Op A := λ t, Raises err t.

Definition modify (f : World → World) : Op unit :=
  λ t, Returns tt (mkTurn (f (world t)) (reads t)).

Definition inspect {A} (f : World → A) : Op A := λ t, Returns (f (world t)) t.

(** [try { body } catch (err) { handler }] *)
Definition try_catch {A} (body : Op A) (handler : Thrown → Op A) : Op A :=
  λ t, match body t with
       | Returns a t' => Returns a t'
       | Raises err t' => handler err t'
       end.

(** [try { body } finally { finalizer }] *)
Definition try_finally {A} (body : Op A) (finalizer : Op unit) : Op A :=
  λ t, match body t with
       | Returns a t1 =>
         match finalizer t1 with
         | Returns _ t2 => Returns a t2
         | Raises err' t2 => Raises err' t2
         end
       | Raises err t1 =>
         match finalizer t1 with
         | Returns _ t2 => Raises err t2
         | Raises err' t2 => Raises err' t2
         end
       end.

(** [void p()] for an asynchronous function [p], run up to its first
    [await] or to its end: the caller gets a promise and never an exception;
    if the body threw, the promise is rejected and nobody handles it. *)
Definition void (p : Op unit) : Op unit :=
  λ t, match p t with
       | Returns _ t' => Returns tt t'
       | Raises err t' =>
         Returns tt (mkTurn (set_unhandled (unhandled (world t') ++ [err]) (world t'))
                            (reads t'))
       end.

Section Turn.

(** What the callback registered under handle [h] does with the snapshot it
    is handed, after taking note of it: it returns ([None]) or it throws. *)
Variable throws : nat → ConversionJob → option Thrown.

(** The readings of [Date.now()] of this turn, in order. *)
Variable clock : nat → Z.

Definition Date_now : Op Z :=
  λ t, Returns (clock (reads t)) (mkTurn (world t) (S (reads t))).

(** One listener is called.  The closure of [enqueueAndWait] never throws. *)
Definition notify (l : Listener) (job : ConversionJob) : Op unit :=
  match l with
  | Subscriber h =>
    modify (λ w, set_inbox (inbox w ++ [(h, job)]) w);;
    match throws h job with
    | Some err => raise err
    | None => mret tt
    end
  | Waiter _ => modify (ConversionQueue.notify l job)
  end.

(** The listeners are called in turn; the first exception leaves [emit],
    and the listeners after it are not called. *)
Fixpoint call_listeners (ls : list Listener) (job : ConversionJob) : Op unit :=
  match ls with
  | [] => mret tt
  | l :: ls' => notify l job;; call_listeners ls' job
  end.

(** [emitter.emit("update", snapshot)] *)
Definition emit (snapshot : ConversionJob) : Op unit :=
  ls ← inspect emitter;
  modify (λ w, set_broadcasts (broadcasts w ++ [snapshot]) w);;
  call_listeners ls snapshot.

Definition emit_copy (job : nat) : Op unit :=
  j ← inspect (λ w, objs w !! job);
  match j with
  | Some j => emit j
  | None => mret tt
  end.

(** Lines 86-94: the [try] block up to the [await]. *)
Definition before_await (job : nat) : Op unit :=
  now ← Date_now;
  modify (assign job (start_fields now));;
  emit_copy job;;
  modify (assign job halfway_fields);;
  emit_copy job.

(** Lines 97-101: the [try] block after the [await]. *)
Definition after_await (job : nat) (o : Outcome) : Op unit :=
  match o with
  | Rejected err => raise err
  | Fulfilled r =>
    now ← Date_now;
    modify (assign job (completed_fields r now));;
    emit_copy job
  end.

(** Lines 104-107. *)
Definition catch_block (job : nat) (err : Thrown) : Op unit :=
  now ← Date_now;
  modify (assign job (failed_fields err now));;
  emit_copy job.

(** Lines 110-112, [next] being [this.processNext]. *)
Definition finally_block (next : Op unit) : Op unit :=
  modify (set_processing false);;
  void next.

(** A call of [processNext], run up to its [await] or to its end.  [q] is
    the pending queue when the call starts: the [try] block does not touch
    it, so the call made in the [finally] block starts with its tail
    ([processNext_unfold]). *)
Fixpoint processNext_from (q : list string) : Op unit :=
  λ t,
    if processing (world t) then Returns tt t
    else match q with
         | [] => Returns tt t
         | nextId :: rest =>
           let t := mkTurn (set_queue rest (world t)) (reads t) in
           if decide (nextId = "") then Returns tt t
           else match jobs (world t) !! nextId with
                | None => Returns tt t
                | Some job =>
                  let t := mkTurn (set_processing true (world t)) (reads t) in
                  match before_await job t with
                  | Returns _ t1 =>
                    (* parked at the await *)
                    Returns tt (mkTurn (set_awaiting (awaiting (world t1) ++ [job])
                                                     (world t1)) (reads t1))
                  | Raises err t1 =>
                    try_finally (catch_block job err)
                                (finally_block (processNext_from rest)) t1
                  end
                end
         end.

Definition processNext : Op unit :=
  λ t, processNext_from (queue (world t)) t.

(** The rest of [processNext], run when the awaited promise settles. *)
Definition processNext_resume (job : nat) (o : Outcome) : Op unit :=
  try_finally (try_catch (after_await job o) (catch_block job))
              (finally_block processNext).

(** [enqueue]: an exception of a listener leaves it at line 41. *)
Definition enqueue (uuid : string) (file : nat) (fileName : option string) : Op string :=
  now ← Date_now;
  r ← inspect (λ w, length (objs w));
  modify (λ w, set_objs (objs w ++ [new_job uuid now file fileName]) w);;
  modify (λ w, set_jobs (<[uuid := r]> (jobs w)) w);;
  modify (λ w, set_queue (queue w ++ [uuid]) w);;
  emit_copy r;;
  void processNext;;
  mret uuid.

(** [enqueueAndWait] is asynchronous: when [enqueue] throws, the promise it
    returns is rejected with the exception ([inl]); otherwise the waiter is
    registered and the promise is the one named by the id ([inr]). *)
Definition enqueueAndWait (uuid : string) (file : nat) (fileName : option string)
  : Op (Thrown + string) :=
  try_catch
    (id ← enqueue uuid file fileName;
     modify (λ w, set_emitter (emitter w ++ [Waiter id]) w);;
     mret (inr id))
    (λ err, mret (inl err)).

End Turn.

(** The turns of the service; [enqueue] and the settlements come with the
    clock of their turn. *)
Inductive Call :=
| CallEnqueue (uuid : string) (clock : nat → Z) (file : nat) (fileName : option string)
| CallEnqueueAndWait (uuid : string) (clock : nat → Z) (file : nat)
    (fileName : option string)
| CallGetJob (id : string)
| CallOnUpdate (h : nat)
| CallOffUpdate (h : nat)
| Settle (k : nat) (o : Outcome) (clock : nat → Z)
| HeapBytes (l : nat) (content : list Z)
| HeapConfig (l : nat) (content : Bundle.JSON).

Section Run.
Variable throws : nat → ConversionJob → option Thrown.

Definition resume (k : nat) (o : Outcome) (clock : nat → Z) (w : World) : World :=
  match awaiting w !! k with
  | None => w
  | Some job =>
    world (state_of (void (processNext_resume throws clock job o)
                          (mkTurn (set_awaiting (delete k (awaiting w)) w) 0)))
  end.

Definition step (w : World) (c : Call) : World :=
  match c with
  | CallEnqueue uuid clock file fileName =>
    world (state_of (enqueue throws clock uuid file fileName (mkTurn w 0)))
  | CallEnqueueAndWait uuid clock file fileName =>
    world (state_of (enqueueAndWait throws clock uuid file fileName (mkTurn w 0)))
  | CallGetJob id => (getJob id w).2
  | CallOnUpdate h => onUpdate h w
  | CallOffUpdate h => offUpdate h w
  | Settle k o clock => resume k o clock w
  | HeapBytes l content => set_bufs (<[l := content]> (bufs w)) w
  | HeapConfig l content => set_cfgs (<[l := content]> (cfgs w)) w
  end.

Definition run (calls : list Call) : World := foldl step init calls.

End Run.

(** The clock that reads [now] first and [now'] from then on. *)
Definition two_readings (now now' : Z) (n : nat) : Z :=
  match n with O => now | S _ => now' end.



(** What the listeners and the assignments to the fields of a record leave
    alone: the fields of the service that steer the drain. *)
Definition control (w : World)
  : gmap string nat * list string * bool * list nat * list Thrown * nat :=
  (jobs w, queue w, processing w, awaiting w, unhandled w, length (objs w)).

(** The guard is up exactly while one activation is parked at its
    [await]. *)
Definition guarded (w : World) : Prop :=
  (processing w = false ∧ awaiting w = [])
  ∨ (processing w = true ∧ ∃ job, awaiting w = [job]).

End Faults.

(** ** Inputs and runs used as instances *)
Module Examples.
Import Bundle ConversionQueue.

(** A parser that knows one text, [{"name":""}]. *)
Definition parse_empty_name (text : list Z) : Thrown + JSON :=
  if decide (text = [123; 34; 110; 97; 109; 101; 34; 58; 34; 34; 125])
  then inr (JObject [("name", JString "")])
  else inl (mkThrown (Some "Unexpected token") "SyntaxError: Unexpected token").

(** A subscriber, two submissions, the second one awaited, a lookup, and
    the first job settled with success: the second job is in flight. *)
Definition in_flight : list Call :=
  [ HeapBytes 0 [0x7B; 0x7D];
    CallOnUpdate 7;
    CallEnqueue "a" 1 2 0%nat None;
    CallEnqueueAndWait "b" 3 4 0%nat (Some "x.mcpb");
    CallGetJob "a";
    HeapConfig 5 (Bundle.JObject [("name", Bundle.JString "srv")]);
    Settle 0 (Fulfilled 5%nat) 10 11 ].

(** Then the conversion of the second job fails. *)
Definition demo : list Call :=
  in_flight ++ [Settle 0 (Rejected (Error "missing name")) 12 13].

(** The record of the second job while it is in flight, and after its
    conversion failed. *)
Definition job_b : ConversionJob :=
  mkJob "b" Processing 50 0%nat (Some "x.mcpb") None None 3 11.

Definition job_b_failed : ConversionJob :=
  mkJob "b" Failed 50 0%nat (Some "x.mcpb") None (Some "missing name") 3 12.

(** A submission whose payload the caller keeps a reference to. *)
Definition shared : list Call :=
  [ HeapBytes 0 [0x7B; 0x7D]; CallEnqueue "a" 1 2 0%nat None ].


(** A parser that knows the texts of a table. *)
Definition parse_table (table : list (list Z * JSON)) (text : list Z) : Thrown + JSON :=
  match list_find (λ entry, entry.1 = text) table with
  | Some (_, entry) => inr entry.2
  | None => inl (mkThrown (Some "Unexpected token") "SyntaxError: Unexpected token")
  end.

(** A record that names its server and nothing else, and the same record
    with its defaults written out. *)
Definition bare_record : JSON := JObject [("name", JString "s")].

Definition normal_record : JSON :=
  JObject [("name", JString "s"); ("serverType", JString "local");
           ("env", JObject []); ("disabled", JBool false);
           ("autoStart", JBool false);
           ("verificationStatus", JString "unverified")].

(** The bytes of [{"name":"s"}], of [{"server":{"name":"s"}}], of the
    record with its defaults as [JSON.stringify] writes it, and of
    [null]. *)
Definition bare_text : list Z :=
  [123; 34; 110; 97; 109; 101; 34; 58; 34; 115; 34; 125].

Definition wrapped_text : list Z :=
  [123; 34; 115; 101; 114; 118; 101; 114; 34; 58; 123; 34; 110; 97; 109; 101; 34;
   58; 34; 115; 34; 125; 125].

Definition normal_text : list Z :=
  [123; 34; 110; 97; 109; 101; 34; 58; 34; 115; 34; 44; 34; 115; 101; 114; 118;
   101; 114; 84; 121; 112; 101; 34; 58; 34; 108; 111; 99; 97; 108; 34; 44; 34;
   101; 110; 118; 34; 58; 123; 125; 44; 34; 100; 105; 115; 97; 98; 108; 101; 100;
   34; 58; 102; 97; 108; 115; 101; 44; 34; 97; 117; 116; 111; 83; 116; 97; 114;
   116; 34; 58; 102; 97; 108; 115; 101; 44; 34; 118; 101; 114; 105; 102; 105; 99;
   97; 116; 105; 111; 110; 83; 116; 97; 116; 117; 115; 34; 58; 34; 117; 110; 118;
   101; 114; 105; 102; 105; 101; 100; 34; 125].

Definition null_text : list Z := [110; 117; 108; 108].

Definition parse_known : list Z → Thrown + JSON :=
  parse_table [ (bare_text, bare_record);
                (wrapped_text, JObject [("server", bare_record)]);
                (normal_text, normal_record);
                (null_text, JNull) ].

(** Two subscribers; then a submission that is awaited: its job is in
    flight. *)
Definition two_listeners : list Call := [CallOnUpdate 7; CallOnUpdate 9].

Definition awaited : list Call :=
  two_listeners ++ [CallEnqueueAndWait "a" 1 2 0%nat None].

(** The record of that job while it is in flight. *)
Definition job_a : ConversionJob :=
  mkJob "a" Processing 50 0%nat None None None 1 2.


(** The callback with handle 9 throws on every snapshot in the given status
    and with the given progress; every other call of a callback returns. *)
Definition throws_at (st : ConversionStatus) (p : Z) (h : nat) (s : ConversionJob)
  : option Thrown :=
  if decide (h = 9%nat ∧ status s = st ∧ progress s = p)
  then Some (Error "listener broke") else None.

(** The service after [enqueue] was left by the exception of a listener:
    the job is stored and pending, and nothing is in flight. *)
Definition stranded : World :=
  Faults.world
    (Faults.state_of
       (Faults.enqueue (throws_at Queued 0) (Faults.two_readings 1 2) "a" 0%nat None
                       (Faults.mkTurn (run two_listeners) 0))).

End Examples.

(** * Properties of the bundle processor *)
Module BundleFacts.
Import Bundle Examples.

(** ** Format detection *)

Example detect_zip_signature : detectBundleType [0x50; 0x4b; 0x03; 0x04] None = dxt.
Proof. reflexivity. Qed.

Example detect_json_after_spaces :
  detectBundleType [0x20; 0x0A; 0x7B; 0x7D] (Some "bundle") = mcpb_json.
Proof. reflexivity. Qed.

Example detect_json_after_byte_order_mark :
  detectBundleType [0xEF; 0xBB; 0xBF; 0x7B; 0x7D] None = mcpb_json.
Proof. reflexivity. Qed.

Example detect_extension_first :
  detectBundleType [0x50; 0x4b] (Some "Server.MCPB") = mcpb_json
  ∧ detectBundleType [0x7B; 0x7D] (Some "server.dxt") = dxt.
Proof. split; reflexivity. Qed.

Example detect_default : detectBundleType [0x41; 0x42] None = dxt.
Proof. reflexivity. Qed.

Example utf8_decode_sample :
  utf8_decode [0xE2; 0x82; 0xAC; 0xF0; 0x9F; 0x98; 0x80; 0xC0; 0xE2; 0x41]
  = [0x20AC; 0x1F600; 0xFFFD; 0xFFFD; 0x41].
Proof. reflexivity. Qed.

Lemma take_peek (file : bytes) : take (Nat.min 64 (length file)) file = take 64 file.
Proof.
  destruct (decide (64 ≤ length file)%nat) as [Hle|Hgt].
  - by rewrite Nat.min_l.
  - rewrite Nat.min_r by lia. rewrite !take_ge by lia. done.
Qed.

Lemma peek_is_zip (file : bytes) :
  bool_decide (take 64 file !! 0%nat = Some 0x50)
  && bool_decide (take 64 file !! 1%nat = Some 0x4b)
  = match file with 0x50 :: 0x4b :: _ => true | _ => false end.
Proof.
  destruct file as [|a [|b rest]]; simpl.
  - done.
  - destruct (bool_decide (Some a = Some 80)) eqn:E; simpl; [|by repeat case_match].
    apply bool_decide_eq_true in E. by simplify_eq.
  - destruct (bool_decide (Some a = Some 80)) eqn:Ea; simpl.
    + apply bool_decide_eq_true in Ea. simplify_eq.
      destruct (bool_decide (Some b = Some 75)) eqn:Eb.
      * apply bool_decide_eq_true in Eb. by simplify_eq.
      * apply bool_decide_eq_false in Eb. repeat case_match; congruence.
    + apply bool_decide_eq_false in Ea. repeat case_match; congruence.
Qed.

(** For a payload of at most 64 bytes the sniff sees all of it, and
    [detectBundleType] is the classification by the whole payload. *)
Lemma detectBundleType_short (file : bytes) (fileName : option string) :
  (length file ≤ 64)%nat →
  detectBundleType file fileName = classify_whole_payload file fileName.
Proof.
  intros Hlen. unfold detectBundleType, classify_whole_payload.
  rewrite take_peek, peek_is_zip. rewrite take_ge by done.
  repeat case_match; congruence.
Qed.

(** C8, as stated, fails: take 64 spaces followed by [{}], with no file
    name.  No extension decides, the first two bytes are not 'PK', and the
    content of the payload trimmed of leading white space begins with an
    opening brace, so the claim's classification is the JSON family; but the
    sniff reads 64 bytes only and falls back to the archive family. *)
Lemma detectBundleType_not_whole_payload :
  take 2 (replicate 64 0x20 ++ [0x7B; 0x7D]) ≠ [0x50; 0x4b]
  ∧ startsWith_brace (trimStart (utf8_decode (replicate 64 0x20 ++ [0x7B; 0x7D])))
    = true
  ∧ classify_whole_payload (replicate 64 0x20 ++ [0x7B; 0x7D]) None = mcpb_json
  ∧ detectBundleType (replicate 64 0x20 ++ [0x7B; 0x7D]) None = dxt.
Proof. split; [discriminate|]. by vm_compute. Qed.

(** C8, amended: the classification goes by priority: the extension of
    the lower-cased file name (.dxt: archive, .mcpb: JSON); else the two
    leading bytes 0x50 0x4b: archive; else an opening brace first after the
    white space of the first 64 bytes, decoded as UTF-8: JSON; else
    archive. *)
Theorem detectBundleType_priority (file : bytes) (fileName : option string) :
  let name := toLowerCase (default "" fileName) in
  let pk := match file with 0x50 :: 0x4b :: _ => true | _ => false end in
  let brace := startsWith_brace (trimStart (utf8_decode (take 64 file))) in
  detectBundleType file fileName =
    if endsWith name ".dxt" then dxt
    else if endsWith name ".mcpb" then mcpb_json
    else if pk then dxt
    else if brace then mcpb_json
    else dxt.
Proof.
  intros name pk brace. unfold detectBundleType.
  rewrite take_peek, peek_is_zip. done.
Qed.

(** The family decides which decoder runs. *)
Lemma processBundleFile_dispatch JSON_parse processDxtFile file fileName :
  processBundleFile JSON_parse processDxtFile file fileName =
    if decide (detectBundleType file fileName = mcpb_json)
    then processMcpbJson JSON_parse file
    else processDxtFile file.
Proof. unfold processBundleFile. by destruct (detectBundleType file fileName). Qed.

(** ** The JSON decoder *)

Lemma assoc_set_eq k v fields : assoc k (assoc_set k v fields) = Some v.
Proof.
  induction fields as [|[k' v'] rest IH]; simpl.
  - by rewrite decide_True.
  - destruct (decide (k = k')) as [->|Hne]; simpl.
    + by rewrite decide_True.
    + by rewrite decide_False.
Qed.

Lemma assoc_set_ne k k' v fields :
  k ≠ k' → assoc k' (assoc_set k v fields) = assoc k' fields.
Proof.
  intros Hne. induction fields as [|[k0 v0] rest IH]; simpl.
  - by rewrite decide_False.
  - destruct (decide (k = k0)) as [->|Hne0]; simpl.
    + by rewrite !decide_False.
    + destruct (decide (k' = k0)); done.
Qed.

Lemma truthy_default_id k fields :
  truthy (assoc k fields) = true →
  assoc k fields = Some (default JNull (assoc k fields)).
Proof. by destruct (assoc k fields). Qed.

Lemma with_defaults_object (fields : list (string * JSON)) :
  ∃ out, with_defaults (JObject fields) = inr (JObject out)
         ∧ ∀ k, assoc k out = defaults_of fields k.
Proof.
  unfold with_defaults. simpl.
  set (f1 := if negb (truthy (assoc "serverType" fields))
             then JObject (assoc_set "serverType" (JString "local") fields)
             else JObject fields).
  assert (∃ o1, f1 = JObject o1 ∧ ∀ k, assoc k o1 =
            if decide (k = "serverType") then defaults_of fields k
            else assoc k fields) as (o1 & -> & H1).
  { subst f1. destruct (truthy (assoc "serverType" fields)) eqn:E; simpl.
    - eexists; split; [done|]. intros k. case_decide as Hk; [|done].
      subst k. unfold defaults_of. rewrite decide_True by done. rewrite E.
      by apply truthy_default_id.
    - eexists; split; [done|]. intros k. case_decide as Hk.
      + subst k. rewrite assoc_set_eq. unfold defaults_of.
        rewrite decide_True by done. by rewrite E.
      + by rewrite assoc_set_ne. }
  simpl.
  set (f2 := if negb (truthy (assoc "env" o1))
             then JObject (assoc_set "env" (JObject []) o1) else JObject o1).
  assert (∃ o2, f2 = JObject o2 ∧ ∀ k, assoc k o2 =
            if decide (k = "serverType") then defaults_of fields k
            else if decide (k = "env") then defaults_of fields k
            else assoc k fields) as (o2 & -> & H2).
  { subst f2. pose proof (H1 "env") as He. rewrite decide_False in He by done.
    destruct (truthy (assoc "env" o1)) eqn:E; simpl.
    - eexists; split; [done|]. intros k. rewrite H1.
      repeat case_decide; try done. subst k. unfold defaults_of.
      rewrite decide_False, decide_True by done. rewrite <- He, E.
      by apply truthy_default_id.
    - eexists; split; [done|]. intros k.
      destruct (decide (k = "env")) as [->|Hk].
      + rewrite assoc_set_eq. rewrite decide_False by done. unfold defaults_of.
        rewrite decide_False, decide_True by done. by rewrite <- He, E.
      + rewrite assoc_set_ne by done. apply H1. }
  simpl. eexists; split; [done|]. intros k.
  destruct (decide (k = "verificationStatus")) as [->|Hv].
  { rewrite assoc_set_eq. rewrite !assoc_set_ne by done. rewrite H2.
    unfold defaults_of. by repeat case_decide. }
  rewrite assoc_set_ne by done.
  destruct (decide (k = "autoStart")) as [->|Ha].
  { rewrite assoc_set_eq. rewrite !assoc_set_ne by done. rewrite H2.
    unfold defaults_of. by repeat case_decide. }
  rewrite assoc_set_ne by done.
  destruct (decide (k = "disabled")) as [->|Hd].
  { rewrite assoc_set_eq. rewrite H2. unfold defaults_of. by repeat case_decide. }
  rewrite assoc_set_ne by done. rewrite H2. unfold defaults_of.
  by repeat case_decide.
Qed.

Section Decoder.
Variable JSON_parse : list Z → Thrown + JSON.

(** What the decoder does with a payload that parses to [parsed], by the
    shape of the record it validates. *)
Lemma processMcpbJson_cases (file : bytes) (parsed config : JSON) :
  JSON_parse (utf8_decode file) = inr parsed →
  decoded_record parsed = inr config →
  processMcpbJson JSON_parse file =
    match config with
    | JObject fields =>
      if truthy (assoc "name" fields) then with_defaults config
      else inl (Error "Invalid MCPB: missing 'name'")
    | JArray _ => inl (Error "Invalid MCPB: missing 'name'")
    | JNull | JBool _ | JNumber _ | JString _ =>
      inl (Error "Invalid MCPB content: not an object")
    end.
Proof.
  intros Hparse Hrec. unfold processMcpbJson, mcpb_try. rewrite Hparse.
  unfold decoded_record in Hrec.
  destruct (get_prop parsed "server") as [e|server]; [done|].
  injection Hrec as <-.
  set (config := if truthy server then default parsed server else parsed).
  destruct config as [|b|x|s|items|fields] eqn:Hc; simpl; try done.
  - by destruct b.
  - by destruct (negb (PrimFloat.eqb x 0 || PrimFloat.is_nan x)).
  - by destruct (negb (bool_decide (s = ""))).
  - destruct (truthy (assoc "name" fields)); simpl; [|done].
    by destruct (with_defaults (JObject fields)).
Qed.

(** C9, amended: when the payload parses and the value the decoder
    validates is a record, the decoder fails with the error
    "Invalid MCPB: missing 'name'" if the record has no [name] or a falsy
    one (empty string, null, false, 0); otherwise it returns the record
    with its [name] kept, [serverType] set to "local" when it was
    unspecified or falsy, [env] set to the empty mapping when it was
    unspecified or falsy, and [disabled], [autoStart] and
    [verificationStatus] set to false, false and "unverified" when they
    were absent or null. *)
Theorem processMcpbJson_normalizes (file : list Z) (parsed : JSON)
    (fields : list (string * JSON)) :
  JSON_parse (utf8_decode file) = inr parsed →
  decoded_record parsed = inr (JObject fields) →
  (truthy (assoc "name" fields) = false →
   processMcpbJson JSON_parse file = inl (Error "Invalid MCPB: missing 'name'"))
  ∧ (truthy (assoc "name" fields) = true →
     ∃ out,
       processMcpbJson JSON_parse file = inr (JObject out)
       ∧ assoc "name" out = assoc "name" fields
       ∧ assoc "serverType" out =
           Some (if truthy (assoc "serverType" fields)
                 then default JNull (assoc "serverType" fields)
                 else JString "local")
       ∧ assoc "env" out =
           Some (if truthy (assoc "env" fields)
                 then default JNull (assoc "env" fields)
                 else JObject [])
       ∧ assoc "disabled" out = Some (nullish_or (assoc "disabled" fields) (JBool false))
       ∧ assoc "autoStart" out = Some (nullish_or (assoc "autoStart" fields) (JBool false))
       ∧ assoc "verificationStatus" out =
           Some (nullish_or (assoc "verificationStatus" fields) (JString "unverified"))).
Proof.
  intros Hparse Hrec.
  rewrite (processMcpbJson_cases file parsed (JObject fields) Hparse Hrec).
  split; intros Hname; rewrite Hname; [done|].
  destruct (with_defaults_object fields) as (out & -> & Hout).
  exists out. split; [done|]. by rewrite !Hout.
Qed.

End Decoder.

(** C9, as stated, fails: the record decoded from [{"name":""}] has a name
    field, and the decoder throws instead of returning a record. *)
Lemma processMcpbJson_empty_name :
  decoded_record (JObject [("name", JString "")])
    = inr (JObject [("name", JString "")])
  ∧ assoc "name" [("name", JString "")] = Some (JString "")
  ∧ processMcpbJson parse_empty_name
      [123; 34; 110; 97; 109; 101; 34; 58; 34; 34; 125]
    = inl (Error "Invalid MCPB: missing 'name'").
Proof. repeat split. Qed.

(** The theorem at a payload that names its server and nothing else. *)
Lemma processMcpbJson_normalizes_named :
  ∃ out,
    processMcpbJson (λ _, inr (JObject [("name", JString "srv")])) [123; 125]
      = inr (JObject out)
    ∧ assoc "serverType" out = Some (JString "local")
    ∧ assoc "disabled" out = Some (JBool false).
Proof.
  destruct (processMcpbJson_normalizes
              (λ _, inr (JObject [("name", JString "srv")])) [123; 125]
              (JObject [("name", JString "srv")]) [("name", JString "srv")]
              eq_refl eq_refl) as [_ H].
  destruct (H eq_refl) as (out & H1 & _ & H2 & _ & H3 & _).
  exists out. repeat split; assumption.
Defined.

End BundleFacts.

(** * Properties of the conversion queue *)
Module QueueFacts.
Import ConversionQueue.

Ltac wcbn :=
  cbn [objs bufs cfgs jobs queue processing emitter awaiting promises
       broadcasts inbox unhandled set_objs set_bufs set_cfgs set_jobs set_queue
       set_processing set_emitter set_awaiting set_promises set_broadcasts
       set_inbox set_unhandled] in *.

(** ** The event emitter *)

Lemma notify_waiter wid s w :
  notify (Waiter wid) s w =
    if decide (id s = wid) then
      match waiter_verdict s with
      | Some v => settle_promise wid v
                    (set_emitter (removeListener (Waiter wid) (emitter w)) w)
      | None => w
      end
    else w.
Proof.
  unfold notify, waiter_verdict.
  destruct (decide (id s = wid)) as [Heq|Hne].
  - rewrite decide_False by (intros ?; done).
    destruct (status s), (result s); done.
  - by rewrite decide_True.
Qed.

Lemma foldl_notify s ls w :
  foldl (λ w l, notify l s w) w ls =
    mkWorld (objs w) (bufs w) (cfgs w) (jobs w) (queue w) (processing w)
            (fired_emitter s ls (emitter w)) (awaiting w)
            (fired_promises s ls (promises w)) (broadcasts w)
            (inbox w ++ deliver ls s) (unhandled w).
Proof.
  revert w. induction ls as [|l ls IH]; intros w.
  - destruct w; simpl. by rewrite app_nil_r.
  - cbn [foldl]. rewrite IH. destruct l as [h|wid].
    + simpl. by rewrite <- app_assoc.
    + rewrite notify_waiter. cbn [fired_emitter fired_promises deliver omap].
      destruct (decide (id s = wid)); [|done].
      destruct (waiter_verdict s) as [v|]; [|done].
      unfold settle_promise. wcbn. by destruct (promises w !! wid).
Qed.

Lemma emit_eq s w :
  emit s w =
    mkWorld (objs w) (bufs w) (cfgs w) (jobs w) (queue w) (processing w)
            (fired_emitter s (emitter w) (emitter w)) (awaiting w)
            (fired_promises s (emitter w) (promises w)) (broadcasts w ++ [s])
            (inbox w ++ deliver (emitter w) s) (unhandled w).
Proof. unfold emit. by rewrite foldl_notify. Qed.

Lemma fired_emitter_quiet s ls e : waiter_verdict s = None → fired_emitter s ls e = e.
Proof.
  intros Hq. revert e. induction ls as [|[h|wid] ls IH]; intros e; simpl; [done|done|].
  rewrite Hq. by destruct (decide (id s = wid)).
Qed.

Lemma fired_promises_quiet s ls p : waiter_verdict s = None → fired_promises s ls p = p.
Proof.
  intros Hq. revert p. induction ls as [|[h|wid] ls IH]; intros p; simpl; [done|done|].
  rewrite Hq. by destruct (decide (id s = wid)).
Qed.

Lemma emit_quiet s w :
  waiter_verdict s = None →
  emit s w =
    mkWorld (objs w) (bufs w) (cfgs w) (jobs w) (queue w) (processing w)
            (emitter w) (awaiting w) (promises w) (broadcasts w ++ [s])
            (inbox w ++ deliver (emitter w) s) (unhandled w).
Proof.
  intros Hq. rewrite emit_eq. by rewrite fired_emitter_quiet, fired_promises_quiet.
Qed.

(** ** processNext *)

Lemma alter_insert {A} (f : A → A) (l : list A) (i : nat) (x : A) :
  l !! i = Some x → alter f i l = <[i := f x]> l.
Proof.
  intros Hx. apply list_eq. intros k. destruct (decide (i = k)) as [->|Hne].
  - rewrite list_lookup_alter_eq, Hx. simpl.
    by rewrite list_lookup_insert_eq by (by eapply lookup_lt_Some).
  - by rewrite list_lookup_alter_ne, list_lookup_insert_ne.
Qed.

Lemma insert_snoc {A} (l : list A) (x y : A) : <[length l := y]> (l ++ [x]) = l ++ [y].
Proof.
  replace (length l) with (length l + 0)%nat by lia. by rewrite insert_app_r.
Qed.

Lemma processNext_busy now w : processing w = true → processNext now w = w.
Proof. intros H. unfold processNext. by rewrite H. Qed.

Lemma processNext_empty now w : queue w = [] → processNext now w = w.
Proof. intros H. unfold processNext. rewrite H. by destruct (processing w). Qed.

(** An idle service with a pending id starts on it. *)
Lemma processNext_start now w nextId rest job j :
  processing w = false →
  queue w = nextId :: rest →
  nextId ≠ "" →
  jobs w !! nextId = Some job →
  objs w !! job = Some j →
  processNext now w =
    mkWorld (<[job := parked_fields now j]> (objs w)) (bufs w) (cfgs w) (jobs w)
            rest true (emitter w) (awaiting w ++ [job]) (promises w)
            (broadcasts w ++ [start_fields now j; parked_fields now j])
            (inbox w ++ deliver (emitter w) (start_fields now j)
                     ++ deliver (emitter w) (parked_fields now j))
            (unhandled w).
Proof.
  intros Hp Hq Hne Hjob Hj. unfold processNext. rewrite Hp, Hq.
  rewrite decide_False by done. wcbn. rewrite Hjob.
  assert (Hlt : (job < length (objs w))%nat) by (by eapply lookup_lt_Some).
  unfold assign, emit_copy. wcbn.
  rewrite (alter_insert _ _ _ _ Hj).
  rewrite list_lookup_insert_eq by done.
  rewrite (emit_quiet (start_fields now j)) by done. wcbn.
  rewrite (alter_insert _ _ _ (start_fields now j))
    by (by rewrite list_lookup_insert_eq).
  rewrite list_lookup_insert_eq by (by rewrite length_insert).
  rewrite (emit_quiet (halfway_fields (start_fields now j))) by done. wcbn.
  rewrite list_insert_insert_eq. unfold parked_fields.
  by rewrite <- !app_assoc.
Qed.

(** ** What each call does to the service *)

Lemma enqueue_busy uuid now now' file fn w :
  processing w = true →
  (enqueue uuid now now' file fn w).2 =
    mkWorld (objs w ++ [new_job uuid now file fn]) (bufs w) (cfgs w)
            (<[uuid := length (objs w)]> (jobs w)) (queue w ++ [uuid]) true
            (emitter w) (awaiting w) (promises w)
            (broadcasts w ++ [new_job uuid now file fn])
            (inbox w ++ deliver (emitter w) (new_job uuid now file fn))
            (unhandled w).
Proof.
  intros Hp. unfold enqueue, emit_copy. wcbn. cbn [snd].
  rewrite lookup_app_r, Nat.sub_diag by done. cbn [lookup list_lookup].
  rewrite emit_quiet by done. wcbn.
  rewrite processNext_busy by done. by rewrite Hp.
Qed.

Lemma enqueue_idle uuid now now' file fn w :
  processing w = false →
  queue w = [] →
  uuid ≠ "" →
  (enqueue uuid now now' file fn w).2 =
    mkWorld (objs w ++ [parked_fields now' (new_job uuid now file fn)])
            (bufs w) (cfgs w)
            (<[uuid := length (objs w)]> (jobs w)) [] true
            (emitter w) (awaiting w ++ [length (objs w)]) (promises w)
            (broadcasts w ++ [new_job uuid now file fn;
                              start_fields now' (new_job uuid now file fn);
                              parked_fields now' (new_job uuid now file fn)])
            (inbox w ++ deliver (emitter w) (new_job uuid now file fn)
                     ++ deliver (emitter w) (start_fields now' (new_job uuid now file fn))
                     ++ deliver (emitter w) (parked_fields now' (new_job uuid now file fn)))
            (unhandled w).
Proof.
  intros Hp Hq Hne. unfold enqueue, emit_copy. wcbn. cbn [snd].
  rewrite lookup_app_r, Nat.sub_diag by done. cbn [lookup list_lookup].
  rewrite emit_quiet by done. wcbn. rewrite Hq. cbn [app].
  erewrite processNext_start; wcbn; [| done | done | done | apply lookup_insert_eq | ].
  2:{ rewrite lookup_app_r, Nat.sub_diag by done. done. }
  rewrite insert_snoc. by rewrite <- !app_assoc.
Qed.

(** A settle turn for an activation that is not parked changes nothing. *)
Lemma resume_none k o now now' w :
  awaiting w !! k = None → resume k o now now' w = w.
Proof. intros H. unfold resume. by rewrite H. Qed.

(** The [try]/[catch] part of the continuation. *)
Lemma resume_eq o now now' w job j :
  awaiting w = [job] →
  objs w !! job = Some j →
  resume 0 o now now' w =
    processNext now'
      (mkWorld (<[job := terminal_fields o now j]> (objs w)) (bufs w) (cfgs w)
               (jobs w) (queue w) false
               (fired_emitter (terminal_fields o now j) (emitter w) (emitter w)) []
               (fired_promises (terminal_fields o now j) (emitter w) (promises w))
               (broadcasts w ++ [terminal_fields o now j])
               (inbox w ++ deliver (emitter w) (terminal_fields o now j))
               (unhandled w)).
Proof.
  intros Ha Hj. unfold resume. rewrite Ha. cbn [lookup list_lookup delete list_delete].
  assert (Hlt : (job < length (objs w))%nat) by (by eapply lookup_lt_Some).
  unfold processNext_resume, try_catch_finally.
  destruct o as [r|err]; unfold assign, emit_copy; wcbn;
    rewrite (alter_insert _ _ _ _ Hj), list_lookup_insert_eq by done;
    rewrite emit_eq; wcbn; done.
Qed.

Lemma getJob_absent i w : jobs w !! i = None → getJob i w = (None, w).
Proof. intros H. unfold getJob. by rewrite H. Qed.

Lemma getJob_present i w job j :
  jobs w !! i = Some job → objs w !! job = Some j →
  getJob i w = (Some (length (objs w)), set_objs (objs w ++ [j]) w).
Proof. intros H1 H2. unfold getJob. by rewrite H1, H2. Qed.

Lemma enqueueAndWait_eq uuid now now' file fn w :
  (enqueueAndWait uuid now now' file fn w).2 =
    set_emitter (emitter (enqueue uuid now now' file fn w).2 ++ [Waiter uuid])
                (enqueue uuid now now' file fn w).2.
Proof. done. Qed.

Lemma job_at_Some w i j :
  job_at w i = Some j ↔ ∃ l, jobs w !! i = Some l ∧ objs w !! l = Some j.
Proof.
  unfold job_at. destruct (jobs w !! i) as [l|]; simpl; naive_solver.
Qed.

Lemma deliver_removeListener_waiter wid ls s :
  deliver (removeListener (Waiter wid) ls) s = deliver ls s.
Proof.
  induction ls as [|l ls IH]; [done|]. simpl.
  destruct (decide (Waiter wid ∈ ls)).
  - simpl. by rewrite IH.
  - destruct (decide (Waiter wid = l)) as [<-|]; done.
Qed.

Lemma deliver_fired s ls e s' : deliver (fired_emitter s ls e) s' = deliver e s'.
Proof.
  revert e. induction ls as [|[h|wid] ls IH]; intros e; simpl; [done|done|].
  destruct (decide (id s = wid)); [|done].
  destruct (waiter_verdict s); [|done].
  by rewrite IH, deliver_removeListener_waiter.
Qed.

(** Every turn of a consistent service is one of the listed cases. *)
Lemma step_transition ids w c :
  consistent ids w →
  "" ∉ uuid_of c →
  transition w c (step w c).
Proof.
  intros [Hnd Hne Hdom Hheap (cur & Hids & Hfin & Hqueue & Hrun)] Hfresh.
  destruct c as [uuid now now' file fn|uuid now now' file fn|i|h|h|k o now now'
                |l content|l content];
    cbn [step]; [| | | | | |apply T_bytes|apply T_config].
  - assert (uuid ≠ "") by (intros ->; apply Hfresh; set_solver).
    destruct Hrun as [(Hp & Ha & _ & Hq)|(Hp & _)].
    + rewrite enqueue_idle by done.
      pose proof (T_enqueue_idle w (CallEnqueue uuid now now' file fn) _ _
                    eq_refl Hp Hq Ha) as T.
      cbn [waiter_of id new_job] in T. rewrite app_nil_r in T.
      by rewrite Ha.
    + rewrite enqueue_busy by done.
      pose proof (T_enqueue_busy w (CallEnqueue uuid now now' file fn) _ _
                    eq_refl Hp) as T.
      cbn [waiter_of id new_job] in T. by rewrite app_nil_r in T.
  - assert (uuid ≠ "") by (intros ->; apply Hfresh; set_solver).
    rewrite enqueueAndWait_eq.
    destruct Hrun as [(Hp & Ha & _ & Hq)|(Hp & _)].
    + rewrite enqueue_idle by done. wcbn. rewrite Ha.
      exact (T_enqueue_idle w (CallEnqueueAndWait uuid now now' file fn) _ _
               eq_refl Hp Hq Ha).
    + rewrite enqueue_busy by done. wcbn.
      exact (T_enqueue_busy w (CallEnqueueAndWait uuid now now' file fn) _ _
               eq_refl Hp).
  - destruct (jobs w !! i) as [l|] eqn:Hi.
    + destruct (Hheap _ _ Hi) as (j & Hj & _).
      rewrite (getJob_present _ _ _ _ Hi Hj). by eapply T_get_present.
    + rewrite getJob_absent by done. by apply T_get_absent.
  - apply T_on.
  - apply T_off.
  - destruct Hrun as [(Hp & Ha & _ & Hq)|(Hp & c & l & j & -> & Ha & Hc & Hj & Hs)].
    { rewrite resume_none by (by rewrite Ha). apply T_settle_none. by rewrite Ha. }
    destruct k as [|k].
    2:{ rewrite resume_none by (by rewrite Ha). apply T_settle_none. by rewrite Ha. }
    rewrite (resume_eq _ _ _ _ _ _ Ha Hj).
    destruct (queue w) as [|nextId rest] eqn:Hq.
    { rewrite processNext_empty by done. by apply T_settle_last. }
    destruct (Hqueue nextId) as (j' & Hj' & Hs'); [set_solver|].
    apply job_at_Some in Hj' as (l' & Hl' & Hj').
    assert (l ≠ l') by (intros ->; congruence).
    assert (nextId ≠ "").
    { intros ->. apply Hne. rewrite Hids. set_solver. }
    erewrite processNext_start; wcbn;
      [| done | done | done | exact Hl' | by rewrite list_lookup_insert_ne ].
    rewrite !deliver_fired, <- !app_assoc. cbn [app].
    by eapply T_settle_next.
Qed.

(** ** The invariant *)

Lemma finished_snoc w w' (l : list ConversionJob) :
  broadcasts w' = broadcasts w ++ l →
  finished w' = finished w ++ (id <$> filter (λ s, terminal (status s) = true) l).
Proof. intros H. unfold finished. by rewrite H, filter_app, fmap_app. Qed.

Lemma submitted_inv c j0 now' :
  submitted c = Some (j0, now') →
  uuid_of c = [id j0] ∧ status j0 = Queued ∧ shaped j0
  ∧ (waiter_of c = [] ∨ waiter_of c = [Waiter (id j0)]).
Proof.
  destruct c; intros [= <- <-]; cbn; repeat split; auto.
Qed.

Lemma shaped_parked now j : status j = Queued → shaped j → shaped (parked_fields now j).
Proof. unfold shaped. intros ->. cbn. tauto. Qed.

Lemma shaped_terminal o now j :
  status j = Processing → shaped j → shaped (terminal_fields o now j).
Proof.
  unfold shaped. intros ->. destruct o; cbn; intros (? & ? & ?); eauto.
Qed.

Lemma consistent_init : consistent [] init.
Proof.
  split.
  - constructor.
  - set_solver.
  - intros i. cbn. rewrite lookup_empty. split; [set_solver|by intros []].
  - intros i l. cbn. by rewrite lookup_empty.
  - exists []. cbn. repeat split; try set_solver. by left.
Qed.

(** The records of the other jobs after one record was replaced. *)
Lemma job_at_other w w' l x i :
  jobs w' = jobs w →
  objs w' = <[l := x]> (objs w) →
  jobs w !! i ≠ Some l →
  job_at w' i = job_at w i.
Proof.
  intros Hj Ho Hi. unfold job_at. rewrite Hj, Ho.
  destruct (jobs w !! i) as [l0|]; [|done]. simpl.
  apply list_lookup_insert_ne. congruence.
Qed.

Lemma job_at_replaced w w' l x i :
  jobs w' = jobs w →
  objs w' = <[l := x]> (objs w) →
  jobs w !! i = Some l →
  (l < length (objs w))%nat →
  job_at w' i = Some x.
Proof.
  intros Hj Ho Hi Hl. unfold job_at. rewrite Hj, Ho, Hi. simpl.
  by apply list_lookup_insert_eq.
Qed.

(** The records after a new one was allocated for a fresh id. *)
Lemma job_at_alloc_other w w' x u i :
  jobs w' = <[u := length (objs w)]> (jobs w) →
  objs w' = objs w ++ [x] →
  i ≠ u →
  (∀ l, jobs w !! i = Some l → (l < length (objs w))%nat) →
  job_at w' i = job_at w i.
Proof.
  intros Hj Ho Hi Hl. unfold job_at. rewrite Hj, Ho.
  rewrite lookup_insert_ne by done.
  destruct (jobs w !! i) as [l|] eqn:E; [|done]. simpl.
  apply lookup_app_l. auto.
Qed.

Lemma job_at_alloc_new w w' x u :
  jobs w' = <[u := length (objs w)]> (jobs w) →
  objs w' = objs w ++ [x] →
  job_at w' u = Some x.
Proof.
  intros Hj Ho. unfold job_at. rewrite Hj, Ho, lookup_insert_eq. simpl.
  rewrite lookup_app_r, Nat.sub_diag by done. done.
Qed.

Lemma consistent_lt ids w i l :
  consistent ids w → jobs w !! i = Some l → (l < length (objs w))%nat.
Proof.
  intros C Hi. destruct (c_heap _ _ C _ _ Hi) as (j & Hj & _).
  by eapply lookup_lt_Some.
Qed.

Lemma consistent_job_at ids w i :
  consistent ids w → i ∈ ids → ∃ j, job_at w i = Some j ∧ id j = i ∧ shaped j.
Proof.
  intros C Hi. apply (c_dom _ _ C) in Hi as [l Hl].
  destruct (c_heap _ _ C _ _ Hl) as (j & Hj & Hid & Hsh).
  exists j. split; [|done]. apply job_at_Some. eauto.
Qed.

Lemma consistent_job_at_inv ids w i j :
  consistent ids w → job_at w i = Some j → i ∈ ids ∧ id j = i ∧ shaped j.
Proof.
  intros C Hj. apply job_at_Some in Hj as (l & Hl & Hj).
  destruct (c_heap _ _ C _ _ Hl) as (j' & Hj' & Hid & Hsh).
  assert (j' = j) as -> by congruence.
  split; [|done]. apply (c_dom _ _ C). eauto.
Qed.

(** Two ids never share a record. *)
Lemma consistent_inj ids w i i' l :
  consistent ids w → jobs w !! i = Some l → jobs w !! i' = Some l → i = i'.
Proof.
  intros C H1 H2.
  destruct (c_heap _ _ C _ _ H1) as (j & Hj & Hid & _).
  destruct (c_heap _ _ C _ _ H2) as (j' & Hj' & Hid' & _).
  congruence.
Qed.

Lemma consistent_enqueue_busy ids w c j0 now' :
  consistent ids w →
  NoDup (ids ++ [id j0]) → id j0 ≠ "" →
  submitted c = Some (j0, now') →
  processing w = true →
  consistent (ids ++ [id j0])
    (mkWorld (objs w ++ [j0]) (bufs w) (cfgs w)
       (<[id j0 := length (objs w)]> (jobs w)) (queue w ++ [id j0]) true
       (emitter w ++ waiter_of c) (awaiting w) (promises w)
       (broadcasts w ++ [j0]) (inbox w ++ deliver (emitter w) j0)
       (unhandled w)).
Proof.
  intros C Hnd Hne Hsub Hp.
  apply submitted_inv in Hsub as (_ & Hst & Hsh & _).
  set (w' := mkWorld _ _ _ _ _ _ _ _ _ _ _ _).
  assert (Hu : id j0 ∉ ids).
  { apply NoDup_app in Hnd as (_ & Hd & _). intros Hin. apply (Hd _ Hin). set_solver. }
  assert (Hother : ∀ i, i ∈ ids → job_at w' i = job_at w i).
  { intros i Hi. eapply job_at_alloc_other; [done|done|congruence|].
    intros l. by apply consistent_lt with (ids := ids). }
  assert (Hfin : finished w' = finished w).
  { rewrite (finished_snoc w w' [j0]) by done. cbn.
    rewrite Hst. cbn. by rewrite app_nil_r. }
  destruct (c_phase _ _ C) as (cur & Hids & Hdone & Hqueue & Hrun).
  split.
  - done.
  - rewrite elem_of_app, list_elem_of_singleton.
    intros [?|?]; [by apply (c_nonempty _ _ C)|done].
  - intros i. subst w'. wcbn. rewrite lookup_insert_is_Some, elem_of_app,
      list_elem_of_singleton, (c_dom _ _ C).
    destruct (decide (id j0 = i)); naive_solver.
  - intros i l. subst w'. wcbn. rewrite lookup_insert_Some.
    intros [[<- <-]|[Hi Hl]].
    + exists j0. split; [|done]. by rewrite lookup_app_r, Nat.sub_diag.
    + destruct (c_heap _ _ C _ _ Hl) as (j & Hj & Hid & Hsh').
      exists j. split; [|done]. by apply lookup_app_l_Some.
  - exists cur. rewrite Hfin. split; [|split; [|split]].
    + cbn [queue w']. rewrite Hids. by rewrite <- !app_assoc.
    + intros i Hi. rewrite Hother; [by apply Hdone|]. rewrite Hids. set_solver.
    + intros i. cbn [queue w']. rewrite elem_of_app, list_elem_of_singleton.
      intros [Hi| ->].
      * rewrite Hother; [by apply Hqueue|]. rewrite Hids. set_solver.
      * exists j0. split; [|done]. by eapply job_at_alloc_new.
    + right. split; [done|].
      destruct Hrun as [(Hp' & _)|(_ & c0 & l & j & -> & Ha & Hc & Hj & Hs)];
        [congruence|].
      exists c0, l, j. subst w'. wcbn. repeat split; try done.
      * rewrite lookup_insert_ne; [done|]. intros <-. apply Hu.
        apply (c_dom _ _ C). eauto.
      * by apply lookup_app_l_Some.
Qed.

Lemma consistent_enqueue_idle ids w c j0 now' :
  consistent ids w →
  NoDup (ids ++ [id j0]) → id j0 ≠ "" →
  submitted c = Some (j0, now') →
  processing w = false → queue w = [] → awaiting w = [] →
  consistent (ids ++ [id j0])
    (mkWorld (objs w ++ [parked_fields now' j0]) (bufs w) (cfgs w)
       (<[id j0 := length (objs w)]> (jobs w)) [] true
       (emitter w ++ waiter_of c) [length (objs w)] (promises w)
       (broadcasts w ++ [j0; start_fields now' j0; parked_fields now' j0])
       (inbox w ++ deliver (emitter w) j0
                ++ deliver (emitter w) (start_fields now' j0)
                ++ deliver (emitter w) (parked_fields now' j0))
       (unhandled w)).
Proof.
  intros C Hnd Hne Hsub Hp Hq Ha.
  apply submitted_inv in Hsub as (_ & Hst & Hsh & _).
  set (w' := mkWorld _ _ _ _ _ _ _ _ _ _ _ _).
  assert (Hu : id j0 ∉ ids).
  { apply NoDup_app in Hnd as (_ & Hd & _). intros Hin. apply (Hd _ Hin). set_solver. }
  assert (Hother : ∀ i, i ∈ ids → job_at w' i = job_at w i).
  { intros i Hi. eapply job_at_alloc_other; [done|done|congruence|].
    intros l. by apply consistent_lt with (ids := ids). }
  assert (Hfin : finished w' = finished w).
  { rewrite (finished_snoc w w' [j0; start_fields now' j0; parked_fields now' j0])
      by done. cbn. rewrite Hst. cbn. by rewrite app_nil_r. }
  destruct (c_phase _ _ C) as (cur & Hids & Hdone & Hqueue & Hrun).
  assert (cur = []) as ->.
  { destruct Hrun as [(_ & _ & ? & _)|(? & _)]; [done|congruence]. }
  rewrite Hq in Hids. cbn in Hids. rewrite app_nil_r in Hids.
  split.
  - done.
  - rewrite elem_of_app, list_elem_of_singleton.
    intros [?|?]; [by apply (c_nonempty _ _ C)|done].
  - intros i. subst w'. wcbn. rewrite lookup_insert_is_Some, elem_of_app,
      list_elem_of_singleton, (c_dom _ _ C).
    destruct (decide (id j0 = i)); naive_solver.
  - intros i l. subst w'. wcbn. rewrite lookup_insert_Some.
    intros [[<- <-]|[Hi Hl]].
    + exists (parked_fields now' j0). split; [by rewrite lookup_app_r, Nat.sub_diag|].
      split; [done|]. by apply shaped_parked.
    + destruct (c_heap _ _ C _ _ Hl) as (j & Hj & Hid & Hsh').
      exists j. split; [|done]. by apply lookup_app_l_Some.
  - exists [id j0]. rewrite Hfin. split; [|split; [|split]].
    + cbn [queue w']. by rewrite app_nil_r, <- Hids.
    + intros i Hi. rewrite Hother; [by apply Hdone|]. by rewrite Hids.
    + cbn [queue w']. set_solver.
    + right. split; [done|].
      exists (id j0), (length (objs w)), (parked_fields now' j0).
      subst w'. wcbn. repeat split; try done.
      * apply lookup_insert_eq.
      * by rewrite lookup_app_r, Nat.sub_diag.
Qed.

Lemma consistent_alloc ids w j :
  consistent ids w → consistent ids (set_objs (objs w ++ [j]) w).
Proof.
  intros C.
  assert (Hjob : ∀ i, job_at (set_objs (objs w ++ [j]) w) i = job_at w i).
  { intros i. unfold job_at. wcbn. destruct (jobs w !! i) as [l|] eqn:E; [|done].
    simpl. apply lookup_app_l. by eapply consistent_lt. }
  destruct (c_phase _ _ C) as (cur & Hids & Hdone & Hqueue & Hrun).
  split; try apply C.
  - intros i l Hl. destruct (c_heap _ _ C _ _ Hl) as (j' & Hj' & ?).
    exists j'. split; [|done]. wcbn. by apply lookup_app_l_Some.
  - exists cur. unfold finished in *. wcbn.
    split; [done|]. split; [|split].
    + intros i Hi. rewrite Hjob. by apply Hdone.
    + intros i Hi. rewrite Hjob. by apply Hqueue.
    + destruct Hrun as [?|(Hp & c0 & l & j' & -> & Ha & Hc & Hj & Hs)]; [by left|].
      right. split; [done|]. exists c0, l, j'. unfold running. wcbn.
      repeat split; try done. by apply lookup_app_l_Some.
Qed.

Lemma consistent_emitter ids w e :
  consistent ids w → consistent ids (set_emitter e w).
Proof. intros [? ? ? ? ?]. by split. Qed.

Lemma consistent_bufs ids w b :
  consistent ids w → consistent ids (set_bufs b w).
Proof. intros [? ? ? ? ?]. by split. Qed.

Lemma consistent_cfgs ids w b :
  consistent ids w → consistent ids (set_cfgs b w).
Proof. intros [? ? ? ? ?]. by split. Qed.

Lemma heap_replace (jobs : gmap string nat) (objs : list ConversionJob) l j x :
  (∀ i l0, jobs !! i = Some l0 → ∃ j, objs !! l0 = Some j ∧ id j = i ∧ shaped j) →
  objs !! l = Some j → id x = id j → shaped x →
  ∀ i l0, jobs !! i = Some l0 →
          ∃ j, <[l := x]> objs !! l0 = Some j ∧ id j = i ∧ shaped j.
Proof.
  intros Hheap Hj Hid Hsh i l0 Hl0.
  destruct (Hheap _ _ Hl0) as (j0 & Hj0 & Hid0 & Hsh0).
  destruct (decide (l = l0)) as [<-|Hne].
  - exists x. rewrite list_lookup_insert_eq by (by eapply lookup_lt_Some).
    split; [done|]. split; [congruence|done].
  - exists j0. by rewrite list_lookup_insert_ne.
Qed.

Lemma id_terminal_fields o now j : id (terminal_fields o now j) = id j.
Proof. by destruct o. Qed.

Lemma status_terminal_fields o now j : terminal (status (terminal_fields o now j)) = true.
Proof. by destruct o. Qed.

Lemma finished_terminal w w' o now j rest :
  broadcasts w' = broadcasts w ++ terminal_fields o now j :: rest →
  (∀ s, s ∈ rest → terminal (status s) = false) →
  finished w' = finished w ++ [id j].
Proof.
  intros Hb Hrest. rewrite (finished_snoc w w' _ Hb). f_equal.
  rewrite filter_cons_True by apply status_terminal_fields.
  rewrite fmap_cons, id_terminal_fields. f_equal. clear Hb.
  induction rest as [|s rest IH]; [done|].
  rewrite filter_cons_False.
  - apply IH. intros s' Hs'. apply Hrest. set_solver.
  - rewrite Hrest by set_solver. done.
Qed.

Lemma consistent_settle_last ids w o now l j :
  consistent ids w →
  awaiting w = [l] → objs w !! l = Some j → status j = Processing → queue w = [] →
  consistent ids
    (mkWorld (<[l := terminal_fields o now j]> (objs w)) (bufs w) (cfgs w)
       (jobs w) [] false
       (fired_emitter (terminal_fields o now j) (emitter w) (emitter w)) []
       (fired_promises (terminal_fields o now j) (emitter w) (promises w))
       (broadcasts w ++ [terminal_fields o now j])
       (inbox w ++ deliver (emitter w) (terminal_fields o now j))
       (unhandled w)).
Proof.
  intros C Ha Hj Hs Hq.
  set (w' := mkWorld _ _ _ _ _ _ _ _ _ _ _ _).
  destruct (c_phase _ _ C) as (cur & Hids & Hdone & Hqueue & Hrun).
  destruct Hrun as [(_ & Ha' & _)|(Hp & c & l0 & j0 & -> & Ha' & Hc & Hj0 & Hs0)];
    [congruence|].
  assert (l0 = l) as -> by congruence. assert (j0 = j) as -> by congruence.
  clear Ha' Hj0 Hs0.
  destruct (c_heap _ _ C _ _ Hc) as (? & ? & Hid & Hsh).
  assert (x = j) as -> by congruence.
  assert (Hfin : finished w' = finished w ++ [c]).
  { rewrite <- Hid. apply (finished_terminal w w' o now j []); [done|].
    intros s Hnil. by apply elem_of_nil in Hnil. }
  rewrite Hq, app_nil_r in Hids.
  assert (Hother : ∀ i, i ∈ finished w → job_at w' i = job_at w i).
  { intros i Hi. apply (job_at_other w w' l (terminal_fields o now j)); [done|done|].
    intros Hl. assert (i = c) as -> by (by eapply consistent_inj).
    pose proof (c_nodup _ _ C) as Hnd. rewrite Hids in Hnd.
    apply NoDup_app in Hnd as (_ & Hd & _). apply (Hd _ Hi). set_solver. }
  split; try apply C.
  - subst w'. wcbn. eapply heap_replace; [apply C|done|apply id_terminal_fields|].
    by apply shaped_terminal.
  - exists []. rewrite Hfin. split; [|split; [|split]].
    + cbn [queue w']. by rewrite !app_nil_r.
    + intros i. rewrite elem_of_app, list_elem_of_singleton. intros [Hi| ->].
      * rewrite Hother by done. by apply Hdone.
      * exists (terminal_fields o now j). split; [|apply status_terminal_fields].
        apply (job_at_replaced w w' l); [done|done|done|]. by eapply lookup_lt_Some.
    + cbn [queue w']. set_solver.
    + by left.
Qed.

Lemma consistent_settle_next ids w o now now' l j nextId rest l' j' :
  consistent ids w →
  awaiting w = [l] → objs w !! l = Some j → status j = Processing →
  queue w = nextId :: rest →
  jobs w !! nextId = Some l' → objs w !! l' = Some j' → status j' = Queued →
  consistent ids
    (mkWorld (<[l' := parked_fields now' j']>
                (<[l := terminal_fields o now j]> (objs w)))
       (bufs w) (cfgs w) (jobs w) rest true
       (fired_emitter (terminal_fields o now j) (emitter w) (emitter w)) [l']
       (fired_promises (terminal_fields o now j) (emitter w) (promises w))
       (broadcasts w ++ [terminal_fields o now j; start_fields now' j';
                         parked_fields now' j'])
       (inbox w ++ deliver (emitter w) (terminal_fields o now j)
                ++ deliver (emitter w) (start_fields now' j')
                ++ deliver (emitter w) (parked_fields now' j'))
       (unhandled w)).
Proof.
  intros C Ha Hj Hs Hq Hl' Hj' Hs'.
  set (w' := mkWorld _ _ _ _ _ _ _ _ _ _ _ _).
  set (w1 := set_objs (<[l := terminal_fields o now j]> (objs w)) w).
  destruct (c_phase _ _ C) as (cur & Hids & Hdone & Hqueue & Hrun).
  destruct Hrun as [(_ & Ha' & _)|(Hp & c & l0 & j0 & -> & Ha' & Hc & Hj0 & Hs0)];
    [congruence|].
  assert (l0 = l) as -> by congruence. assert (j0 = j) as -> by congruence.
  clear Ha' Hj0 Hs0.
  destruct (c_heap _ _ C _ _ Hc) as (? & ? & Hid & Hsh).
  assert (x = j) as -> by congruence.
  destruct (c_heap _ _ C _ _ Hl') as (? & ? & Hid' & Hsh').
  assert (x = j') as -> by congruence.
  assert (Hll : l ≠ l') by (intros ->; congruence).
  assert (Hlt : (l < length (objs w))%nat) by (by eapply lookup_lt_Some).
  assert (Hlt' : (l' < length (objs w))%nat) by (by eapply lookup_lt_Some).
  assert (Hfin : finished w' = finished w ++ [c]).
  { rewrite <- Hid. eapply (finished_terminal w w'); [done|].
    intros s. rewrite !elem_of_cons, elem_of_nil. by intros [->|[->|[]]]. }
  pose proof (c_nodup _ _ C) as Hnd. rewrite Hids, Hq in Hnd.
  apply NoDup_app in Hnd as (_ & Hd1 & Hnd).
  apply NoDup_app in Hnd as (_ & Hd2 & Hnd).
  apply NoDup_cons in Hnd as [Hd3 _].
  assert (Hjob : ∀ i, i ≠ c → i ≠ nextId → job_at w' i = job_at w i).
  { intros i Hic Hin. transitivity (job_at w1 i).
    - apply (job_at_other w1 w' l' (parked_fields now' j')); [done|done|].
      subst w1. wcbn. intros Hl. apply Hin. by eapply consistent_inj.
    - apply (job_at_other w w1 l (terminal_fields o now j)); [done|done|].
      intros Hl. apply Hic. by eapply consistent_inj. }
  split; try apply C.
  - subst w'. wcbn.
    eapply heap_replace;
      [eapply heap_replace; [apply C|done|apply id_terminal_fields|
                             by apply shaped_terminal]
      |by rewrite list_lookup_insert_ne|done|by apply shaped_parked].
  - exists [nextId]. rewrite Hfin. split; [|split; [|split]].
    + cbn [queue w']. rewrite Hids, Hq. by rewrite <- !app_assoc.
    + intros i. rewrite elem_of_app, list_elem_of_singleton. intros [Hi| ->].
      * rewrite Hjob; [by apply Hdone| |].
        -- intros ->. apply (Hd1 _ Hi). set_solver.
        -- intros ->. apply (Hd1 _ Hi). set_solver.
      * exists (terminal_fields o now j). split; [|apply status_terminal_fields].
        transitivity (job_at w1 c).
        -- apply (job_at_other w1 w' l' (parked_fields now' j')); [done|done|].
           subst w1. wcbn. congruence.
        -- by apply (job_at_replaced w w1 l).
    + intros i Hi. cbn [queue w'] in Hi. rewrite Hjob.
      * apply Hqueue. rewrite Hq. set_solver.
      * intros ->. apply (Hd2 c); set_solver.
      * intros ->. done.
    + right. split; [done|]. exists nextId, l', (parked_fields now' j').
      subst w'. wcbn. repeat split; try done.
      apply list_lookup_insert_eq. by rewrite length_insert.
Qed.

(** Every turn keeps the invariant. *)
Lemma transition_consistent ids w c w' :
  consistent ids w →
  NoDup (ids ++ uuid_of c) → "" ∉ uuid_of c →
  transition w c w' →
  consistent (ids ++ uuid_of c) w'.
Proof.
  intros C Hnd Hne T. destruct T.
  - destruct (submitted_inv _ _ _ H) as (Hu & _). rewrite Hu in *.
    eapply consistent_enqueue_busy; try done. set_solver.
  - destruct (submitted_inv _ _ _ H) as (Hu & _). rewrite Hu in *.
    eapply consistent_enqueue_idle; try done. set_solver.
  - by rewrite app_nil_r.
  - rewrite app_nil_r. by apply consistent_alloc.
  - rewrite app_nil_r. by apply consistent_emitter.
  - rewrite app_nil_r. by apply consistent_emitter.
  - rewrite app_nil_r. by apply consistent_bufs.
  - rewrite app_nil_r. by apply consistent_cfgs.
  - by rewrite app_nil_r.
  - rewrite app_nil_r. by apply consistent_settle_last.
  - rewrite app_nil_r. by eapply consistent_settle_next.
Qed.

Lemma uuids_snoc calls c : uuids (calls ++ [c]) = uuids calls ++ uuid_of c.
Proof. unfold uuids. rewrite bind_app. cbn. by rewrite app_nil_r. Qed.

Lemma run_snoc calls c : run (calls ++ [c]) = step (run calls) c.
Proof. unfold run. by rewrite foldl_app. Qed.

Lemma fresh_uuids_snoc calls c :
  fresh_uuids (calls ++ [c]) →
  fresh_uuids calls ∧ NoDup (uuids calls ++ uuid_of c) ∧ "" ∉ uuid_of c.
Proof.
  unfold fresh_uuids. rewrite uuids_snoc. intros [Hnd Hne].
  repeat split; try done.
  - by apply NoDup_app in Hnd as (? & _).
  - set_solver.
  - set_solver.
Qed.

(** The invariant holds along every run. *)
Lemma run_consistent calls : fresh_uuids calls → consistent (uuids calls) (run calls).
Proof.
  induction calls as [|c calls IH] using rev_ind; intros Hf.
  - apply consistent_init.
  - apply fresh_uuids_snoc in Hf as (Hf & Hnd & Hne).
    rewrite uuids_snoc, run_snoc.
    eapply transition_consistent; [by apply IH|done|done|].
    eapply step_transition; [by apply IH|done].
Qed.

Lemma run_transition calls c :
  fresh_uuids (calls ++ [c]) → transition (run calls) c (run (calls ++ [c])).
Proof.
  intros Hf. apply fresh_uuids_snoc in Hf as (Hf & Hnd & Hne).
  rewrite run_snoc. eapply step_transition; [by apply run_consistent|done].
Qed.

(** ** Single flight (C1) *)

Lemma levels_app n a b : levels n (a ++ b) = levels n a ++ levels (foldl bump n a) b.
Proof.
  revert n. induction a as [|s a IH]; intros n; [done|].
  cbn. by rewrite IH.
Qed.

Lemma bump_queued n j : status j = Queued → bump n j = n.
Proof.
  intros H. unfold bump. rewrite decide_False by (intros [? _]; congruence).
  by rewrite H.
Qed.

Lemma bump_terminal n o now j : bump n (terminal_fields o now j) = pred n.
Proof. by destruct o. Qed.

Lemma consistent_awaiting ids w : consistent ids w → (length (awaiting w) ≤ 1)%nat.
Proof.
  intros C. destruct (c_phase _ _ C) as (cur & _ & _ & _ & Hrun).
  destruct Hrun as [(_ & -> & _)|(_ & c & l & j & _ & -> & _)]; cbn; lia.
Qed.

(** The log never shows two jobs in [Processing]: its level is the number
    of parked activations, and never passes one. *)
Lemma run_levels calls :
  fresh_uuids calls →
  foldl bump 0%nat (broadcasts (run calls)) = length (awaiting (run calls))
  ∧ Forall (λ n, (n ≤ 1)%nat) (levels 0 (broadcasts (run calls))).
Proof.
  induction calls as [|c calls IH] using rev_ind; intros Hf.
  - split; [done|constructor].
  - pose proof (run_transition _ _ Hf) as T.
    apply fresh_uuids_snoc in Hf as (Hf & _ & _).
    destruct (IH Hf) as [Hlevel Hpeak]. clear IH.
    pose proof (consistent_awaiting _ _ (run_consistent _ Hf)) as Hle.
    set (w := run calls) in *. set (w' := run (calls ++ [c])) in *.
    clearbody w w'. destruct T; wcbn; try done.
    + apply submitted_inv in H as (_ & Hst & _).
      rewrite foldl_app, levels_app, Forall_app. cbn.
      rewrite bump_queued by done. split; [done|]. split; [done|].
      rewrite Hlevel. constructor; [done|constructor].
    + apply submitted_inv in H as (_ & Hst & _).
      rewrite foldl_app, levels_app, Forall_app. cbn.
      rewrite !(bump_queued _ j0) by done. rewrite Hlevel, H2. cbn.
      split; [done|]. split; [done|]. repeat constructor.
    + rewrite foldl_app, levels_app, Forall_app. cbn.
      rewrite bump_terminal, Hlevel, H. cbn.
      split; [done|]. split; [done|]. repeat constructor.
    + rewrite foldl_app, levels_app, Forall_app. cbn.
      rewrite bump_terminal, Hlevel, H. cbn.
      split; [done|]. split; [done|]. repeat constructor.
Qed.

Lemma enqueue_returns uuid now now' file fn w :
  (enqueue uuid now now' file fn w).1 = uuid.
Proof. done. Qed.

(** The only job in [Processing], if any, is the one the parked activation
    works on. *)
Lemma processing_unique ids w i i' j j' :
  consistent ids w →
  job_at w i = Some j → status j = Processing →
  job_at w i' = Some j' → status j' = Processing →
  i = i'.
Proof.
  intros C Hj Hs Hj' Hs'.
  destruct (c_phase _ _ C) as (cur & Hids & Hdone & Hqueue & Hrun).
  assert (Hcur : ∀ x y, job_at w x = Some y → status y = Processing → x ∈ cur).
  { intros x y Hy Hsy.
    destruct (consistent_job_at_inv _ _ _ _ C Hy) as (Hx & _).
    rewrite Hids, !elem_of_app in Hx. destruct Hx as [Hx|[Hx|Hx]]; [|done|].
    - destruct (Hdone _ Hx) as (y' & Hy' & Ht).
      assert (y' = y) as -> by congruence. by rewrite Hsy in Ht.
    - destruct (Hqueue _ Hx) as (y' & Hy' & Ht). congruence. }
  pose proof (Hcur _ _ Hj Hs) as H1. pose proof (Hcur _ _ Hj' Hs') as H2.
  destruct Hrun as [(_ & _ & -> & _)|(_ & c & _ & _ & -> & _)]; set_solver.
Qed.

Lemma idle_no_processing ids w i j :
  consistent ids w → processing w = false →
  job_at w i = Some j → status j ≠ Processing.
Proof.
  intros C Hp Hj Hs.
  destruct (c_phase _ _ C) as (cur & Hids & Hdone & Hqueue & Hrun).
  destruct Hrun as [(_ & _ & -> & Hq)|(? & _)]; [|congruence].
  destruct (consistent_job_at_inv _ _ _ _ C Hj) as (Hx & _).
  rewrite Hids, Hq, !app_nil_r in Hx.
  destruct (Hdone _ Hx) as (y' & Hy' & Ht).
  assert (y' = j) as -> by congruence. by rewrite Hs in Ht.
Qed.

Lemma processNext_settled ids w now : consistent ids w → processNext now w = w.
Proof.
  intros C. destruct (c_phase _ _ C) as (cur & _ & _ & _ & Hrun).
  destruct Hrun as [(_ & _ & _ & Hq)|(Hp & _)].
  - by apply processNext_empty.
  - by apply processNext_busy.
Qed.

(** C1: along every run, at most one activation of [processNext] is
    parked; at most one job is in status [Processing]; when the guard
    [processing] is down none is, so a drain starts on a job only when no
    other job is in [Processing]; while the guard is up [processNext] is a
    no-op, and between two turns of a run it always is; and counting, snapshot by snapshot of the broadcast log, the jobs
    that entered [Processing] and have not left it, the count never passes
    one. *)
Theorem single_flight (calls : list Call) :
  fresh_uuids calls →
  (length (awaiting (run calls)) ≤ 1)%nat
  ∧ (∀ i i' j j',
       job_at (run calls) i = Some j → status j = Processing →
       job_at (run calls) i' = Some j' → status j' = Processing → i = i')
  ∧ (processing (run calls) = false →
     ∀ i j, job_at (run calls) i = Some j → status j ≠ Processing)
  ∧ (∀ now w, processing w = true → processNext now w = w)
  ∧ (∀ now, processNext now (run calls) = run calls)
  ∧ Forall (λ n, (n ≤ 1)%nat) (levels 0 (broadcasts (run calls))).
Proof.
  intros Hf. pose proof (run_consistent _ Hf) as C.
  split; [by eapply consistent_awaiting|].
  split; [intros; by eapply processing_unique|].
  split; [intros; by eapply idle_no_processing|].
  split; [intros; by apply processNext_busy|].
  split; [intros; by eapply processNext_settled|].
  by apply run_levels.
Qed.

(** ** Submission order (C2) *)

Lemma terminal_finished ids w i j :
  consistent ids w → job_at w i = Some j →
  (terminal (status j) = true ↔ i ∈ finished w).
Proof.
  intros C Hj. destruct (c_phase _ _ C) as (cur & Hids & Hdone & Hqueue & Hrun).
  split.
  - intros Ht. destruct (consistent_job_at_inv _ _ _ _ C Hj) as (Hi & _).
    rewrite Hids, !elem_of_app in Hi. destruct Hi as [Hi|[Hi|Hi]]; [done| |].
    + destruct Hrun as [(_ & _ & -> & _)|(_ & c & l & j0 & -> & _ & Hc & Hj0 & Hs)].
      { by apply elem_of_nil in Hi. }
      apply list_elem_of_singleton in Hi as ->.
      assert (job_at w c = Some j0) as Hj0' by (apply job_at_Some; eauto).
      assert (j0 = j) as -> by congruence. by rewrite Hs in Ht.
    + destruct (Hqueue _ Hi) as (j0 & Hj0 & Hs).
      assert (j0 = j) as -> by congruence. by rewrite Hs in Ht.
  - intros Hi. destruct (Hdone _ Hi) as (j0 & Hj0 & Ht). congruence.
Qed.

(** C2: the ids of the jobs that reached a terminal state, in the order
    in which they reached it, are a prefix of the ids in the order [enqueue]
    returned them; what follows is the job in flight, if any, and then the
    pending ids in the order of [queue]; a job is terminal exactly when its
    id is in that prefix, and once the service is idle the two orders are
    the same list.  ([uuids calls] lists the ids in the order [enqueue]
    returned them: it returns the id [uuidv4] gave it.) *)
Theorem fifo_order (calls : list Call) :
  fresh_uuids calls →
  ∃ cur,
    uuids calls = finished (run calls) ++ cur ++ queue (run calls)
    ∧ (length cur ≤ 1)%nat
    ∧ (∀ i j, job_at (run calls) i = Some j →
              (terminal (status j) = true ↔ i ∈ finished (run calls)))
    ∧ (processing (run calls) = false → finished (run calls) = uuids calls)
    ∧ (∀ uuid now now' file fileName w,
         (enqueue uuid now now' file fileName w).1 = uuid).
Proof.
  intros Hf. pose proof (run_consistent _ Hf) as C.
  destruct (c_phase _ _ C) as (cur & Hids & Hdone & Hqueue & Hrun).
  exists cur. split; [done|]. split; [|split; [|split]].
  - destruct Hrun as [(_ & _ & -> & _)|(_ & c & l & j0 & -> & _)]; cbn; lia.
  - intros i j Hj. by eapply terminal_finished.
  - intros Hp. destruct Hrun as [(_ & _ & -> & Hq)|(? & _)]; [|congruence].
    by rewrite Hids, Hq, !app_nil_r.
  - intros. apply enqueue_returns.
Qed.

(** ** The state machine of a job (C3) *)

Lemma job_at_same w w' i :
  jobs w' = jobs w → objs w' = objs w → job_at w' i = job_at w i.
Proof. intros H1 H2. unfold job_at. by rewrite H1, H2. Qed.

Lemma job_at_alloc_same ids w x i :
  consistent ids w → job_at (set_objs (objs w ++ [x]) w) i = job_at w i.
Proof.
  intros C. unfold job_at. wcbn. destruct (jobs w !! i) as [l|] eqn:E; [|done].
  simpl. apply lookup_app_l. by eapply consistent_lt.
Qed.

(** The record of a job after one turn. *)
Lemma transition_advance ids w c w' i j :
  consistent ids w →
  NoDup (ids ++ uuid_of c) →
  transition w c w' →
  job_at w i = Some j →
  ∃ j', job_at w' i = Some j' ∧ advance j j'.
Proof.
  intros C Hnd T Hj.
  destruct (consistent_job_at_inv _ _ _ _ C Hj) as (Hi & Hid & Hsh).
  assert (Hsame : job_at w' i = job_at w i → ∃ j', job_at w' i = Some j' ∧ advance j j').
  { intros ->. exists j. split; [done|by left]. }
  destruct T; try (apply Hsame; by apply job_at_same).
  - apply Hsame. destruct (submitted_inv _ _ _ H) as (Hu & _). rewrite Hu in Hnd.
    eapply job_at_alloc_other; [done|done| |].
    + intros ->. apply NoDup_app in Hnd as (_ & Hd & _). apply (Hd _ Hi). set_solver.
    + intros l. by apply consistent_lt with (ids := ids).
  - apply Hsame. destruct (submitted_inv _ _ _ H) as (Hu & _). rewrite Hu in Hnd.
    eapply job_at_alloc_other; [done|done| |].
    + intros ->. apply NoDup_app in Hnd as (_ & Hd & _). apply (Hd _ Hi). set_solver.
    + intros l. by apply consistent_lt with (ids := ids).
  - apply Hsame. by eapply job_at_alloc_same.
  - set (w' := mkWorld _ _ _ _ _ _ _ _ _ _ _ _).
    assert (Hlt : (l < length (objs w))%nat) by (by eapply lookup_lt_Some).
    destruct (decide (jobs w !! i = Some l)) as [Hl|Hl].
    + exists (terminal_fields o now j0). split.
      * by apply (job_at_replaced w w' l).
      * assert (j0 = j) as ->.
        { apply job_at_Some in Hj as (l0 & Hl0 & Hj). congruence. }
        right; right. eauto.
    + apply Hsame. by apply (job_at_other w w' l (terminal_fields o now j0)).
  - set (w' := mkWorld _ _ _ _ _ _ _ _ _ _ _ _).
    set (w1 := set_objs (<[l := terminal_fields o now j0]> (objs w)) w).
    assert (Hlt : (l < length (objs w))%nat) by (by eapply lookup_lt_Some).
    assert (Hlt' : (l' < length (objs w))%nat) by (by eapply lookup_lt_Some).
    assert (Hll : l ≠ l') by (intros ->; congruence).
    destruct (decide (jobs w !! i = Some l)) as [Hl|Hl].
    { exists (terminal_fields o now j0). split.
      - transitivity (job_at w1 i).
        + apply (job_at_other w1 w' l' (parked_fields now' j')); [done|done|].
          subst w1. wcbn. congruence.
        + by apply (job_at_replaced w w1 l).
      - assert (j0 = j) as ->.
        { apply job_at_Some in Hj as (l0 & Hl0 & Hj). congruence. }
        right; right. eauto. }
    destruct (decide (jobs w !! i = Some l')) as [Hl'|Hl'].
    { exists (parked_fields now' j'). split.
      - apply (job_at_replaced w1 w' l'); [done|done|done|].
        subst w1. wcbn. by rewrite length_insert.
      - assert (j' = j) as ->.
        { apply job_at_Some in Hj as (l0 & Hl0 & Hj). congruence. }
        right; left. eauto. }
    apply Hsame. transitivity (job_at w1 i).
    + by apply (job_at_other w1 w' l' (parked_fields now' j')).
    + by apply (job_at_other w w1 l (terminal_fields o now j0)).
Qed.

Lemma run_advance calls c i j :
  fresh_uuids (calls ++ [c]) →
  job_at (run calls) i = Some j →
  ∃ j', job_at (run (calls ++ [c])) i = Some j' ∧ advance j j'.
Proof.
  intros Hf Hj. pose proof (run_transition _ _ Hf) as T.
  apply fresh_uuids_snoc in Hf as (Hf & Hnd & _).
  eapply transition_advance; [by apply run_consistent|done|done|done].
Qed.


(** ** The records after each kind of turn *)

Lemma consistent_parked ids w l j :
  consistent ids w → awaiting w = [l] → objs w !! l = Some j →
  jobs w !! id j = Some l ∧ status j = Processing ∧ shaped j ∧ id j ∈ ids.
Proof.
  intros C Ha Hj. destruct (c_phase _ _ C) as (cur & Hids & _ & _ & Hrun).
  destruct Hrun as [(_ & Ha' & _)|(_ & c & l0 & j0 & -> & Ha' & Hc & Hj0 & Hs)];
    [congruence|].
  assert (l0 = l) as -> by congruence. assert (j0 = j) as -> by congruence.
  destruct (c_heap _ _ C _ _ Hc) as (x & Hx & Hid & Hsh).
  assert (x = j) as -> by congruence. subst c.
  repeat split; try done. apply (c_dom _ _ C). eauto.
Qed.

Lemma consistent_pending ids w i rest :
  consistent ids w → queue w = i :: rest →
  ∃ l j, jobs w !! i = Some l ∧ objs w !! l = Some j ∧ id j = i
         ∧ status j = Queued ∧ shaped j.
Proof.
  intros C Hq. destruct (c_phase _ _ C) as (cur & _ & _ & Hqueue & _).
  destruct (Hqueue i) as (j & Hj & Hs); [rewrite Hq; set_solver|].
  apply job_at_Some in Hj as (l & Hl & Hj).
  destruct (c_heap _ _ C _ _ Hl) as (x & Hx & Hid & Hsh).
  assert (x = j) as -> by congruence. eauto 10.
Qed.

Lemma job_at_enqueue ids w w' x u i :
  consistent ids w →
  jobs w' = <[u := length (objs w)]> (jobs w) →
  objs w' = objs w ++ [x] →
  job_at w' i = if decide (i = u) then Some x else job_at w i.
Proof.
  intros C Hj Ho. case_decide as Hi.
  - subst i. by eapply job_at_alloc_new.
  - eapply job_at_alloc_other; [done|done|done|].
    intros l. by apply consistent_lt with (ids := ids).
Qed.

Lemma job_at_settle ids w w' l j x i :
  consistent ids w → awaiting w = [l] → objs w !! l = Some j →
  jobs w' = jobs w →
  objs w' = <[l := x]> (objs w) →
  job_at w' i = if decide (i = id j) then Some x else job_at w i.
Proof.
  intros C Ha Hj Hjobs Hobjs.
  destruct (consistent_parked _ _ _ _ C Ha Hj) as (Hl & _).
  case_decide as Hi.
  - subst i. apply (job_at_replaced w w' l); [done|done|done|].
    by eapply lookup_lt_Some.
  - apply (job_at_other w w' l x); [done|done|]. intros Hl'.
    apply Hi. by eapply consistent_inj.
Qed.

Lemma job_at_settle_next ids w w' l j x l' j' x' i :
  consistent ids w → awaiting w = [l] → objs w !! l = Some j →
  jobs w !! id j' = Some l' → objs w !! l' = Some j' → status j' = Queued →
  jobs w' = jobs w →
  objs w' = <[l' := x']> (<[l := x]> (objs w)) →
  job_at w' i =
    if decide (i = id j) then Some x
    else if decide (i = id j') then Some x'
    else job_at w i.
Proof.
  intros C Ha Hj Hl' Hj' Hs' Hjobs Hobjs.
  destruct (consistent_parked _ _ _ _ C Ha Hj) as (Hl & Hs & _).
  set (w1 := set_objs (<[l := x]> (objs w)) w).
  assert (Hll : l ≠ l') by (intros ->; congruence).
  assert (H1 : job_at w1 i = if decide (i = id j) then Some x else job_at w i).
  { by eapply job_at_settle. }
  destruct (decide (i = id j')) as [->|Hi'].
  - rewrite decide_False by (intros Heq; rewrite Heq, Hl in Hl'; congruence).
    apply (job_at_replaced w1 w' l'); [done|done|done|].
    subst w1. wcbn. rewrite length_insert. by eapply lookup_lt_Some.
  - rewrite <- H1. apply (job_at_other w1 w' l' x'); [done|done|].
    subst w1. wcbn. intros Hl0. apply Hi'. by eapply consistent_inj.
Qed.

(** ** The snapshots of a job (C10, C6) *)

Lemma history_snoc w w' bs i :
  broadcasts w' = broadcasts w ++ bs →
  history w' i = history w i ++ filter (λ s, id s = i) bs.
Proof. intros H. unfold history. by rewrite H, filter_app. Qed.

Lemma filter_same_id (bs : list ConversionJob) u i :
  Forall (λ s, id s = u) bs →
  filter (λ s, id s = i) bs = if decide (i = u) then bs else [].
Proof.
  induction 1 as [|s bs Hs _ IH]; [by case_decide|].
  case_decide as Hi.
  - rewrite filter_cons_True by congruence. by rewrite IH.
  - rewrite filter_cons_False by congruence. done.
Qed.







Lemma fresh_uuids_prefix calls more : fresh_uuids (calls ++ more) → fresh_uuids calls.
Proof.
  unfold fresh_uuids, uuids. rewrite bind_app. intros [Hnd Hne]. split.
  - by apply NoDup_app in Hnd as (? & _).
  - set_solver.
Qed.




(** ** What a subscriber is handed (C10) *)



Lemma registered_notin l e : l ∉ e → registered l e = 0%nat.
Proof.
  intros H. unfold registered. induction e as [|x e IH]; [done|].
  rewrite filter_cons_False by set_solver. apply IH. set_solver.
Qed.

Lemma registered_pos l e : l ∈ e → (0 < registered l e)%nat.
Proof.
  unfold registered. induction 1 as [|x y e H IH].
  - rewrite filter_cons_True by done. cbn. lia.
  - rewrite filter_cons. case_decide; cbn; lia.
Qed.


Lemma registered_removeListener l e :
  registered l (removeListener l e) = pred (registered l e).
Proof.
  unfold registered. induction e as [|x e IH]; [done|]. cbn [removeListener].
  destruct (decide (l ∈ e)) as [Hin|Hin].
  - pose proof (registered_pos _ _ Hin) as Hpos. unfold registered in Hpos.
    rewrite !filter_cons. case_decide; cbn; rewrite IH; lia.
  - destruct (decide (l = x)) as [<-|Hne].
    + rewrite filter_cons_True by done. done.
    + rewrite filter_cons_False by done.
      fold (registered l e). by rewrite registered_notin.
Qed.











(** ** Waiters (C5) *)



Lemma fired_promises_keep s ls p v0 :
  p !! id s = Some v0 → fired_promises s ls p !! id s = Some v0.
Proof.
  revert p. induction ls as [|[h|wid] ls IH]; intros p Hp; cbn [fired_promises];
    [done|by apply IH|].
  destruct (decide (id s = wid)) as [<-|]; [|by apply IH].
  destruct (waiter_verdict s); [|by apply IH].
  apply IH. by rewrite Hp.
Qed.

Lemma fired_promises_eq s v ls p :
  waiter_verdict s = Some v →
  p !! id s = None →
  fired_promises s ls p !! id s = if decide (Waiter (id s) ∈ ls) then Some v else None.
Proof.
  intros Hv. revert p.
  induction ls as [|[h|wid] ls IH]; intros p Hp; cbn [fired_promises].
  - rewrite decide_False by set_solver. done.
  - rewrite IH by done. repeat case_decide; set_solver.
  - destruct (decide (id s = wid)) as [<-|Hne].
    + rewrite Hv, Hp. rewrite decide_True by set_solver.
      apply fired_promises_keep. apply lookup_insert_eq.
    + rewrite IH by done. repeat case_decide; set_solver.
Qed.












(** ** Failures (C4) *)












(** ** Lookup (C7) *)

Lemma job_state_frame w w' i :
  job_at w' i = job_at w i → bufs w' = bufs w → cfgs w' = cfgs w →
  job_state w' i = job_state w i.
Proof. intros H1 H2 H3. unfold job_state. by rewrite H1, H2, H3. Qed.

(** C7, amended: [getJob] answers an id that was never handed out with
    absence and changes nothing; for a job of the run it allocates a new
    object, distinct from every record the service holds, with the fields of
    the job's record (so its [file] and [result] are the same references as
    the record's: a shallow copy); neither the lookup nor any later
    assignment to the fields of that object changes what the service holds
    for any job. *)
Theorem getJob_snapshot (calls : list Call) (i : string) :
  fresh_uuids calls →
  (i ∉ uuids calls → getJob i (run calls) = (None, run calls))
  ∧ (∀ j, job_at (run calls) i = Some j →
       let snapshot := length (objs (run calls)) in
       let w' := set_objs (objs (run calls) ++ [j]) (run calls) in
       getJob i (run calls) = (Some snapshot, w')
       ∧ objs w' !! snapshot = Some j
       ∧ (∀ i' l, jobs (run calls) !! i' = Some l → l ≠ snapshot)
       ∧ (∀ i', job_state w' i' = job_state (run calls) i')
       ∧ (∀ f i', job_state (mutate snapshot (SetFields f) w') i'
                  = job_state (run calls) i')).
Proof.
  intros Hf. pose proof (run_consistent _ Hf) as C. split.
  - intros Hi. apply getJob_absent.
    destruct (jobs (run calls) !! i) eqn:E; [|done].
    exfalso. apply Hi, (c_dom _ _ C). eauto.
  - intros j Hj snapshot w'.
    apply job_at_Some in Hj as (l & Hl & Hj).
    split; [by apply getJob_present with (job := l)|].
    split; [subst w' snapshot; wcbn; by rewrite lookup_app_r, Nat.sub_diag|].
    split.
    { intros i' l' Hl' ->. pose proof (consistent_lt _ _ _ _ C Hl'). lia. }
    split.
    { intros i'. apply job_state_frame; [|done|done]. by eapply job_at_alloc_same. }
    intros f i'. apply job_state_frame; [|done|done].
    unfold mutate, assign. subst w' snapshot. wcbn.
    rewrite <- (job_at_alloc_same _ _ (f j) i' C). unfold job_at. wcbn.
    replace (length (objs (run calls))) with (length (objs (run calls)) + 0)%nat by lia.
    by rewrite alter_app_r.
Qed.

End QueueFacts.

(** * The queue theorems at the example runs *)
Module Instances.
Import ConversionQueue Examples QueueFacts.

(** C7, as stated, fails: a byte written through the payload of the
    object [getJob] returned is a byte of the payload the service holds. *)
Lemma getJob_shares_payload :
  (getJob "a" (run shared)).1 = Some 1%nat
  ∧ job_state (mutate 1 (WriteByte 0 0) (getJob "a" (run shared)).2) "a"
    ≠ job_state (run shared) "a".
Proof. split; [done|]. vm_compute. discriminate. Qed.

Lemma getJob_snapshot_demo :
  fresh_uuids demo
  ∧ getJob "zz" (run demo) = (None, run demo)
  ∧ ∀ f, job_state (mutate (length (objs (run demo))) (SetFields f)
                      (getJob "a" (run demo)).2) "a"
         = job_state (run demo) "a".
Proof.
  assert (Hf : fresh_uuids demo) by (split; compute_done).
  destruct (getJob_snapshot demo "a" Hf) as [_ Ha].
  destruct (getJob_snapshot demo "zz" Hf) as [Hz _].
  split; [exact Hf|]. split.
  - apply Hz. compute_done.
  - intros f.
    destruct (Ha (mkJob "a" Completed 100 0%nat None (Some 5%nat) None 1 10) eq_refl)
      as (Hget & _ & _ & _ & Hmut).
    rewrite Hget. apply Hmut.
Defined.

(** The broadcast log of the example run, and what its subscriber was
    handed. *)
Example demo_broadcasts :
  (λ s, (id s, status s, progress s)) <$> broadcasts (run demo)
  = [ ("a", Queued, 0); ("a", Processing, 5); ("a", Processing, 50);
      ("b", Queued, 0);
      ("a", Completed, 100);
      ("b", Processing, 5); ("b", Processing, 50);
      ("b", Failed, 50) ]
  ∧ received (run demo) 7 = broadcasts (run demo).
Proof. split; by vm_compute. Qed.

Example demo_records :
  job_at (run demo) "a" = Some (mkJob "a" Completed 100 0%nat None (Some 5%nat) None 1 10)
  ∧ job_at (run demo) "b" = Some job_b_failed
  ∧ queue (run demo) = [] ∧ processing (run demo) = false.
Proof. repeat split; by vm_compute. Qed.

Lemma single_flight_demo :
  fresh_uuids demo
  ∧ (length (awaiting (run demo)) ≤ 1)%nat
  ∧ Forall (λ n, (n ≤ 1)%nat) (levels 0 (broadcasts (run demo))).
Proof.
  assert (Hf : fresh_uuids demo) by (split; compute_done).
  pose proof (single_flight demo Hf) as (H1 & _ & _ & _ & _ & H2).
  exact (conj Hf (conj H1 H2)).
Defined.

Lemma fifo_order_demo :
  fresh_uuids demo ∧ finished (run demo) = ["a"; "b"].
Proof.
  assert (Hf : fresh_uuids demo) by (split; compute_done).
  destruct (fifo_order demo Hf) as (cur & _ & _ & _ & H & _).
  split; [exact Hf|]. exact (H eq_refl).
Defined.






End Instances.

(** * Further properties of the bundle processor *)

(** ** Format detection *)
Module DetectionFacts.
Import Bundle BundleFacts.

Lemma toLowerCase_app a b : toLowerCase (a +:+ b) = toLowerCase a +:+ toLowerCase b.
Proof. induction a as [|c a IH]; simpl; [done|]. by rewrite IH. Qed.

Lemma toLowerCase_length a : String.length (toLowerCase a) = String.length a.
Proof. induction a as [|c a IH]; simpl; [done|]. by rewrite IH. Qed.

Lemma endsWith_cons c s suffix :
  (String.length suffix ≤ String.length s)%nat →
  endsWith (String c s) suffix = endsWith s suffix.
Proof.
  intros Hle. unfold endsWith. cbn [String.length].
  destruct (Nat.leb_spec (String.length suffix) (S (String.length s))); [|lia].
  destruct (Nat.leb_spec (String.length suffix) (String.length s)); [|lia].
  replace (S (String.length s) - String.length suffix)%nat
    with (S (String.length s - String.length suffix)) by lia.
  done.
Qed.

Lemma app_length_string a b :
  String.length (a +:+ b) = (String.length a + String.length b)%nat.
Proof. induction a as [|c a IH]; simpl; [done|]. by rewrite IH. Qed.

Lemma endsWith_stem stem s suffix :
  (String.length suffix ≤ String.length s)%nat →
  endsWith (stem +:+ s) suffix = endsWith s suffix.
Proof.
  intros Hle. induction stem as [|c stem IH]; [done|].
  change (String c stem +:+ s) with (String c (stem +:+ s)).
  rewrite endsWith_cons; [done|].
  rewrite app_length_string. lia.
Qed.

(** X1: a file name whose extension is [.dxt] in any letter case sends the
    payload to the archive decoder whatever its bytes are, and one whose
    extension is [.mcpb] sends it to the JSON decoder, also when the bytes
    begin with the ZIP signature. *)
Theorem processBundleFile_by_extension JSON_parse processDxtFile
    (file : list Z) (stem ext : string) :
  (toLowerCase ext = ".dxt" →
   processBundleFile JSON_parse processDxtFile file (Some (stem +:+ ext))
   = processDxtFile file)
  ∧ (toLowerCase ext = ".mcpb" →
     processBundleFile JSON_parse processDxtFile file (Some (stem +:+ ext))
     = processMcpbJson JSON_parse file).
Proof.
  split; intros Hext; unfold processBundleFile, detectBundleType;
    simpl; rewrite toLowerCase_app, Hext.
  - by rewrite endsWith_stem by (cbn; lia).
  - by rewrite !endsWith_stem by (cbn; lia).
Qed.


(** ** The content sniff *)

Lemma utf8_run_ascii (ws bs : list Z) :
  Forall (λ b, 0 ≤ b ≤ 0x7F) ws →
  utf8_run utf8_idle (ws ++ bs) = ws ++ utf8_run utf8_idle bs.
Proof.
  induction 1 as [|b ws Hb _ IH]; [done|].
  cbn [app utf8_run]. unfold utf8_step at 1. cbn [u_needed utf8_idle].
  unfold utf8_lead. destruct (Z.leb_spec b 0x7F); [|lia].
  cbn [app]. by rewrite IH.
Qed.

Lemma trimStart_spaces (ws text : list Z) :
  Forall (λ c, is_js_space c = true) ws → trimStart (ws ++ text) = trimStart text.
Proof.
  induction 1 as [|c ws Hc _ IH]; [done|]. cbn [app trimStart]. by rewrite Hc.
Qed.

Lemma ascii_space_byte b :
  b ∈ [0x09; 0x0A; 0x0B; 0x0C; 0x0D; 0x20] →
  0 ≤ b ≤ 0x7F ∧ is_js_space b = true ∧ b ≠ 0x50.
Proof.
  intros Hb. repeat (apply elem_of_cons in Hb as [->|Hb]); try done.
  by apply elem_of_nil in Hb.
Qed.

(** X2: with no extension that decides, a payload whose opening brace comes
    after [n] bytes of ASCII white space (tab, line feed, vertical tab, form
    feed, carriage return, space) is taken for JSON exactly when [n < 64]:
    from 64 bytes of white space on the brace is out of sight, and the
    payload goes to the archive decoder. *)
Theorem detectBundleType_leading_space (ws rest : list Z) (fileName : option string) :
  Forall (λ b, b ∈ [0x09; 0x0A; 0x0B; 0x0C; 0x0D; 0x20]) ws →
  endsWith (toLowerCase (default "" fileName)) ".dxt" = false →
  endsWith (toLowerCase (default "" fileName)) ".mcpb" = false →
  detectBundleType (ws ++ 0x7B :: rest) fileName
  = if decide (length ws < 64)%nat then mcpb_json else dxt.
Proof.
  intros Hws Hd Hm. unfold detectBundleType. rewrite Hd, Hm.
  rewrite take_peek, peek_is_zip.
  assert (Hzip : match ws ++ 0x7B :: rest with
                 | 0x50 :: 0x4b :: _ => true | _ => false end = false).
  { destruct Hws as [|b ws Hb _]; [done|].
    apply ascii_space_byte in Hb as (_ & _ & Hb). cbn [app].
    repeat case_match; congruence. }
  rewrite Hzip.
  assert (Hascii : ∀ l, Forall (λ b, b ∈ [0x09; 0x0A; 0x0B; 0x0C; 0x0D; 0x20]) l →
            Forall (λ b, 0 ≤ b ≤ 0x7F) l ∧ Forall (λ c, is_js_space c = true) l).
  { intros l Hl. split; eapply Forall_impl; try exact Hl;
      intros b Hb; by apply ascii_space_byte in Hb as (? & ? & ?). }
  case_decide as Hlen.
  - rewrite take_app_ge by lia. destruct (Hascii ws Hws) as [Ha Hs].
    destruct (64 - length ws)%nat as [|n] eqn:Hn; [lia|]. cbn [take].
    unfold utf8_decode. rewrite utf8_run_ascii by done.
    rewrite trimStart_spaces by done. done.
  - rewrite take_app_le by lia.
    assert (Hws' : Forall (λ b, b ∈ [0x09; 0x0A; 0x0B; 0x0C; 0x0D; 0x20]) (take 64 ws))
      by by apply Forall_take.
    destruct (Hascii _ Hws') as [Ha Hs].
    unfold utf8_decode. rewrite <- (app_nil_r (take 64 ws)).
    rewrite utf8_run_ascii by done. cbn [utf8_run utf8_idle u_needed].
    rewrite trimStart_spaces by done. done.
Qed.


Ltac zbool :=
  repeat match goal with
  | H : _ && _ = true |- _ => apply andb_true_iff in H as [? ?]
  | H : (_ <=? _) = true |- _ => apply Z.leb_le in H
  | H : (_ <=? _) = false |- _ => apply Z.leb_gt in H
  | H : (_ =? _) = true |- _ => apply Z.eqb_eq in H
  | H : (_ =? _) = false |- _ => apply Z.eqb_neq in H
  end.

Lemma lor_shiftl_6 (x y : Z) :
  0 ≤ x → 0 ≤ y < 64 → Z.lor (Z.shiftl x 6) y = x * 64 + y.
Proof.
  intros Hx Hy.
  assert (Hland : Z.land (Z.shiftl x 6) y = 0).
  { apply Z.bits_inj'. intros n Hn. rewrite Z.land_spec, Z.bits_0.
    destruct (decide (n < 6)) as [Hlt|Hge].
    - by rewrite Z.shiftl_spec_low.
    - destruct (decide (y = 0)) as [->|Hy0].
      + by rewrite Z.bits_0, andb_false_r.
      + rewrite (Z.bits_above_log2 y n), andb_false_r; [done|lia|].
        assert (Z.log2 y < 6) by (apply Z.log2_lt_pow2; lia). lia. }
  pose proof (Z.add_lor_land (Z.shiftl x 6) y) as Hadd.
  rewrite Hland in Hadd. rewrite Z.shiftl_mul_pow2 in * by lia.
  change (2 ^ 6) with 64 in *. lia.
Qed.

Lemma land_low (b : Z) (n : Z) : 0 ≤ n → Z.land b (Z.ones n) = b mod 2 ^ n.
Proof. apply Z.land_ones. Qed.

Lemma utf8_idle_open : utf8_open utf8_idle.
Proof. unfold utf8_open, utf8_idle; cbn. lia. Qed.

Lemma utf8_lead_open b out st :
  utf8_lead b = (out, st) →
  utf8_open st ∧ ∀ c, c ∈ out → c = b ∨ 0x80 ≤ c.
Proof.
  unfold utf8_lead. intros H.
  change 0x1F with (Z.ones 5) in H. change 0xF with (Z.ones 4) in H.
  change 0x7 with (Z.ones 3) in H.
  rewrite !Z.land_ones in H by lia.
  repeat case_match; simplify_eq;
    (split; [|intros c Hc; repeat (apply elem_of_cons in Hc as [->|Hc]);
                try (by apply elem_of_nil in Hc); (by left) || (right; by cbn)]);
    unfold utf8_open, utf8_idle; cbn [u_lower u_upper u_needed u_cp];
    (split; [lia|split; [lia|]]); try done; repeat case_match; try lia;
    zbool; change (2 ^ 5) with 32 in *; change (2 ^ 4) with 16 in *;
    change (2 ^ 3) with 8 in *; Z.div_mod_to_equations; lia.
Qed.

Lemma utf8_step_open st b out st' :
  utf8_open st → utf8_step st b = (out, st') →
  utf8_open st' ∧ ∀ c, c ∈ out → c = b ∨ 0x80 ≤ c.
Proof.
  intros (Hlo & Hup & Hst). unfold utf8_step.
  destruct (u_needed st) as [|k] eqn:Hk; [apply utf8_lead_open|].
  destruct ((u_lower st <=? b) && (b <=? u_upper st)) eqn:Hin.
  - apply andb_true_iff in Hin as [H1%Z.leb_le H2%Z.leb_le].
    assert (Hlow : Z.land b 0x3F = b - 128).
    { change 0x3F with (Z.ones 6). rewrite Z.land_ones by lia. change (2 ^ 6) with 64. Z.div_mod_to_equations; lia. }
    destruct k as [|[|[|k]]]; try done; intros Heq; simplify_eq.
    + split; [apply utf8_idle_open|]. intros c Hc.
      apply list_elem_of_singleton in Hc as ->. right.
      rewrite lor_shiftl_6, Hlow by lia. lia.
    + split; [|intros c Hc; by apply elem_of_nil in Hc].
      unfold utf8_open; cbn [u_lower u_upper u_needed u_cp].
      rewrite lor_shiftl_6, Hlow by lia. lia.
    + split; [|intros c Hc; by apply elem_of_nil in Hc].
      unfold utf8_open; cbn [u_lower u_upper u_needed u_cp].
      rewrite lor_shiftl_6, Hlow by lia. lia.
  - destruct (utf8_lead b) as [out0 st0] eqn:Hlead. intros Heq; simplify_eq.
    apply utf8_lead_open in Hlead as [Hopen Hout]. split; [done|].
    intros c [->|Hc]%elem_of_cons; [right; by cbn|by apply Hout].
Qed.

(** A code point below 0x80 in the decoded text is a byte of the input. *)
Lemma utf8_run_low st bs c :
  utf8_open st → c ∈ utf8_run st bs → c ∈ bs ∨ 0x80 ≤ c.
Proof.
  revert st. induction bs as [|b bs IH]; intros st Hst; cbn [utf8_run].
  - destruct (u_needed st); [by intros ?%elem_of_nil|].
    intros ->%list_elem_of_singleton. right. by cbn.
  - destruct (utf8_step st b) as [out st'] eqn:Hstep.
    apply utf8_step_open in Hstep as [Hopen Hout]; [|done].
    intros [Hc|Hc]%elem_of_app.
    + destruct (Hout c Hc) as [->|?]; [left; by left|by right].
    + destruct (IH st' Hopen Hc) as [?|?]; [left; by right|by right].
Qed.

Lemma trimStart_subset text c : c ∈ trimStart text → c ∈ text.
Proof.
  induction text as [|a text IH]; [done|]. cbn [trimStart].
  destruct (is_js_space a); [|done]. intros H. right. by apply IH.
Qed.

(** X3: a payload with no byte 0x7B among its first 64 bytes is never
    taken for JSON by its content: unless its name ends in [.mcpb] it is
    classified as an archive.  (No multi-byte sequence decodes to a code
    point below 0x80, so the brace the sniff looks for can only come from
    the byte 0x7B.) *)
Theorem detectBundleType_needs_brace (file : list Z) (fileName : option string) :
  0x7B ∉ take 64 file →
  endsWith (toLowerCase (default "" fileName)) ".mcpb" = false →
  detectBundleType file fileName = dxt.
Proof.
  intros Hno Hm. unfold detectBundleType. rewrite Hm, take_peek.
  repeat case_match; try done.
  exfalso. apply Hno.
  destruct (trimStart (utf8_decode (take 64 file))) as [|c text] eqn:Htrim; [done|].
  cbn [startsWith_brace] in *.
  assert (c = 0x7B) as -> by lia.
  assert (Hc : 0x7B ∈ utf8_decode (take 64 file)).
  { apply trimStart_subset. rewrite Htrim. by left. }
  apply utf8_run_low in Hc as [Hc|Hc]; [done|lia|apply utf8_idle_open].
Qed.

End DetectionFacts.

(** ** The JSON decoder *)
Module DecoderFacts.
Import Bundle BundleFacts.

Section Decoder.
Variable JSON_parse : list Z → Thrown + JSON.

(** A successful decoding went through every test of the [try] block. *)
Lemma processMcpbJson_inr (file : list Z) (out : JSON) :
  processMcpbJson JSON_parse file = inr out →
  ∃ parsed fields,
    JSON_parse (utf8_decode file) = inr parsed
    ∧ decoded_record parsed = inr (JObject fields)
    ∧ truthy (assoc "name" fields) = true
    ∧ with_defaults (JObject fields) = inr out.
Proof.
  intros Hout.
  destruct (JSON_parse (utf8_decode file)) as [e|parsed] eqn:Hparse.
  { unfold processMcpbJson, mcpb_try in Hout. by rewrite Hparse in Hout. }
  destruct (decoded_record parsed) as [e|config] eqn:Hrec.
  { unfold processMcpbJson, mcpb_try, decoded_record in *. rewrite Hparse in Hout.
    by destruct (get_prop parsed "server"). }
  rewrite (processMcpbJson_cases JSON_parse file parsed config Hparse Hrec) in Hout.
  destruct config as [| | | | |fields]; try done.
  destruct (truthy (assoc "name" fields)) eqn:Hname; [|done].
  by exists parsed, fields.
Qed.

Lemma defaults_of_keep fields k v :
  assoc k fields = Some v →
  (k ∈ ["serverType"; "env"] → truthy (Some v) = true) →
  (k ∈ ["disabled"; "autoStart"; "verificationStatus"] → v ≠ JNull) →
  defaults_of fields k = Some v.
Proof.
  intros Hk Ht Hn. unfold defaults_of. rewrite Hk.
  repeat case_decide; subst; try done.
  - rewrite Ht by set_solver. done.
  - rewrite Ht by set_solver. done.
  - f_equal. destruct v; try done. destruct Hn; [set_solver|done].
  - f_equal. destruct v; try done. destruct Hn; [set_solver|done].
  - f_equal. destruct v; try done. destruct Hn; [set_solver|done].
Qed.

(** What [with_defaults] guarantees of the record it returns. *)
Lemma defaults_filled (fields out : list (string * JSON)) :
  (∀ k, assoc k out = defaults_of fields k) →
  truthy (assoc "name" fields) = true →
  truthy (assoc "name" out) = true
  ∧ truthy (assoc "serverType" out) = true
  ∧ truthy (assoc "env" out) = true
  ∧ ∀ k, k ∈ ["disabled"; "autoStart"; "verificationStatus"] →
         ∃ v, assoc k out = Some v ∧ v ≠ JNull.
Proof.
  intros Hk Hname. rewrite !Hk. unfold defaults_of. cbn [decide]. repeat split.
  - by repeat case_decide.
  - repeat case_decide; try done.
    destruct (truthy (assoc "serverType" fields)) eqn:E; [|done].
    by destruct (assoc "serverType" fields).
  - repeat case_decide; try done.
    destruct (truthy (assoc "env" fields)) eqn:E; [|done].
    by destruct (assoc "env" fields).
  - intros k Hin. rewrite Hk. unfold defaults_of.
    repeat (apply elem_of_cons in Hin as [->|Hin]); [| | |by apply elem_of_nil in Hin];
      repeat case_decide; try done;
      match goal with |- context [nullish_or ?a ?d] =>
        exists (nullish_or a d); split; [done|]; by destruct a as [[]|] end.
Qed.

(** X4: whatever the payload is and whatever [JSON.parse] makes of it, a
    value the decoder returns is a record with a truthy [name], a truthy
    [serverType], a truthy [env], and [disabled], [autoStart] and
    [verificationStatus] present and not null. *)
Theorem processMcpbJson_success (file : list Z) (out : JSON) :
  processMcpbJson JSON_parse file = inr out →
  ∃ fields,
    out = JObject fields
    ∧ truthy (assoc "name" fields) = true
    ∧ truthy (assoc "serverType" fields) = true
    ∧ truthy (assoc "env" fields) = true
    ∧ ∀ k, k ∈ ["disabled"; "autoStart"; "verificationStatus"] →
           ∃ v, assoc k fields = Some v ∧ v ≠ JNull.
Proof.
  intros (parsed & fields & _ & _ & Hname & Hd)%processMcpbJson_inr.
  destruct (with_defaults_object fields) as (o & Ho & Hk). rewrite Ho in Hd.
  injection Hd as <-. exists o. split; [done|]. by apply (defaults_filled fields).
Qed.

(** X5: the decoder fails in four ways only: with the exception
    [JSON.parse] threw, thrown again unchanged; with the TypeError of reading
    [server] off [null], when the text parses to [null]; with
    "Invalid MCPB content: not an object"; with
    "Invalid MCPB: missing 'name'". *)
Theorem processMcpbJson_errors (file : list Z) (err : Thrown) :
  processMcpbJson JSON_parse file = inl err →
  JSON_parse (utf8_decode file) = inl err
  ∨ (JSON_parse (utf8_decode file) = inr JNull
     ∧ err = TypeError "Cannot read properties of null (reading 'server')")
  ∨ err = Error "Invalid MCPB content: not an object"
  ∨ err = Error "Invalid MCPB: missing 'name'".
Proof.
  intros Herr.
  destruct (JSON_parse (utf8_decode file)) as [e|parsed] eqn:Hparse.
  { left. unfold processMcpbJson, mcpb_try in Herr. rewrite Hparse in Herr.
    by injection Herr as ->. }
  right.
  destruct (decoded_record parsed) as [e|config] eqn:Hrec.
  { left. unfold processMcpbJson, mcpb_try, decoded_record in *.
    rewrite Hparse in Herr. destruct parsed; try done.
    cbn in Herr. by injection Herr as <-. }
  right.
  rewrite (processMcpbJson_cases JSON_parse file parsed config Hparse Hrec) in Herr.
  destruct config as [| | | | |fields]; try (injection Herr as <-; tauto).
  destruct (truthy (assoc "name" fields)); [|injection Herr as <-; tauto].
  destruct (with_defaults_object fields) as (o & Ho & _). by rewrite Ho in Herr.
Qed.

(** X6: texts that parse to something that is no record.  [null] fails
    with the TypeError of the engine, not with a message of the decoder (the
    read of [parsed.server] comes before the validation); a boolean, a number
    or a string fails with "Invalid MCPB content: not an object"; an array
    passes the [typeof] test and fails with
    "Invalid MCPB: missing 'name'". *)
Theorem processMcpbJson_not_a_record (file : list Z) (parsed : JSON) :
  JSON_parse (utf8_decode file) = inr parsed →
  match parsed with
  | JNull =>
    processMcpbJson JSON_parse file
    = inl (TypeError "Cannot read properties of null (reading 'server')")
  | JBool _ | JNumber _ | JString _ =>
    processMcpbJson JSON_parse file = inl (Error "Invalid MCPB content: not an object")
  | JArray _ =>
    processMcpbJson JSON_parse file = inl (Error "Invalid MCPB: missing 'name'")
  | JObject _ => True
  end.
Proof.
  intros Hparse. unfold processMcpbJson, mcpb_try. rewrite Hparse.
  destruct parsed as [|b|x|s|items|fields]; cbn; try done.
  - by destruct b.
  - by destruct (negb (PrimFloat.eqb x 0 || PrimFloat.is_nan x)).
  - by destruct (negb (bool_decide (s = ""))).
Qed.

(** X7: a wrapper [{ server: v }] with a truthy [v] is decoded as the text
    of [v] itself is, whatever else the wrapper holds, provided [v] has no
    truthy [server] property of its own (the decoder unwraps once). *)
Theorem processMcpbJson_wrapper (file file' : list Z)
    (fields : list (string * JSON)) (v : JSON) :
  JSON_parse (utf8_decode file) = inr (JObject fields) →
  assoc "server" fields = Some v →
  truthy (Some v) = true →
  JSON_parse (utf8_decode file') = inr v →
  (∀ inner, v = JObject inner → truthy (assoc "server" inner) = false) →
  processMcpbJson JSON_parse file = processMcpbJson JSON_parse file'.
Proof.
  intros Hparse Hserver Hv Hparse' Hinner.
  unfold processMcpbJson, mcpb_try. rewrite Hparse, Hparse'.
  cbn [get_prop]. rewrite Hserver, Hv. cbn [default].
  destruct v as [|b|x|s|items|inner]; try done.
  cbn [get_prop]. by rewrite (Hinner inner eq_refl).
Qed.

Lemma assoc_set_same k v fields : assoc k fields = Some v → assoc_set k v fields = fields.
Proof.
  induction fields as [|[k' v'] rest IH]; [done|]. cbn.
  destruct (decide (k = k')) as [->|Hne]; [by intros [= ->]|].
  intros H. by rewrite IH.
Qed.

Lemma nullish_or_id v d : v ≠ JNull → nullish_or (Some v) d = v.
Proof. by destruct v. Qed.

(** X8: the decoder returns its own output unchanged: when a payload
    decodes to [out], a payload whose text parses to [out] decodes to [out]
    again, provided [out] has no truthy [server] property (which would be
    taken for a wrapper). *)
Theorem processMcpbJson_idempotent (file file' : list Z) (out : JSON) :
  processMcpbJson JSON_parse file = inr out →
  JSON_parse (utf8_decode file') = inr out →
  (∀ fields, out = JObject fields → truthy (assoc "server" fields) = false) →
  processMcpbJson JSON_parse file' = inr out.
Proof.
  intros Hout Hparse Hserver.
  apply processMcpbJson_inr in Hout as (parsed & fields0 & _ & _ & Hname0 & Hd).
  destruct (with_defaults_object fields0) as (fields & Ho & Hk). rewrite Ho in Hd.
  injection Hd as <-.
  destruct (defaults_filled fields0 fields Hk Hname0) as (Hname & Htype & Henv & Hrest).
  unfold processMcpbJson, mcpb_try. rewrite Hparse. cbn [get_prop].
  rewrite (Hserver fields eq_refl). cbn. rewrite Hname. cbn.
  unfold with_defaults. cbn [get_prop]. rewrite Htype. cbn [negb].
  cbn [get_prop]. rewrite Henv. cbn [negb get_prop set_prop].
  destruct (Hrest "disabled") as (v1 & H1 & N1); [set_solver|].
  destruct (Hrest "autoStart") as (v2 & H2 & N2); [set_solver|].
  destruct (Hrest "verificationStatus") as (v3 & H3 & N3); [set_solver|].
  rewrite H1, nullish_or_id, (assoc_set_same _ _ _ H1) by done.
  rewrite H2, nullish_or_id, (assoc_set_same _ _ _ H2) by done.
  rewrite H3, nullish_or_id, (assoc_set_same _ _ _ H3) by done.
  done.
Qed.

(** X9: the decoder keeps what the record holds: every property other than
    the five it gives defaults to is returned as it was; a truthy
    [serverType] or [env], and a [disabled], [autoStart] or
    [verificationStatus] that is not null, are returned as they were; and no
    property of the record is missing from the result. *)
Theorem processMcpbJson_keeps_fields (file : list Z) (parsed : JSON)
    (fields out : list (string * JSON)) :
  JSON_parse (utf8_decode file) = inr parsed →
  decoded_record parsed = inr (JObject fields) →
  processMcpbJson JSON_parse file = inr (JObject out) →
  (∀ k, k ∉ ["serverType"; "env"; "disabled"; "autoStart"; "verificationStatus"] →
        assoc k out = assoc k fields)
  ∧ (∀ k v, assoc k fields = Some v →
            (k ∈ ["serverType"; "env"] → truthy (Some v) = true) →
            (k ∈ ["disabled"; "autoStart"; "verificationStatus"] → v ≠ JNull) →
            assoc k out = Some v)
  ∧ (∀ k, is_Some (assoc k fields) → is_Some (assoc k out)).
Proof.
  intros Hparse Hrec Hout.
  rewrite (processMcpbJson_cases JSON_parse file parsed _ Hparse Hrec) in Hout.
  destruct (truthy (assoc "name" fields)); [|done].
  destruct (with_defaults_object fields) as (o & Ho & Hk). rewrite Ho in Hout.
  injection Hout as <-. split; [|split].
  - intros k Hnot. rewrite Hk. unfold defaults_of.
    repeat case_decide; subst; try done; exfalso; apply Hnot; set_solver.
  - intros k v Hv Ht Hn. rewrite Hk. by apply defaults_of_keep.
  - intros k [v Hv]. rewrite Hk. unfold defaults_of. rewrite Hv.
    by repeat case_decide.
Qed.

End Decoder.
End DecoderFacts.

(** * Further properties of the conversion queue *)
Module ServiceFacts.
Import ConversionQueue QueueFacts.

Lemma uuids_app calls more : uuids (calls ++ more) = uuids calls ++ uuids more.
Proof. unfold uuids. by rewrite bind_app. Qed.

Lemma consistent_size ids w : consistent ids w → size (jobs w) = length ids.
Proof.
  intros C. rewrite <- size_dom.
  assert (Hdom : dom (jobs w) = list_to_set (C := gset string) ids).
  { apply set_eq. intros i. rewrite elem_of_dom, elem_of_list_to_set.
    symmetry. apply (c_dom _ _ C). }
  rewrite Hdom. apply size_list_to_set, (c_nodup _ _ C).
Qed.

(** X10: the service never forgets a job: an id [enqueue] returned is
    answered by [getJob] after any further turns, and the service holds as
    many jobs as ids were handed out (no method removes a job, finished or
    not). *)
Theorem jobs_retained (calls more : list Call) (i : string) :
  fresh_uuids (calls ++ more) →
  i ∈ uuids calls →
  (∃ j, job_at (run (calls ++ more)) i = Some j ∧ id j = i)
  ∧ is_Some (getJob i (run (calls ++ more))).1
  ∧ size (jobs (run (calls ++ more))) = length (uuids (calls ++ more)).
Proof.
  intros Hf Hi. pose proof (run_consistent _ Hf) as C.
  assert (Hin : i ∈ uuids (calls ++ more)) by (rewrite uuids_app; set_solver).
  destruct (consistent_job_at _ _ _ C Hin) as (j & Hj & Hid & _).
  split; [by exists j|]. split; [|by apply consistent_size].
  apply job_at_Some in Hj as (l & Hl & Hj).
  by rewrite (getJob_present _ _ _ _ Hl Hj).
Qed.





Lemma advance_fixed j j' :
  advance j j' →
  id j' = id j ∧ createdAt j' = createdAt j ∧ file j' = file j
  ∧ fileName j' = fileName j.
Proof.
  intros [->|[(_ & now & ->)|(_ & o & now & ->)]]; [done|done|by destruct o].
Qed.

(** X13: [createdAt], [file] (the reference to the payload) and [fileName]
    of a job never change after its creation. *)
Theorem job_fields_fixed (calls more : list Call) (i : string) (j : ConversionJob) :
  fresh_uuids (calls ++ more) →
  job_at (run calls) i = Some j →
  ∃ j', job_at (run (calls ++ more)) i = Some j'
        ∧ createdAt j' = createdAt j
        ∧ file j' = file j
        ∧ fileName j' = fileName j.
Proof.
  induction more as [|c more IH] using rev_ind; intros Hf Hj.
  - rewrite app_nil_r. by exists j.
  - rewrite app_assoc in Hf |- *.
    destruct IH as (j1 & Hj1 & H1 & H2 & H3); [by eapply fresh_uuids_prefix|done|].
    destruct (run_advance _ _ _ _ Hf Hj1) as (j' & Hj' & Hadv).
    apply advance_fixed in Hadv as (_ & ? & ? & ?).
    exists j'. repeat split; congruence.
Qed.




(** ** Subscriptions *)

Lemma removeListener_last l e : removeListener l (e ++ [l]) = e.
Proof.
  induction e as [|l' e IH]; cbn.
  - rewrite decide_False by set_solver. by rewrite decide_True.
  - rewrite decide_True by set_solver. by rewrite IH.
Qed.

Lemma removeListener_absent l e : l ∉ e → removeListener l e = e.
Proof.
  induction e as [|l' e IH]; [done|]. intros Hl. cbn.
  rewrite decide_False by set_solver. rewrite decide_False by set_solver. done.
Qed.

Lemma removeListener_others l e :
  filter (λ l', l' ≠ l) (removeListener l e) = filter (λ l', l' ≠ l) e.
Proof.
  induction e as [|l' e IH]; [done|]. cbn [removeListener].
  destruct (decide (l ∈ e)).
  - rewrite !filter_cons. by rewrite IH.
  - destruct (decide (l = l')) as [<-|Hne]; [|done].
    by rewrite filter_cons_False by (intros H; by apply H).
Qed.

(** X16: [offUpdate] undoes [onUpdate]: registering a callback and
    removing it leaves the service as it was; removing a callback that is not
    registered does nothing; [offUpdate] removes one registration of the
    callback and keeps the other listeners in their order. *)
Theorem offUpdate_onUpdate (h : nat) (w : World) :
  offUpdate h (onUpdate h w) = w
  ∧ (Subscriber h ∉ emitter w → offUpdate h w = w)
  ∧ registered (Subscriber h) (emitter (offUpdate h w))
    = pred (registered (Subscriber h) (emitter w))
  ∧ filter (λ l, l ≠ Subscriber h) (emitter (offUpdate h w))
    = filter (λ l, l ≠ Subscriber h) (emitter w).
Proof.
  unfold offUpdate, onUpdate. destruct w; wcbn. repeat split.
  - unfold set_emitter; cbn. by rewrite removeListener_last.
  - intros Hno. unfold set_emitter; cbn. by rewrite removeListener_absent.
  - apply registered_removeListener.
  - apply removeListener_others.
Qed.




(** ** Updates and lookups agree *)

Lemma transition_latest ids w c w' i :
  consistent ids w →
  NoDup (ids ++ uuid_of c) →
  transition w c w' →
  last (history w i) = job_at w i →
  last (history w' i) = job_at w' i.
Proof.
  intros C Hnd T IH.
  destruct T; try (unfold history, job_at in *; wcbn; exact IH).
  - destruct (submitted_inv _ _ _ H) as (Hu & Hst & _). rewrite Hu in Hnd.
    erewrite history_snoc by done.
    erewrite (job_at_enqueue ids w _ j0 (id j0)) by done.
    rewrite (filter_same_id _ (id j0)) by (by repeat constructor).
    case_decide as Hi; [by rewrite last_snoc|by rewrite app_nil_r].
  - destruct (submitted_inv _ _ _ H) as (Hu & Hst & _). rewrite Hu in Hnd.
    erewrite history_snoc by done.
    erewrite (job_at_enqueue ids w _ (parked_fields now' j0) (id j0)) by done.
    rewrite (filter_same_id _ (id j0)) by (by repeat constructor).
    case_decide as Hi; [|by rewrite app_nil_r].
    change [j0; start_fields now' j0; parked_fields now' j0]
      with ([j0; start_fields now' j0] ++ [parked_fields now' j0]).
    by rewrite app_assoc, last_snoc.
  - rewrite (job_at_alloc_same ids) by done. exact IH.
  - erewrite history_snoc by done.
    erewrite (job_at_settle ids w _ l j) by done.
    rewrite (filter_same_id _ (id j))
      by (repeat constructor; apply id_terminal_fields).
    case_decide as Hi; [by rewrite last_snoc|by rewrite app_nil_r].
  - destruct (consistent_parked _ _ _ _ C H H0) as (Hl & _ & Hsh & _).
    destruct (consistent_pending _ _ _ _ C H2) as (l0 & j0 & Hl0 & Hj0 & Hid0 & Hs0 & Hsh0).
    assert (l0 = l') as -> by congruence. assert (j0 = j') as -> by congruence.
    subst nextId.
    erewrite (history_snoc w _ ([terminal_fields o now j]
                ++ [start_fields now' j'; parked_fields now' j'])) by done.
    rewrite filter_app.
    erewrite (job_at_settle_next ids w _ l j _ l' j') by done.
    rewrite (filter_same_id _ (id j))
      by (repeat constructor; apply id_terminal_fields).
    rewrite (filter_same_id _ (id j')) by (by repeat constructor).
    assert (Hne : id j ≠ id j').
    { intros Heq. rewrite Heq, Hl0 in Hl. assert (l' = l) as -> by congruence.
      congruence. }
    destruct (decide (i = id j)) as [->|Hi].
    + rewrite decide_False by done. by rewrite app_nil_r, last_snoc.
    + destruct (decide (i = id j')) as [->|Hi'].
      * cbn [app].
        change [start_fields now' j'; parked_fields now' j']
          with ([start_fields now' j'] ++ [parked_fields now' j']).
        by rewrite app_assoc, last_snoc.
      * by rewrite !app_nil_r.
Qed.

Lemma run_latest (calls : list Call) (i : string) :
  fresh_uuids calls →
  last (history (run calls) i) = job_at (run calls) i.
Proof.
  induction calls as [|c calls IH] using rev_ind; intros Hf; [done|].
  pose proof (run_transition _ _ Hf) as T.
  apply fresh_uuids_snoc in Hf as (Hf & Hnd & _).
  eapply transition_latest; [by apply run_consistent|done|done|by apply IH].
Qed.


(** X18: updates and lookups agree: after every turn [getJob] returns a
    record exactly when a snapshot of the job was emitted, and the record it
    returns is the last snapshot emitted for that job. *)
Theorem latest_update_is_record (calls : list Call) (i : string) :
  fresh_uuids calls →
  (∀ snapshot w', getJob i (run calls) = (Some snapshot, w') →
     ∃ j, objs w' !! snapshot = Some j ∧ last (history (run calls) i) = Some j)
  ∧ ((getJob i (run calls)).1 = None → history (run calls) i = []).
Proof.
  intros Hf. pose proof (run_latest _ i Hf) as Hlast.
  destruct (job_at (run calls) i) as [j|] eqn:Hj.
  - apply job_at_Some in Hj as (l & Hl & Hj).
    rewrite (getJob_present _ _ _ _ Hl Hj). split; [|done].
    intros snapshot w' [= <- <-]. exists j. split; [|done].
    cbn [objs set_objs]. by rewrite lookup_app_r, Nat.sub_diag.
  - split.
    + intros snapshot w' Hget. unfold getJob, job_at in *.
      destruct (jobs (run calls) !! i) as [l|]; [|done].
      cbn in Hj. by rewrite Hj in Hget.
    + intros _. by apply last_None.
Qed.

(** ** Timestamps *)

Lemma submitted_readings c j0 now' :
  submitted c = Some (j0, now') →
  readings c = [createdAt j0; now'] ∧ updatedAt j0 = createdAt j0.
Proof. destruct c; intros [=]; by subst. Qed.

Lemma clock_snoc calls c : clock (calls ++ [c]) = clock calls ++ readings c.
Proof. unfold clock. rewrite bind_app. cbn. by rewrite app_nil_r. Qed.

Lemma run_record_broadcast calls i j :
  fresh_uuids calls → job_at (run calls) i = Some j → j ∈ broadcasts (run calls).
Proof.
  intros Hf Hj. rewrite <- (run_latest _ _ Hf) in Hj.
  apply last_Some_elem_of in Hj. unfold history in Hj.
  by apply list_elem_of_filter in Hj as [_ ?].
Qed.

Lemma sorted_snoc (l : list Z) (x : Z) :
  StronglySorted Z.le l → (∀ y, y ∈ l → y ≤ x) → StronglySorted Z.le (l ++ [x]).
Proof.
  intros Hl Hx. apply StronglySorted_app_2; [|done|repeat constructor].
  intros y z Hy ->%list_elem_of_singleton. by apply Hx.
Qed.

Lemma run_stamps calls :
  fresh_uuids calls →
  StronglySorted Z.le (clock calls) →
  StronglySorted Z.le (updatedAt <$> broadcasts (run calls))
  ∧ ∀ s, s ∈ broadcasts (run calls) →
         createdAt s ≤ updatedAt s ∧ updatedAt s ∈ clock calls.
Proof.
  induction calls as [|c calls IH] using rev_ind; intros Hf Hsorted.
  { split; [constructor|]. cbn. by intros s ?%elem_of_nil. }
  pose proof (run_transition _ _ Hf) as T.
  apply fresh_uuids_snoc in Hf as (Hf & Hnd & _).
  pose proof (run_consistent _ Hf) as C.
  rewrite clock_snoc in Hsorted |- *.
  apply StronglySorted_app in Hsorted as (Hle & Hs0 & Hs1).
  destruct (IH Hf Hs0) as [IHs IHb]. clear IH.
  assert (Hold : ∀ s, s ∈ broadcasts (run calls) →
            createdAt s ≤ updatedAt s ∧ updatedAt s ∈ clock calls ++ readings c).
  { intros s Hs. destruct (IHb s Hs). split; [done|set_solver]. }
  assert (Hrec : ∀ i j t, job_at (run calls) i = Some j → t ∈ readings c →
            createdAt j ≤ t).
  { intros i j t Hj Ht. destruct (IHb j (run_record_broadcast _ _ _ Hf Hj)) as [H1 H2].
    pose proof (Hle _ _ H2 Ht). lia. }
  assert (Hnew : ∀ bs,
    Forall (λ s, createdAt s ≤ updatedAt s ∧ updatedAt s ∈ readings c) bs →
    StronglySorted Z.le (updatedAt <$> bs) →
    StronglySorted Z.le (updatedAt <$> (broadcasts (run calls) ++ bs))
    ∧ ∀ s, s ∈ broadcasts (run calls) ++ bs →
           createdAt s ≤ updatedAt s ∧ updatedAt s ∈ clock calls ++ readings c).
  { intros bs Hbs Hsb. rewrite Forall_forall in Hbs. split.
    - rewrite fmap_app. apply StronglySorted_app_2; [|done|done].
      intros x y (s & -> & Hs)%list_elem_of_fmap (s' & -> & Hs')%list_elem_of_fmap.
      apply Hle; [by apply IHb|by apply Hbs].
    - intros s [Hs|Hs]%elem_of_app; [by apply Hold|].
      destruct (Hbs s Hs). split; [done|set_solver]. }
  assert (Hfirst : ∀ a b : Z, a ∈ [a; b]) by (intros; apply list_elem_of_here).
  assert (Hsecond : ∀ a b : Z, b ∈ [a; b])
    by (intros; apply list_elem_of_further, list_elem_of_here).
  destruct T; try (split; [exact IHs|exact Hold]).
  - destruct (submitted_readings _ _ _ H) as [Hr Hu]. rewrite Hr in Hnew.
    rewrite Hr. apply (Hnew [j0]).
    + apply Forall_cons_2; [|apply Forall_nil_2].
      rewrite Hu. split; [lia|apply Hfirst].
    + cbn. apply SSorted_cons; [apply SSorted_nil|apply Forall_nil_2].
  - destruct (submitted_readings _ _ _ H) as [Hr Hu]. rewrite Hr in Hnew, Hs1.
    rewrite Hr.
    assert (createdAt j0 ≤ now').
    { apply StronglySorted_inv in Hs1 as [_ Hs1]. by inversion Hs1. }
    apply (Hnew [j0; start_fields now' j0; parked_fields now' j0]).
    + repeat apply Forall_cons_2; [| | |apply Forall_nil_2].
      * rewrite Hu. split; [lia|apply Hfirst].
      * cbn. split; [lia|apply Hsecond].
      * cbn. split; [lia|apply Hsecond].
    + cbn. rewrite Hu.
      repeat (apply SSorted_cons || apply SSorted_nil || apply Forall_cons_2
              || apply Forall_nil_2); lia.
  - destruct (consistent_parked _ _ _ _ C H H0) as (Hl & _).
    assert (Hj : job_at (run calls) (id j) = Some j) by (apply job_at_Some; eauto).
    cbn [readings] in Hnew, Hrec |- *.
    apply (Hnew [terminal_fields o now j]).
    + apply Forall_cons_2; [|apply Forall_nil_2].
      assert (createdAt j ≤ now) by (apply (Hrec _ _ _ Hj), Hfirst).
      destruct o; cbn; (split; [lia|apply Hfirst]).
    + cbn. apply SSorted_cons; [apply SSorted_nil|apply Forall_nil_2].
  - destruct (consistent_parked _ _ _ _ C H H0) as (Hl & _).
    assert (Hj : job_at (run calls) (id j) = Some j) by (apply job_at_Some; eauto).
    assert (Hj' : job_at (run calls) nextId = Some j') by (apply job_at_Some; eauto).
    cbn [readings] in Hnew, Hrec, Hs1 |- *.
    assert (now ≤ now').
    { apply StronglySorted_inv in Hs1 as [_ Hs1]. by inversion Hs1. }
    assert (createdAt j ≤ now) by (apply (Hrec _ _ _ Hj), Hfirst).
    assert (createdAt j' ≤ now') by (apply (Hrec _ _ _ Hj'), Hsecond).
    apply (Hnew [terminal_fields o now j; start_fields now' j'; parked_fields now' j']).
    + repeat apply Forall_cons_2; [| | |apply Forall_nil_2].
      * destruct o; cbn; (split; [lia|apply Hfirst]).
      * cbn. split; [lia|apply Hsecond].
      * cbn. split; [lia|apply Hsecond].
    + destruct o; cbn;
        repeat (apply SSorted_cons || apply SSorted_nil || apply Forall_cons_2
                || apply Forall_nil_2); lia.
Qed.

(** X19: when the readings of [Date.now()] along a run do not decrease, no
    job has its [updatedAt] before its [createdAt], in the records and in
    every snapshot, and the snapshots go out in the order of their
    [updatedAt]. *)
Theorem timestamps_ordered (calls : list Call) (i : string) (j : ConversionJob) :
  fresh_uuids calls →
  StronglySorted Z.le (clock calls) →
  job_at (run calls) i = Some j →
  createdAt j ≤ updatedAt j
  ∧ StronglySorted Z.le (updatedAt <$> broadcasts (run calls))
  ∧ Forall (λ s, createdAt s ≤ updatedAt s) (broadcasts (run calls)).
Proof.
  intros Hf Hsorted Hj. destruct (run_stamps _ Hf Hsorted) as [Hs Hb].
  split; [by apply Hb, (run_record_broadcast _ i)|]. split; [done|].
  apply Forall_forall. intros s Hin. by apply Hb.
Qed.

End ServiceFacts.

(** * The conversion queue with listeners that throw *)
Module FaultFacts.
Import ConversionQueue QueueFacts Faults.

Ltac op_unfold :=
  unfold mbind, Op_bind, mret, Op_ret, modify, inspect, raise.

Section Listeners.
Variable throws : nat → ConversionJob → option Thrown.

Lemma call_listeners_returns ls s t :
  (∀ h, Subscriber h ∈ ls → throws h s = None) →
  call_listeners throws ls s t
  = Returns tt (mkTurn (foldl (λ w l, ConversionQueue.notify l s w) (world t) ls)
                       (reads t)).
Proof.
  revert t. induction ls as [|l ls IH]; intros t Hq; cbn [call_listeners foldl].
  - by destruct t.
  - unfold mbind, Op_bind. destruct l as [h|wid]; cbn [Faults.notify].
    + op_unfold. rewrite Hq by set_solver. rewrite IH; [done|]. set_solver.
    + op_unfold. rewrite IH; [done|]. set_solver.
Qed.

Lemma call_listeners_raises before h after s err t :
  (∀ h', Subscriber h' ∈ before → throws h' s = None) →
  throws h s = Some err →
  call_listeners throws (before ++ Subscriber h :: after) s t
  = Raises err
      (mkTurn (ConversionQueue.notify (Subscriber h) s
                 (foldl (λ w l, ConversionQueue.notify l s w) (world t) before))
              (reads t)).
Proof.
  revert t. induction before as [|l ls IH]; intros t Hq Hh; cbn [app call_listeners foldl].
  - unfold mbind, Op_bind. cbn [Faults.notify]. op_unfold. by rewrite Hh.
  - unfold mbind, Op_bind. destruct l as [h'|wid]; cbn [Faults.notify].
    + op_unfold. rewrite Hq by set_solver. rewrite IH; [done| |done]. set_solver.
    + op_unfold. rewrite IH; [done| |done]. set_solver.
Qed.

Lemma emit_raises s t before h after err :
  emitter (world t) = before ++ Subscriber h :: after →
  (∀ h', Subscriber h' ∈ before → throws h' s = None) →
  throws h s = Some err →
  Faults.emit throws s t
  = Raises err
      (mkTurn (mkWorld (objs (world t)) (bufs (world t)) (cfgs (world t))
                 (jobs (world t)) (queue (world t)) (processing (world t))
                 (fired_emitter s before (emitter (world t))) (awaiting (world t))
                 (fired_promises s before (promises (world t)))
                 (broadcasts (world t) ++ [s])
                 (inbox (world t) ++ deliver (before ++ [Subscriber h]) s)
                 (unhandled (world t)))
              (reads t)).
Proof.
  intros He Hq Hh. unfold Faults.emit. op_unfold. rewrite He.
  rewrite (call_listeners_raises before h after s err) by done.
  cbn [world reads]. rewrite foldl_notify. cbn [ConversionQueue.notify].
  unfold set_inbox, set_broadcasts. cbn. rewrite He.
  unfold deliver. rewrite omap_app. cbn. by rewrite app_assoc.
Qed.

Lemma emit_returns s t :
  (∀ h, Subscriber h ∈ emitter (world t) → throws h s = None) →
  Faults.emit throws s t
  = Returns tt (mkTurn (ConversionQueue.emit s (world t)) (reads t)).
Proof.
  intros Hq. unfold Faults.emit, ConversionQueue.emit. op_unfold.
  by rewrite call_listeners_returns.
Qed.

Lemma notify_control l s t :
  control (world (state_of (Faults.notify throws l s t))) = control (world t).
Proof.
  destruct l as [h|wid]; cbn [Faults.notify]; op_unfold; cbn [world].
  - by destruct (throws h s).
  - cbn [state_of world]. rewrite notify_waiter.
    destruct (decide (id s = wid)); [|done].
    destruct (waiter_verdict s); [|done].
    unfold settle_promise. by destruct (promises _ !! wid).
Qed.

Lemma call_listeners_control ls s t :
  control (world (state_of (call_listeners throws ls s t))) = control (world t).
Proof.
  revert t. induction ls as [|l ls IH]; intros t; cbn [call_listeners]; [done|].
  unfold mbind, Op_bind. pose proof (notify_control l s t) as Hn.
  destruct (Faults.notify throws l s t) as [[] t'|err t']; cbn [state_of] in *.
  - by rewrite IH.
  - done.
Qed.

Lemma emit_control s t :
  control (world (state_of (Faults.emit throws s t))) = control (world t).
Proof. unfold Faults.emit. op_unfold. by rewrite call_listeners_control. Qed.

Lemma emit_copy_control job t :
  control (world (state_of (Faults.emit_copy throws job t))) = control (world t).
Proof.
  unfold Faults.emit_copy. op_unfold.
  destruct (objs (world t) !! job); [apply emit_control|done].
Qed.

End Listeners.

Section Frame.
Variable throws : nat → ConversionJob → option Thrown.
Variable clock : nat → Z.

Lemma assign_control job f w : control (assign job f w) = control w.
Proof. unfold control, assign. cbn. by rewrite length_alter. Qed.

Lemma before_await_control job t :
  control (world (state_of (before_await throws clock job t))) = control (world t).
Proof.
  unfold before_await, Date_now. op_unfold.
  match goal with |- context [Faults.emit_copy throws job ?t1] =>
    pose proof (emit_copy_control throws job t1) as H1;
    destruct (Faults.emit_copy throws job t1) as [[] t2|err t2] end;
    cbn [state_of world] in *; rewrite assign_control in H1; [|done].
  match goal with |- context [Faults.emit_copy throws job ?t1] =>
    pose proof (emit_copy_control throws job t1) as H2 end.
  cbn [world] in H2. rewrite assign_control in H2. congruence.
Qed.

Lemma catch_block_control job err t :
  control (world (state_of (catch_block throws clock job err t))) = control (world t).
Proof.
  unfold catch_block, Date_now. op_unfold.
  match goal with |- context [Faults.emit_copy throws job ?t1] =>
    pose proof (emit_copy_control throws job t1) as H1 end.
  cbn [world] in H1. by rewrite assign_control in H1.
Qed.

Lemma after_await_control job o t :
  control (world (state_of (after_await throws clock job o t))) = control (world t).
Proof.
  destruct o as [r|err]; [|done]. unfold after_await, Date_now. op_unfold.
  match goal with |- context [Faults.emit_copy throws job ?t1] =>
    pose proof (emit_copy_control throws job t1) as H1 end.
  cbn [world] in H1. by rewrite assign_control in H1.
Qed.


Lemma control_guarded w w' : control w' = control w → guarded w → guarded w'.
Proof. unfold control, guarded. intros [= _ _ -> -> _ _]. done. Qed.

Lemma control_fields w w' :
  control w' = control w →
  jobs w' = jobs w ∧ queue w' = queue w ∧ processing w' = processing w
  ∧ awaiting w' = awaiting w ∧ unhandled w' = unhandled w.
Proof. unfold control. by intros [= -> -> -> -> -> _]. Qed.

Lemma void_guarded p t :
  guarded (world (state_of (p t))) → guarded (world (state_of (void p t))).
Proof. unfold void. by destruct (p t). Qed.

Lemma void_returns p t : ∃ t', void p t = Returns tt t'.
Proof. unfold void. destruct (p t); eauto. Qed.

Lemma try_finally_state {A} (body : Op A) fin t :
  state_of (try_finally body fin t) = state_of (fin (state_of (body t))).
Proof. unfold try_finally. destruct (body t); cbn; by destruct (fin _). Qed.

(** The [finally] block leaves the guard as the invariant wants it, provided
    the call it makes does. *)
Lemma finally_block_guarded next t :
  awaiting (world t) = [] →
  (∀ t', guarded (world t') → guarded (world (state_of (next t')))) →
  guarded (world (state_of (finally_block next t))).
Proof.
  intros Ha Hnext. unfold finally_block. op_unfold. apply void_guarded, Hnext.
  left. by cbn.
Qed.

Lemma processNext_from_guarded q t :
  guarded (world t) → guarded (world (state_of (processNext_from throws clock q t))).
Proof.
  revert t. induction q as [|nextId rest IH]; intros t G; cbn [processNext_from].
  - by destruct (processing (world t)).
  - destruct (processing (world t)) eqn:Hp; [done|].
    destruct G as [[_ Ha]|[? _]]; [|congruence].
    cbn [world reads]. destruct (decide (nextId = "")); [by left|].
    cbn [jobs set_queue]. destruct (jobs (world t) !! nextId) as [job|]; [|by left].
    match goal with |- context [before_await throws clock job ?t0] =>
      pose proof (before_await_control job t0) as Hc;
      destruct (before_await throws clock job t0) as [[] t1|err t1] end;
      cbn [state_of world] in *; apply control_fields in Hc as (_ & _ & Hp1 & Ha1 & _).
    + right. cbn. rewrite Ha1. cbn. rewrite Ha. eauto.
    + rewrite try_finally_state. apply finally_block_guarded; [|exact IH].
      pose proof (catch_block_control job err t1) as Hc.
      apply control_fields in Hc as (_ & _ & _ & -> & _). rewrite Ha1. by cbn.
Qed.

Lemma processNext_guarded t :
  guarded (world t) → guarded (world (state_of (Faults.processNext throws clock t))).
Proof. apply processNext_from_guarded. Qed.

(** [processNext] as the source has it: the call of the [finally] block is
    a call of [processNext] itself. *)
Lemma processNext_unfold t :
  Faults.processNext throws clock t =
    if processing (world t) then Returns tt t
    else match queue (world t) with
         | [] => Returns tt t
         | nextId :: rest =>
           let t := mkTurn (set_queue rest (world t)) (reads t) in
           if decide (nextId = "") then Returns tt t
           else match jobs (world t) !! nextId with
                | None => Returns tt t
                | Some job =>
                  let t := mkTurn (set_processing true (world t)) (reads t) in
                  match before_await throws clock job t with
                  | Returns _ t1 =>
                    Returns tt (mkTurn (set_awaiting (awaiting (world t1) ++ [job])
                                                     (world t1)) (reads t1))
                  | Raises err t1 =>
                    try_finally (catch_block throws clock job err)
                                (finally_block (Faults.processNext throws clock)) t1
                  end
                end
         end.
Proof.
  unfold Faults.processNext at 1.
  destruct (queue (world t)) as [|nextId rest] eqn:Hq; cbn [processNext_from]; [done|].
  destruct (processing (world t)); [done|]. cbv zeta. cbn [world reads].
  destruct (decide (nextId = "")); [done|].
  destruct (jobs (set_queue rest (world t)) !! nextId) as [job|]; [|done].
  match goal with |- context [before_await throws clock job ?t0] =>
    pose proof (before_await_control job t0) as Hc;
    destruct (before_await throws clock job t0) as [[] t1|err t1] end; [done|].
  cbn [state_of world] in Hc. apply control_fields in Hc as (_ & Hq1 & _).
  cbn in Hq1. unfold try_finally.
  pose proof (catch_block_control job err t1) as Hc.
  apply control_fields in Hc as (_ & Hq2 & _). rewrite Hq1 in Hq2.
  assert (Hfin : ∀ t2, queue (world t2) = rest →
    finally_block (processNext_from throws clock rest) t2
    = finally_block (Faults.processNext throws clock) t2).
  { intros t2 Ht2. unfold finally_block, void. op_unfold.
    unfold Faults.processNext. cbn [world queue set_processing]. by rewrite Ht2. }
  destruct (catch_block throws clock job err t1) as [[] t2|err' t2];
    cbn [state_of] in Hq2; by rewrite Hfin.
Qed.

End Frame.

Section Quiet.
Variable throws : nat → ConversionJob → option Thrown.
Variable clock : nat → Z.
Hypothesis quiet : ∀ h s, throws h s = None.








End Quiet.

Section Refinement.
Variable throws : nat → ConversionJob → option Thrown.
Hypothesis quiet : ∀ h s, throws h s = None.






End Refinement.

Section Faulty.
Variable throws : nat → ConversionJob → option Thrown.

Lemma after_await_fulfilled clock job r t :
  after_await throws clock job (Fulfilled r) t
  = Faults.emit_copy throws job
      (mkTurn (assign job (completed_fields r (clock (reads t))) (world t))
              (S (reads t))).
Proof. done. Qed.

Lemma catch_block_eq clock job err t :
  catch_block throws clock job err t
  = Faults.emit_copy throws job
      (mkTurn (assign job (failed_fields err (clock (reads t))) (world t))
              (S (reads t))).
Proof. done. Qed.

Lemma emit_copy_at job t j :
  objs (world t) !! job = Some j →
  Faults.emit_copy throws job t = Faults.emit throws j t.
Proof. intros Hj. unfold Faults.emit_copy. op_unfold. by rewrite Hj. Qed.

Lemma step_guarded w c : guarded w → guarded (Faults.step throws w c).
Proof.
  intros G. destruct c as [uuid clock f fn|uuid clock f fn|i|h|h|k o clock|l b|l b];
    cbn [Faults.step]; try done.
  - unfold Faults.enqueue, Date_now. op_unfold. cbn [world reads].
    match goal with |- context [Faults.emit_copy throws ?r ?t1] =>
      pose proof (emit_copy_control throws r t1) as Hc;
      destruct (Faults.emit_copy throws r t1) as [[] t2|err t2] end;
      cbn [state_of world] in *.
    + assert (G2 : guarded (world t2)) by (eapply control_guarded; [exact Hc|done]).
      pose proof (void_guarded _ _ (processNext_guarded throws clock t2 G2)) as G3.
      by destruct (void (Faults.processNext throws clock) t2).
    + eapply control_guarded; [exact Hc|done].
  - unfold Faults.enqueueAndWait, try_catch, Faults.enqueue, Date_now. op_unfold.
    cbn [world reads].
    match goal with |- context [Faults.emit_copy throws ?r ?t1] =>
      pose proof (emit_copy_control throws r t1) as Hc;
      destruct (Faults.emit_copy throws r t1) as [[] t2|err t2] end;
      cbn [state_of world] in *.
    + assert (G2 : guarded (world t2)) by (eapply control_guarded; [exact Hc|done]).
      pose proof (void_guarded _ _ (processNext_guarded throws clock t2 G2)) as G3.
      by destruct (void (Faults.processNext throws clock) t2).
    + eapply control_guarded; [exact Hc|done].
  - unfold getJob. repeat case_match; done.
  - unfold Faults.resume. destruct (awaiting w !! k) as [job|] eqn:Hk; [|done].
    apply void_guarded. unfold processNext_resume. rewrite try_finally_state.
    apply finally_block_guarded; [|apply processNext_guarded].
    assert (Ha : awaiting (set_awaiting (delete k (awaiting w)) w) = []).
    { destruct G as [[_ Ha]|(_ & l & Ha)]; rewrite Ha in Hk |- *; [done|].
      destruct k; [done|]. by destruct k. }
    unfold try_catch.
    match goal with |- context [after_await throws clock job o ?t0] =>
      pose proof (after_await_control throws clock job o t0) as Hc;
      destruct (after_await throws clock job o t0) as [[] t1|err t1] end;
      cbn [state_of world] in *; apply control_fields in Hc as (_ & _ & _ & Ha1 & _).
    + congruence.
    + pose proof (catch_block_control throws clock job err t1) as Hc.
      apply control_fields in Hc as (_ & _ & _ & -> & _). congruence.
Qed.

(** X22: when a listener throws on the snapshot of the queued job,
    [enqueue] throws that exception to its caller after the job was stored
    and put in the pending queue: the listeners registered before the one
    that throws were called, those after it were not, and [processNext] was
    not called, so on an idle service the job stays pending with nothing in
    flight. *)
Theorem enqueue_listener_throws (clock : nat → Z) (uuid : string) (file : nat)
    (fileName : option string) (w : World)
    (before after : list Listener) (h : nat) (err : Thrown) :
  emitter w = before ++ Subscriber h :: after →
  (∀ h', Subscriber h' ∈ before →
         throws h' (new_job uuid (clock 0%nat) file fileName) = None) →
  throws h (new_job uuid (clock 0%nat) file fileName) = Some err →
  ∃ t', Faults.enqueue throws clock uuid file fileName (mkTurn w 0) = Raises err t'
        ∧ job_at (world t') uuid = Some (new_job uuid (clock 0%nat) file fileName)
        ∧ queue (world t') = queue w ++ [uuid]
        ∧ processing (world t') = processing w
        ∧ awaiting (world t') = awaiting w
        ∧ broadcasts (world t')
          = broadcasts w ++ [new_job uuid (clock 0%nat) file fileName]
        ∧ inbox (world t')
          = inbox w ++ deliver (before ++ [Subscriber h])
                               (new_job uuid (clock 0%nat) file fileName)
        ∧ unhandled (world t') = unhandled w.
Proof.
  intros He Hq Hh. unfold Faults.enqueue, Date_now. op_unfold. cbn [world reads].
  unfold Faults.emit_copy. op_unfold. cbn [world objs set_objs set_jobs set_queue].
  rewrite lookup_app_r, Nat.sub_diag by done. cbn [lookup list_lookup].
  erewrite (emit_raises throws _ _ before h after err); [|exact He|exact Hq|exact Hh].
  eexists. split; [done|]. cbn. repeat split; try done.
  eapply job_at_alloc_new; done.
Qed.

(** The turn in which the conversion succeeded and a listener throws on the
    snapshot of the completed job. *)
Lemma resume_listener_throws (clock : nat → Z) (w : World) (k job r : nat)
    (j : ConversionJob) (before after : list Listener) (h : nat) (err : Thrown) :
  awaiting w !! k = Some job →
  objs w !! job = Some j →
  emitter w = before ++ Subscriber h :: after →
  (∀ h', Subscriber h' ∈ before →
         throws h' (completed_fields r (clock 0%nat) j) = None) →
  throws h (completed_fields r (clock 0%nat) j) = Some err →
  (∀ h', throws h' (failed_fields err (clock 1%nat)
                      (completed_fields r (clock 0%nat) j)) = None) →
  Faults.resume throws k (Fulfilled r) clock w
  = world (state_of (void (Faults.processNext throws clock)
      (mkTurn
         (mkWorld
            (<[job := failed_fields err (clock 1%nat)
                        (completed_fields r (clock 0%nat) j)]> (objs w))
            (bufs w) (cfgs w) (jobs w) (queue w) false
            (fired_emitter
               (failed_fields err (clock 1%nat) (completed_fields r (clock 0%nat) j))
               (fired_emitter (completed_fields r (clock 0%nat) j) before (emitter w))
               (fired_emitter (completed_fields r (clock 0%nat) j) before (emitter w)))
            (delete k (awaiting w))
            (fired_promises
               (failed_fields err (clock 1%nat) (completed_fields r (clock 0%nat) j))
               (fired_emitter (completed_fields r (clock 0%nat) j) before (emitter w))
               (fired_promises (completed_fields r (clock 0%nat) j) before (promises w)))
            (broadcasts w ++ [completed_fields r (clock 0%nat) j;
                              failed_fields err (clock 1%nat)
                                (completed_fields r (clock 0%nat) j)])
            ((inbox w ++ deliver (before ++ [Subscriber h])
                                 (completed_fields r (clock 0%nat) j))
             ++ deliver (fired_emitter (completed_fields r (clock 0%nat) j) before
                                       (emitter w))
                        (failed_fields err (clock 1%nat)
                           (completed_fields r (clock 0%nat) j)))
            (unhandled w))
         2))).
Proof.
  intros Hk Hj He Hq Hh Hfailed.
  unfold Faults.resume. rewrite Hk.
  set (w0 := set_awaiting (delete k (awaiting w)) w).
  set (done_ := completed_fields r (clock 0%nat) j) in *.
  set (failed := failed_fields err (clock 1%nat) done_) in *.
  set (w1 := mkWorld (<[job := done_]> (objs w)) (bufs w) (cfgs w) (jobs w)
               (queue w) (processing w) (fired_emitter done_ before (emitter w))
               (delete k (awaiting w)) (fired_promises done_ before (promises w))
               (broadcasts w ++ [done_])
               (inbox w ++ deliver (before ++ [Subscriber h]) done_) (unhandled w)).
  assert (Hlt : (job < length (objs w))%nat) by (by eapply lookup_lt_Some).
  assert (Hbody : after_await throws clock job (Fulfilled r) (mkTurn w0 0)
                  = Raises err (mkTurn w1 1)).
  { rewrite after_await_fulfilled. cbn [world reads].
    rewrite (emit_copy_at _ _ done_).
    - erewrite (emit_raises throws _ _ before h after err); [|exact He|exact Hq|exact Hh].
      subst w1 w0. unfold assign. cbn. by rewrite (alter_insert _ _ _ _ Hj).
    - subst w0. unfold assign. cbn. rewrite (alter_insert _ _ _ _ Hj).
      by rewrite list_lookup_insert_eq. }
  assert (Hcatch : catch_block throws clock job err (mkTurn w1 1)
                   = Returns tt (mkTurn (ConversionQueue.emit failed
                                           (assign job (failed_fields err (clock 1%nat)) w1))
                                        2)).
  { rewrite catch_block_eq. cbn [world reads].
    rewrite (emit_copy_at _ _ failed).
    - by rewrite emit_returns by (intros; apply Hfailed).
    - subst w1. unfold assign. cbn.
      rewrite (alter_insert _ _ _ done_) by (by rewrite list_lookup_insert_eq).
      rewrite list_insert_insert_eq. by rewrite list_lookup_insert_eq. }
  unfold processNext_resume, try_finally, try_catch. unfold void at 1.
  rewrite Hbody, Hcatch. unfold finally_block. op_unfold. cbn [world reads].
  match goal with |- context [mkTurn (set_processing false ?x) 2] =>
    replace (set_processing false x) with
      (mkWorld (<[job := failed]> (objs w)) (bufs w) (cfgs w) (jobs w) (queue w) false
         (fired_emitter failed (fired_emitter done_ before (emitter w))
            (fired_emitter done_ before (emitter w)))
         (delete k (awaiting w))
         (fired_promises failed (fired_emitter done_ before (emitter w))
            (fired_promises done_ before (promises w)))
         (broadcasts w ++ [done_; failed])
         ((inbox w ++ deliver (before ++ [Subscriber h]) done_)
          ++ deliver (fired_emitter done_ before (emitter w)) failed)
         (unhandled w))
  end.
  - match goal with |- context [void (Faults.processNext throws clock) ?t] =>
      destruct (void_returns (Faults.processNext throws clock) t) as [t' ->] end.
    done.
  - rewrite emit_eq. subst w1. unfold assign. cbn.
    rewrite (alter_insert _ _ _ done_) by (by rewrite list_lookup_insert_eq).
    rewrite list_insert_insert_eq. by rewrite <- (app_assoc (broadcasts w)).
Qed.

(** X25: when the conversion succeeded and a listener throws on the
    snapshot of the completed job, the [catch] block takes the job for
    failed: its record ends failed with progress 100, the result still set
    and the error of the listener as its error; a second terminal snapshot
    goes out; and the drain goes on. *)
Theorem listener_fails_completed_job (clock : nat → Z) (w : World) (k job r : nat)
    (j : ConversionJob) (before after : list Listener) (h : nat) (err : Thrown) :
  awaiting w !! k = Some job →
  objs w !! job = Some j →
  emitter w = before ++ Subscriber h :: after →
  (∀ h', Subscriber h' ∈ before →
         throws h' (completed_fields r (clock 0%nat) j) = None) →
  throws h (completed_fields r (clock 0%nat) j) = Some err →
  (∀ h', throws h' (failed_fields err (clock 1%nat)
                      (completed_fields r (clock 0%nat) j)) = None) →
  ∃ mid,
    Faults.resume throws k (Fulfilled r) clock w
    = world (state_of (void (Faults.processNext throws clock) (mkTurn mid 2)))
    ∧ objs mid !! job
      = Some (mkJob (id j) Failed 100 (file j) (fileName j) (Some r)
                    (Some (error_text err)) (createdAt j) (clock 1%nat))
    ∧ broadcasts mid
      = broadcasts w ++ [completed_fields r (clock 0%nat) j;
                         failed_fields err (clock 1%nat)
                           (completed_fields r (clock 0%nat) j)]
    ∧ processing mid = false
    ∧ awaiting mid = delete k (awaiting w)
    ∧ queue mid = queue w
    ∧ jobs mid = jobs w
    ∧ unhandled mid = unhandled w.
Proof.
  intros Hk Hj He Hq Hh Hfailed.
  eexists. split; [exact (resume_listener_throws clock w k job r j before after h err Hk Hj He Hq Hh Hfailed)|].
  cbn. rewrite list_lookup_insert_eq by (by eapply lookup_lt_Some). done.
Qed.

Lemma fired_emitter_absent s ls e : Waiter (id s) ∉ ls → fired_emitter s ls e = e.
Proof.
  revert e. induction ls as [|[h'|wid] ls IH]; intros e Hno; cbn [fired_emitter].
  - done.
  - apply IH. set_solver.
  - rewrite decide_False by (intros <-; set_solver). apply IH. set_solver.
Qed.

(** X26: in that turn, what [enqueueAndWait] answers depends on the order
    of registration: a waiter called before the listener that throws has
    resolved with the result, although the record ends failed; a waiter
    after it is not called with the completed snapshot and rejects with the
    error of the listener. *)
Theorem waiter_sees_listener_order (clock : nat → Z) (w : World) (k job r : nat)
    (j : ConversionJob) (before after : list Listener) (h : nat) (err : Thrown) :
  awaiting w !! k = Some job →
  objs w !! job = Some j →
  emitter w = before ++ Subscriber h :: after →
  (∀ h', Subscriber h' ∈ before →
         throws h' (completed_fields r (clock 0%nat) j) = None) →
  throws h (completed_fields r (clock 0%nat) j) = Some err →
  (∀ h', throws h' (failed_fields err (clock 1%nat)
                      (completed_fields r (clock 0%nat) j)) = None) →
  promises w !! id j = None →
  ∃ mid,
    Faults.resume throws k (Fulfilled r) clock w
    = world (state_of (void (Faults.processNext throws clock) (mkTurn mid 2)))
    ∧ (status <$> objs mid !! job) = Some Failed
    ∧ (Waiter (id j) ∈ before → promises mid !! id j = Some (Resolved r))
    ∧ (Waiter (id j) ∉ before → Waiter (id j) ∈ after →
       promises mid !! id j
       = Some (RejectedWith (error_or_default (Some (error_text err))))).
Proof.
  intros Hk Hj He Hq Hh Hfailed Hpending.
  eexists. split; [exact (resume_listener_throws clock w k job r j before after h err Hk Hj He Hq Hh Hfailed)|].
  cbn [objs promises]. rewrite list_lookup_insert_eq by (by eapply lookup_lt_Some).
  split; [done|]. split.
  - intros Hin.
    apply (fired_promises_keep (failed_fields err (clock 1%nat)
                                  (completed_fields r (clock 0%nat) j))).
    cbn [id failed_fields].
    rewrite (fired_promises_eq (completed_fields r (clock 0%nat) j) (Resolved r))
      by done.
    cbn [id completed_fields]. by rewrite decide_True.
  - intros Hno Hin.
    rewrite (fired_emitter_absent (completed_fields r (clock 0%nat) j)) by done.
    rewrite (fired_promises_eq
               (failed_fields err (clock 1%nat) (completed_fields r (clock 0%nat) j))
               (RejectedWith (error_or_default (Some (error_text err))))); [| done |].
    + cbn [id failed_fields completed_fields]. rewrite decide_True; [done|].
      rewrite He. set_solver.
    + cbn [id failed_fields].
      rewrite (fired_promises_eq (completed_fields r (clock 0%nat) j) (Resolved r))
        by done.
      cbn [id completed_fields]. by rewrite decide_False.
Qed.

(** X23: [enqueue] throws for the snapshot of the queued job only: when
    every listener returns on that snapshot, [enqueue] returns the id,
    whatever the listeners do with the snapshots of the drain it starts. *)
Theorem enqueue_contains_drain_faults (clock : nat → Z) (uuid : string) (file : nat)
    (fileName : option string) (w : World) :
  (∀ h, Subscriber h ∈ emitter w →
        throws h (new_job uuid (clock 0%nat) file fileName) = None) →
  ∃ t', Faults.enqueue throws clock uuid file fileName (mkTurn w 0) = Returns uuid t'.
Proof.
  intros Hq. unfold Faults.enqueue, Date_now. op_unfold. cbn [world reads].
  unfold Faults.emit_copy. op_unfold. cbn [world objs set_objs set_jobs set_queue].
  rewrite lookup_app_r, Nat.sub_diag by done. cbn [lookup list_lookup].
  rewrite emit_returns by done.
  match goal with |- context [void (Faults.processNext throws clock) ?t] =>
    destruct (void_returns (Faults.processNext throws clock) t) as [t' ->] end.
  by eexists.
Qed.

(** X24: when a listener throws on the first snapshot of a job the drain
    takes up (processing, progress 5), the job fails there and then: its
    record is failed with progress 5 and the error of the listener, the
    snapshot with progress 50 is not emitted and no conversion is awaited for
    the job; the guard is taken down and the drain goes on with the next
    pending job. *)
Theorem listener_fails_job_at_start (clock : nat → Z) (w : World) (n job : nat)
    (nextId : string) (rest : list string) (j : ConversionJob)
    (before after : list Listener) (h : nat) (err : Thrown) :
  processing w = false →
  queue w = nextId :: rest →
  nextId ≠ "" →
  jobs w !! nextId = Some job →
  objs w !! job = Some j →
  emitter w = before ++ Subscriber h :: after →
  (∀ h', Subscriber h' ∈ before → throws h' (start_fields (clock n) j) = None) →
  throws h (start_fields (clock n) j) = Some err →
  (∀ h', throws h' (failed_fields err (clock (S n)) (start_fields (clock n) j)) = None) →
  ∃ mid,
    Faults.processNext throws clock (mkTurn w n)
    = void (Faults.processNext throws clock) (mkTurn mid (S (S n)))
    ∧ objs mid !! job
      = Some (mkJob (id j) Failed 5 (file j) (fileName j) (result j)
                    (Some (error_text err)) (createdAt j) (clock (S n)))
    ∧ broadcasts mid
      = broadcasts w ++ [start_fields (clock n) j;
                         failed_fields err (clock (S n)) (start_fields (clock n) j)]
    ∧ awaiting mid = awaiting w
    ∧ processing mid = false
    ∧ queue mid = rest
    ∧ unhandled mid = unhandled w.
Proof.
  intros Hp Hqueue Hne Hjob Hj He Hq Hh Hfailed.
  rewrite processNext_unfold. cbn [world reads]. rewrite Hp, Hqueue.
  cbv zeta. cbn [world reads]. rewrite decide_False by done.
  cbn [jobs set_queue]. rewrite Hjob.
  set (start := start_fields (clock n) j) in *.
  set (failed := failed_fields err (clock (S n)) start) in *.
  set (w1 := mkWorld (<[job := start]> (objs w)) (bufs w) (cfgs w) (jobs w)
               rest true (fired_emitter start before (emitter w))
               (awaiting w) (fired_promises start before (promises w))
               (broadcasts w ++ [start])
               (inbox w ++ deliver (before ++ [Subscriber h]) start) (unhandled w)).
  assert (Hlt : (job < length (objs w))%nat) by (by eapply lookup_lt_Some).
  assert (Hbody : before_await throws clock job
                    (mkTurn (set_processing true
                               (mkWorld (objs w) (bufs w) (cfgs w) (jobs w) rest
                                  (processing w) (emitter w) (awaiting w) (promises w)
                                  (broadcasts w) (inbox w) (unhandled w))) n)
                  = Raises err (mkTurn w1 (S n))).
  { unfold before_await, Date_now. op_unfold. cbn [world reads].
    rewrite (emit_copy_at _ _ start).
    - erewrite (emit_raises throws _ _ before h after err); [|exact He|exact Hq|exact Hh].
      subst w1. unfold assign. cbn. by rewrite (alter_insert _ _ _ _ Hj).
    - unfold assign. cbn. rewrite (alter_insert _ _ _ _ Hj).
      by rewrite list_lookup_insert_eq. }
  unfold set_queue at 1. rewrite Hbody. clear Hbody.
  assert (Hcatch : catch_block throws clock job err (mkTurn w1 (S n))
                   = Returns tt (mkTurn (ConversionQueue.emit failed
                                           (assign job (failed_fields err (clock (S n))) w1))
                                        (S (S n)))).
  { rewrite catch_block_eq. cbn [world reads].
    rewrite (emit_copy_at _ _ failed).
    - by rewrite emit_returns by (intros; apply Hfailed).
    - subst w1. unfold assign. cbn.
      rewrite (alter_insert _ _ _ start) by (by rewrite list_lookup_insert_eq).
      rewrite list_insert_insert_eq. by rewrite list_lookup_insert_eq. }
  unfold try_finally. rewrite Hcatch. unfold finally_block. op_unfold.
  cbn [world reads].
  eexists. split.
  { match goal with |- context [void (Faults.processNext throws clock) ?t] =>
      destruct (void_returns (Faults.processNext throws clock) t) as [t' Ht'] end.
    rewrite Ht'. symmetry. exact Ht'. }
  rewrite emit_eq. subst w1. unfold assign. cbn.
  rewrite (alter_insert _ _ _ start) by (by rewrite list_lookup_insert_eq).
  rewrite list_insert_insert_eq, list_lookup_insert_eq by done.
  repeat split; try done. by rewrite <- app_assoc.
Qed.

(** X21: whatever the listeners throw, after every turn the guard
    [processing] is up only while exactly one activation is parked at its
    [await], and with the guard down none is: an exception never leaves the
    guard up with nothing in flight, and never lets two conversions be
    awaited at once. *)
Theorem guard_never_stuck (calls : list Faults.Call) :
  (processing (Faults.run throws calls) = true →
   ∃ job, awaiting (Faults.run throws calls) = [job])
  ∧ (processing (Faults.run throws calls) = false →
     awaiting (Faults.run throws calls) = []).
Proof.
  assert (G : guarded (Faults.run throws calls)).
  { induction calls as [|c calls IH] using rev_ind; [by left|].
    unfold Faults.run. rewrite foldl_app. by apply step_guarded. }
  destruct G as [[Hp Ha]|[Hp Ha]]; split; intros; congruence.
Qed.

End Faulty.
End FaultFacts.

(** * The further theorems at example inputs *)
Module BundleInstances.
Import Bundle Examples DetectionFacts DecoderFacts.

(** A payload with the ZIP signature, named [Server.MCPB]. *)
Lemma processBundleFile_by_extension_demo :
  processBundleFile parse_known (λ _, inl (Error "not an archive"))
                    [0x50; 0x4b; 0x03; 0x04] (Some "Server.MCPB")
  = processMcpbJson parse_known [0x50; 0x4b; 0x03; 0x04].
Proof.
  destruct (processBundleFile_by_extension parse_known
              (λ _, inl (Error "not an archive"))
              [0x50; 0x4b; 0x03; 0x04] "Server" ".MCPB") as [_ H].
  exact (H eq_refl).
Defined.

(** 63 spaces before the brace are still in sight; 64 are not. *)
Lemma detectBundleType_leading_space_demo :
  detectBundleType (replicate 63 0x20 ++ 0x7B :: [0x7D]) (Some "bundle.json")
  = mcpb_json
  ∧ detectBundleType (replicate 64 0x20 ++ 0x7B :: [0x7D]) (Some "bundle.json") = dxt.
Proof.
  assert (Hws : ∀ n, Forall (λ b, b ∈ [0x09; 0x0A; 0x0B; 0x0C; 0x0D; 0x20])
                            (replicate n 0x20)).
  { intros n. apply Forall_replicate. compute_done. }
  split.
  - exact (detectBundleType_leading_space (replicate 63 0x20) [0x7D]
             (Some "bundle.json") (Hws 63%nat) eq_refl eq_refl).
  - exact (detectBundleType_leading_space (replicate 64 0x20) [0x7D]
             (Some "bundle.json") (Hws 64%nat) eq_refl eq_refl).
Defined.

(** The text [[]], with no file name. *)
Lemma detectBundleType_needs_brace_demo : detectBundleType [91; 93] None = dxt.
Proof.
  apply detectBundleType_needs_brace; [|reflexivity].
  compute_done.
Defined.

Lemma processMcpbJson_success_demo :
  ∃ fields, normal_record = JObject fields ∧ truthy (assoc "name" fields) = true.
Proof.
  destruct (processMcpbJson_success parse_known bare_text normal_record eq_refl)
    as (fields & H1 & H2 & _).
  exists fields. split; [exact H1|exact H2].
Defined.

(** The text [{"name":""}] parses, and is rejected for its name. *)
Lemma processMcpbJson_errors_demo :
  parse_empty_name (utf8_decode [123; 34; 110; 97; 109; 101; 34; 58; 34; 34; 125])
  ≠ inl (Error "Invalid MCPB: missing 'name'")
  ∧ (parse_empty_name (utf8_decode [123; 34; 110; 97; 109; 101; 34; 58; 34; 34; 125])
     = inl (Error "Invalid MCPB: missing 'name'")
     ∨ (parse_empty_name (utf8_decode [123; 34; 110; 97; 109; 101; 34; 58; 34; 34; 125])
        = inr JNull
        ∧ Error "Invalid MCPB: missing 'name'"
          = TypeError "Cannot read properties of null (reading 'server')")
     ∨ Error "Invalid MCPB: missing 'name'" = Error "Invalid MCPB content: not an object"
     ∨ Error "Invalid MCPB: missing 'name'" = Error "Invalid MCPB: missing 'name'").
Proof.
  split; [discriminate|].
  exact (processMcpbJson_errors parse_empty_name
           [123; 34; 110; 97; 109; 101; 34; 58; 34; 34; 125]
           (Error "Invalid MCPB: missing 'name'") eq_refl).
Defined.

(** The text [null]. *)
Lemma processMcpbJson_not_a_record_demo :
  processMcpbJson parse_known null_text
  = inl (TypeError "Cannot read properties of null (reading 'server')").
Proof. exact (processMcpbJson_not_a_record parse_known null_text JNull eq_refl). Defined.

Lemma processMcpbJson_wrapper_demo :
  processMcpbJson parse_known wrapped_text = processMcpbJson parse_known bare_text.
Proof.
  apply (processMcpbJson_wrapper parse_known wrapped_text bare_text
           [("server", bare_record)] bare_record); try reflexivity.
  intros inner [= <-]. reflexivity.
Defined.

Lemma processMcpbJson_idempotent_demo :
  processMcpbJson parse_known bare_text = inr normal_record
  ∧ processMcpbJson parse_known normal_text = inr normal_record.
Proof.
  split; [reflexivity|].
  apply (processMcpbJson_idempotent parse_known bare_text normal_text normal_record);
    try reflexivity.
  intros fields [= <-]. reflexivity.
Defined.

(** A record with a property the decoder does not know. *)
Lemma processMcpbJson_keeps_fields_demo :
  ∃ out,
    processMcpbJson (λ _, inr (JObject [("name", JString "s"); ("command", JString "npx")]))
                    bare_text = inr (JObject out)
    ∧ assoc "command" out = Some (JString "npx").
Proof.
  eexists. split; [reflexivity|].
  destruct (processMcpbJson_keeps_fields
              (λ _, inr (JObject [("name", JString "s"); ("command", JString "npx")]))
              bare_text
              (JObject [("name", JString "s"); ("command", JString "npx")])
              [("name", JString "s"); ("command", JString "npx")] _
              eq_refl eq_refl eq_refl) as (H & _ & _).
  rewrite H; [reflexivity|]. compute_done.
Defined.

End BundleInstances.

Module ServiceInstances.
Import ConversionQueue Examples QueueFacts ServiceFacts.

Lemma jobs_retained_demo :
  is_Some (getJob "a" (run demo)).1 ∧ size (jobs (run demo)) = 2%nat.
Proof.
  assert (Hf : fresh_uuids (in_flight ++ [Settle 0 (Rejected (Error "missing name")) 12 13]))
    by (split; compute_done).
  destruct (jobs_retained in_flight [Settle 0 (Rejected (Error "missing name")) 12 13]
              "a" Hf) as (_ & H1 & H2); [compute_done|].
  split; [exact H1|exact H2].
Defined.



Lemma job_fields_fixed_demo :
  ∃ j', job_at (run demo) "b" = Some j' ∧ createdAt j' = 3
        ∧ fileName j' = Some "x.mcpb".
Proof.
  assert (Hf : fresh_uuids (in_flight ++ [Settle 0 (Rejected (Error "missing name")) 12 13]))
    by (split; compute_done).
  destruct (job_fields_fixed in_flight [Settle 0 (Rejected (Error "missing name")) 12 13]
              "b" job_b Hf eq_refl) as (j' & H1 & H2 & _ & H3).
  exists j'. split; [exact H1|]. split; [exact H2|exact H3].
Defined.




(** The lookup of the failed job returns what its last update said. *)
Lemma latest_update_is_record_demo :
  ∃ j, objs (set_objs (objs (run demo) ++ [job_b_failed]) (run demo))
         !! length (objs (run demo)) = Some j
       ∧ last (history (run demo) "b") = Some j.
Proof.
  assert (Hf : fresh_uuids demo) by (split; compute_done).
  destruct (latest_update_is_record demo "b" Hf) as [H _].
  exact (H _ _ (getJob_present "b" (run demo) 1 job_b_failed eq_refl eq_refl)).
Defined.

Lemma timestamps_ordered_demo :
  StronglySorted Z.le (updatedAt <$> broadcasts (run demo)).
Proof.
  assert (Hf : fresh_uuids demo) by (split; compute_done).
  assert (Hclock : StronglySorted Z.le (clock demo)).
  { cbn. repeat constructor; lia. }
  destruct (timestamps_ordered demo "b" job_b_failed Hf Hclock eq_refl) as (_ & H & _).
  exact H.
Defined.

End ServiceInstances.

Module FaultInstances.
Import ConversionQueue Examples QueueFacts Faults FaultFacts.


Lemma throws_at_other st p h s :
  h ≠ 9%nat ∨ status s ≠ st ∨ progress s ≠ p → throws_at st p h s = None.
Proof. intros H. unfold throws_at. rewrite decide_False; [done|]. tauto. Qed.

(** The second of two subscribers throws on the snapshot of the queued
    job: the first one was called, the job is stored and pending, nothing is
    in flight. *)
Lemma enqueue_listener_throws_demo :
  ∃ t', Faults.enqueue (throws_at Queued 0) (two_readings 1 2) "a" 0%nat None
                       (mkTurn (ConversionQueue.run two_listeners) 0)
        = Raises (Error "listener broke") t'
        ∧ queue (world t') = ["a"]
        ∧ processing (world t') = false
        ∧ awaiting (world t') = [].
Proof.
  destruct (enqueue_listener_throws (throws_at Queued 0) (two_readings 1 2) "a" 0%nat None
              (ConversionQueue.run two_listeners) [Subscriber 7] [] 9
              (Error "listener broke") eq_refl)
    as (t' & H1 & _ & H2 & H3 & H4 & _).
  - intros h' Hin. apply throws_at_other. left.
    apply list_elem_of_singleton in Hin. injection Hin as ->. discriminate.
  - reflexivity.
  - exists t'. split; [exact H1|]. split; [exact H2|]. split; [exact H3|exact H4].
Defined.

(** The same subscribers, the second throwing on completed jobs only:
    [enqueue] returns. *)
Lemma enqueue_contains_drain_faults_demo :
  ∃ t', Faults.enqueue (throws_at Completed 100) (two_readings 1 2) "a" 0%nat None
                       (mkTurn (ConversionQueue.run two_listeners) 0)
        = Returns "a" t'.
Proof.
  apply enqueue_contains_drain_faults.
  intros h _. apply throws_at_other. right. left. discriminate.
Defined.

(** The stranded job is taken up by the next call of [processNext]; the
    second subscriber throws on the snapshot with progress 5. *)
Lemma listener_fails_job_at_start_demo :
  ∃ mid,
    Faults.processNext (throws_at Processing 5) (two_readings 3 4) (mkTurn stranded 0)
    = void (Faults.processNext (throws_at Processing 5) (two_readings 3 4))
           (mkTurn mid 2)
    ∧ objs mid !! 0%nat
      = Some (mkJob "a" Failed 5 0%nat None None (Some "listener broke") 1 4)
    ∧ awaiting mid = [].
Proof.
  destruct (listener_fails_job_at_start (throws_at Processing 5) (two_readings 3 4)
              stranded 0 0 "a" [] (new_job "a" 1 0%nat None)
              [Subscriber 7] [] 9 (Error "listener broke")
              eq_refl eq_refl) as (mid & H1 & H2 & _ & H3 & _).
  - discriminate.
  - reflexivity.
  - reflexivity.
  - reflexivity.
  - intros h' Hin. apply throws_at_other. left.
    apply list_elem_of_singleton in Hin. injection Hin as ->. discriminate.
  - reflexivity.
  - intros h'. apply throws_at_other. right. left. discriminate.
  - exists mid. split; [exact H1|]. split; [exact H2|exact H3].
Defined.

(** The conversion of the awaited job succeeds, and the second subscriber
    throws on the snapshot of the completed job. *)
Lemma listener_fails_completed_job_demo :
  ∃ mid,
    Faults.resume (throws_at Completed 100) 0 (Fulfilled 5%nat) (two_readings 10 11)
                  (ConversionQueue.run awaited)
    = world (state_of (void (Faults.processNext (throws_at Completed 100)
                                                (two_readings 10 11))
                            (mkTurn mid 2)))
    ∧ objs mid !! 0%nat
      = Some (mkJob "a" Failed 100 0%nat None (Some 5%nat) (Some "listener broke") 1 11).
Proof.
  destruct (listener_fails_completed_job (throws_at Completed 100) (two_readings 10 11)
              (ConversionQueue.run awaited) 0 0 5 job_a
              [Subscriber 7] [Waiter "a"] 9 (Error "listener broke")
              eq_refl eq_refl eq_refl) as (mid & H1 & H2 & _).
  - intros h' Hin. apply throws_at_other. left.
    apply list_elem_of_singleton in Hin. injection Hin as ->. discriminate.
  - reflexivity.
  - intros h'. apply throws_at_other. right. left. discriminate.
  - exists mid. split; [exact H1|exact H2].
Defined.

(** There, the waiter is registered after the subscriber that throws: its
    promise is rejected with the error of that subscriber. *)
Lemma waiter_sees_listener_order_demo :
  ∃ mid,
    Faults.resume (throws_at Completed 100) 0 (Fulfilled 5%nat) (two_readings 10 11)
                  (ConversionQueue.run awaited)
    = world (state_of (void (Faults.processNext (throws_at Completed 100)
                                                (two_readings 10 11))
                            (mkTurn mid 2)))
    ∧ promises mid !! "a" = Some (RejectedWith "listener broke").
Proof.
  destruct (waiter_sees_listener_order (throws_at Completed 100) (two_readings 10 11)
              (ConversionQueue.run awaited) 0 0 5 job_a
              [Subscriber 7] [Waiter "a"] 9 (Error "listener broke")
              eq_refl eq_refl eq_refl) as (mid & H1 & _ & _ & H2).
  - intros h' Hin. apply throws_at_other. left.
    apply list_elem_of_singleton in Hin. injection Hin as ->. discriminate.
  - reflexivity.
  - intros h'. apply throws_at_other. right. left. discriminate.
  - reflexivity.
  - exists mid. split; [exact H1|]. apply H2; compute_done.
Defined.

End FaultInstances.
